(** * Trinity: the tool registry ([src/Tools.ts])

    A shallow embedding of the [Tools] class: the flag-gated cache with its
    path index, the unit loader with its validation of a module's exports,
    the cache-busting dynamic import, the filesystem watcher and the change
    callback.  The always-rescan variant of the class is embedded in
    [Module AlwaysRescan].

    Asynchronous methods are embedded twice over the same pieces: run to
    completion with nothing interleaved (the state monad [M]), and cut at
    their [await]s (the scheduler of [Module Interleaving]), where a
    filesystem event can be delivered between two continuations. *)

From Stdlib Require Import ZArith Lia Ascii String.
From stdpp Require Import base option list strings gmap pretty.

Open Scope string_scope.
Open Scope list_scope.

(** ** JavaScript values, as far as the loader inspects them *)

Inductive JsValue :=
| JsUndefined
| JsNull
| JsBoolean (b : bool)
| JsNumber (n : Z)
| JsNaN
| JsBigInt (n : Z)
| JsString (s : string)
| JsSymbol (ref : nat)
| JsObject (ref : nat)
| JsFunction (ref : nat).

(** [typeof v] *)
Definition typeof (v : JsValue) : string :=
  match v with
  | JsUndefined => "undefined"
  | JsNull => "object"
  | JsBoolean _ => "boolean"
  | JsNumber _ | JsNaN => "number"
  | JsBigInt _ => "bigint"
  | JsString _ => "string"
  | JsSymbol _ => "symbol"
  | JsObject _ => "object"
  | JsFunction _ => "function"
  end.

(** [!v] *)
Definition falsy (v : JsValue) : bool :=
  match v with
  | JsUndefined | JsNull | JsNaN => true
  | JsBoolean b => negb b
  | JsNumber n | JsBigInt n => (n =? 0)%Z
  | JsString s => bool_decide (s = "")
  | JsSymbol _ | JsObject _ | JsFunction _ => false
  end.

(** A module namespace, [Record<string, unknown>]: an export that is absent
    reads as [undefined]. *)
Abbreviation Exports := (gmap string JsValue).

Definition export (exports : Exports) (key : string) : JsValue :=
  default JsUndefined (exports !! key).

(** A thrown value: an [Error] with its [message] (or another object
    whose [message] is that string), or any value that is no such object;
    a module or a callback may throw [null], [undefined], a string. *)
Inductive JsError :=
| Error (message : string)
| Thrown (value : JsValue).

(** [null] and [undefined]: reading a property of them throws. *)
Definition nullish (v : JsValue) : bool :=
  match v with
  | JsNull | JsUndefined => true
  | _ => false
  end.

(** The thrown values whose [message] cannot be read. *)
Definition unreadable (e : JsError) : bool :=
  match e with
  | Thrown v => nullish v
  | Error _ => false
  end.

(** The text of a value that is no [Error], in a log entry. *)
Definition show (v : JsValue) : string :=
  match v with
  | JsUndefined => "undefined"
  | JsNull => "null"
  | JsBoolean true => "true"
  | JsBoolean false => "false"
  | JsNumber n | JsBigInt n => pretty n
  | JsNaN => "NaN"
  | JsString s => s
  | JsSymbol _ => "Symbol()"
  | JsObject _ => "[object Object]"
  | JsFunction _ => "[Function]"
  end.

(** [err.message], where it can be read: a value that is no [Error] has
    none, and what is read is [undefined]. *)
Definition message (e : JsError) : string :=
  match e with
  | Error m => m
  | Thrown _ => "undefined"
  end.

(** [reason?.message || reason], for a message that is not empty *)
Definition message_or_reason (reason : JsError) : string :=
  match reason with
  | Error m => m
  | Thrown v => show v
  end.

(** The [TypeError] of the engine for [err.message] when [err] is [null]
    or [undefined], in the words of JavaScriptCore. *)
Definition not_an_object (e : JsError) : JsError :=
  Error ((match e with Thrown JsNull => "null" | _ => "undefined" end)
         +:+ " is not an object (evaluating 'err.message')").

(** ** [Map]: insertion-ordered, one entry per key

    [Map.prototype.set] on a key that is present replaces the value where
    the key stands; on a new key it appends.  [values()] iterates in that
    order. *)

Module JsMap.
Section Ops.
Context {V : Type}.

Definition t := list (string * V).

Definition empty : t := [].

Fixpoint get (k : string) (m : t) : option V :=
  match m with
  | [] => None
  | (k', v) :: m' => if decide (k' = k) then Some v else get k m'
  end.

Definition has (k : string) (m : t) : bool := bool_decide (is_Some (get k m)).

Fixpoint set (k : string) (v : V) (m : t) : t :=
  match m with
  | [] => [(k, v)]
  | (k', v') :: m' =>
      if decide (k' = k) then (k, v) :: m' else (k', v') :: set k v m'
  end.

Definition values (m : t) : list V := m.*2.
Definition size (m : t) : nat := length m.

End Ops.
Arguments t : clear implicits.
End JsMap.

(** ** [node:path], for slash-separated paths that do not end in a slash
    (every path the scanner yields names a regular file) *)

Definition slash : ascii := "/"%char.
Definition dot : ascii := "."%char.

(** The text after the last occurrence of [c], if [c] occurs. *)
Fixpoint after_last (c : ascii) (s : string) : option string :=
  match s with
  | "" => None
  | String a r =>
      match after_last c r with
      | Some t => Some t
      | None => if decide (a = c) then Some r else None
      end
  end.

(** The text before the last occurrence of [c], if [c] occurs. *)
Fixpoint before_last (c : ascii) (s : string) : option string :=
  match s with
  | "" => None
  | String a r =>
      match before_last c r with
      | Some t => Some (String a t)
      | None => if decide (a = c) then Some "" else None
      end
  end.

(** [path.basename(p)] *)
Definition basename (p : string) : string := default p (after_last slash p).

(** [path.extname(p)]: from the last dot of the last segment, unless that
    segment has no dot, starts with its only dot, or is [".."]. *)
Definition extname (p : string) : string :=
  let b := basename p in
  match before_last dot b, after_last dot b with
  | Some pre, Some post =>
      if decide (pre = "") then ""
      else if decide (b = "..") then ""
      else String dot post
  | _, _ => ""
  end.

(** [s] without the suffix [suffix], when it ends with it. *)
Fixpoint strip_suffix (suffix s : string) : option string :=
  if decide (s = suffix) then Some ""
  else match s with
       | "" => None
       | String a r => String a <$> strip_suffix suffix r
       end.

(** [path.basename(p, ext)]: a path that is the extension gives the empty
    string; otherwise the extension is dropped when it is not empty, the
    last segment ends with it and is more than it. *)
Definition basename_ext (p ext : string) : string :=
  let b := basename p in
  if decide (ext = "") then b
  else if decide (ext = p) then ""
  else match strip_suffix ext b with
       | Some "" | None => b
       | Some stem => stem
       end.

(** [path.basename(filePath, path.extname(filePath))] *)
Definition toolName (filePath : string) : string :=
  basename_ext filePath (extname filePath).

(** ** Tool definitions, the world outside the registry, the registry *)

Record ToolDefinition := {
  name : string;
  description : string;
  inputSchema : JsValue;
  execute : JsValue;
}.

Inductive LogLevel := INFO | WARN | ERROR | DEBUG.

(** One call of the [Logger]: level, message and the fields of its [meta]. *)
Record LogEntry := Log {
  level : LogLevel;
  msg : string;
  meta : list (string * string);
}.

(** What evaluating a file's current content gives: its exports, or the
    error raised at load time. *)
Inductive Evaluation :=
| Evaluates (exports : Exports)
| Raises (e : JsError).

(** Everything the registry reaches through its collaborators. *)
Record World := {
  (** the regular files under [targetFolder] that match the glob, by
      absolute path, in the order the scanner yields them *)
  disk : list (string * Evaluation);
  (** [Date.now()] *)
  now : Z;
  (** the runtime's module registry, keyed by import specifier: what
      evaluating the module gave, its exports or the value it threw *)
  registry : JsMap.t Evaluation;
  (** the [fs.watch] handles that are open, oldest first *)
  open_watchers : list nat;
  (** how many handles [fs.watch] has handed out *)
  watches : nat;
  (** how many times the scanner ran *)
  scans : nat;
  (** the specifiers given to [import()], oldest first *)
  imports : list string;
  (** what was logged, oldest first *)
  log : list LogEntry;
}.

(** The subscriber of [onChange]: it runs on the world and either returns
    or throws. *)
Definition Callback := World -> option JsError * World.

Record Config := {
  targetFolder : string;
  glob : string;
}.

(** The private fields of [Tools].  [globPattern] is the [Glob] built from
    [config.glob], as its [match]. *)
Record Tools := {
  config : Config;
  watcher : option nat;
  onChangeCallback : option Callback;
  globPattern : string -> bool;
  toolCache : JsMap.t ToolDefinition;
  toolPathMap : JsMap.t string;
  cacheValid : bool;
}.

(** [new Tools()] *)
Definition new_Tools (c : Config) (matches : string -> bool) : Tools :=
  {| config := c; watcher := None; onChangeCallback := None;
     globPattern := matches; toolCache := JsMap.empty;
     toolPathMap := JsMap.empty; cacheValid := false |}.

Record State := { tools : Tools; world : World }.

Definition with_watcher (h : option nat) (t : Tools) : Tools :=
  {| config := config t; watcher := h; onChangeCallback := onChangeCallback t;
     globPattern := globPattern t; toolCache := toolCache t;
     toolPathMap := toolPathMap t; cacheValid := cacheValid t |}.

Definition with_onChangeCallback (cb : option Callback) (t : Tools) : Tools :=
  {| config := config t; watcher := watcher t; onChangeCallback := cb;
     globPattern := globPattern t; toolCache := toolCache t;
     toolPathMap := toolPathMap t; cacheValid := cacheValid t |}.

Definition with_toolCache (c : JsMap.t ToolDefinition) (t : Tools) : Tools :=
  {| config := config t; watcher := watcher t; onChangeCallback := onChangeCallback t;
     globPattern := globPattern t; toolCache := c;
     toolPathMap := toolPathMap t; cacheValid := cacheValid t |}.

Definition with_toolPathMap (pm : JsMap.t string) (t : Tools) : Tools :=
  {| config := config t; watcher := watcher t; onChangeCallback := onChangeCallback t;
     globPattern := globPattern t; toolCache := toolCache t;
     toolPathMap := pm; cacheValid := cacheValid t |}.

Definition with_cacheValid (b : bool) (t : Tools) : Tools :=
  {| config := config t; watcher := watcher t; onChangeCallback := onChangeCallback t;
     globPattern := globPattern t; toolCache := toolCache t;
     toolPathMap := toolPathMap t; cacheValid := b |}.

Definition with_disk (d : list (string * Evaluation)) (w : World) : World :=
  {| disk := d; now := now w; registry := registry w;
     open_watchers := open_watchers w; watches := watches w;
     scans := scans w; imports := imports w; log := log w |}.

Definition with_now (t : Z) (w : World) : World :=
  {| disk := disk w; now := t; registry := registry w;
     open_watchers := open_watchers w; watches := watches w;
     scans := scans w; imports := imports w; log := log w |}.

Definition with_registry (r : JsMap.t Evaluation) (w : World) : World :=
  {| disk := disk w; now := now w; registry := r;
     open_watchers := open_watchers w; watches := watches w;
     scans := scans w; imports := imports w; log := log w |}.

Definition with_watchers (hs : list nat) (n : nat) (w : World) : World :=
  {| disk := disk w; now := now w; registry := registry w;
     open_watchers := hs; watches := n;
     scans := scans w; imports := imports w; log := log w |}.

Definition with_scans (n : nat) (w : World) : World :=
  {| disk := disk w; now := now w; registry := registry w;
     open_watchers := open_watchers w; watches := watches w;
     scans := n; imports := imports w; log := log w |}.

Definition with_imports (l : list string) (w : World) : World :=
  {| disk := disk w; now := now w; registry := registry w;
     open_watchers := open_watchers w; watches := watches w;
     scans := scans w; imports := l; log := log w |}.

Definition with_log (l : list LogEntry) (w : World) : World :=
  {| disk := disk w; now := now w; registry := registry w;
     open_watchers := open_watchers w; watches := watches w;
     scans := scans w; imports := imports w; log := l |}.

(** ** The monad of a method body: state, and a thrown error *)

Inductive Result (A : Type) :=
| Ok (a : A)
| Throw (e : JsError).
Arguments Ok {A} a.
Arguments Throw {A} e.

Definition M (A : Type) : Type := State -> Result A * State.

#[global] Instance M_ret : MRet M := λ A a s, (Ok a, s).

#[global] Instance M_bind : MBind M := λ A B f m s,
  match m s with
  | (Ok a, s') => f a s'
  | (Throw e, s') => (Throw e, s')
  end.

#[global] Instance M_fmap : FMap M := λ A B f m s,
  match m s with
  | (Ok a, s') => (Ok (f a), s')
  | (Throw e, s') => (Throw e, s')
  end.

Definition throw {A} (e : JsError) : M A := λ s, (Throw e, s).

(** [m.catch(handler)], [try { m } catch (err) { handler }] *)
Definition catch {A} (m : M A) (handler : JsError -> M A) : M A := λ s,
  match m s with
  | (Ok a, s') => (Ok a, s')
  | (Throw e, s') => handler e s'
  end.

Definition get_tools : M Tools := λ s, (Ok (tools s), s).
Definition get_world : M World := λ s, (Ok (world s), s).

Definition modify_tools (f : Tools -> Tools) : M unit := λ s,
  (Ok (), {| tools := f (tools s); world := world s |}).

Definition modify_world (f : World -> World) : M unit := λ s,
  (Ok (), {| tools := tools s; world := f (world s) |}).

(** [this.logger.<level>(msg, meta)] *)
Definition logger (lvl : LogLevel) (text : string) (fields : list (string * string))
  : M unit :=
  modify_world (λ w, with_log (log w ++ [Log lvl text fields]) w).

(** [(err as Error).message]: the cast is erased, and the read throws
    when [err] is [null] or [undefined]. *)
Definition read_message (err : JsError) : M string :=
  if unreadable err then throw (not_an_object err) else mret (message err).

(** ** The collaborators: scanner, module loader, watcher source *)

(** [this.globPattern.scan(...)] starts: the scanner is invoked. *)
Definition scan_begin : M unit :=
  modify_world (λ w, with_scans (S (scans w)) w).

(** The scan settles with the matching paths that are on disk then. *)
Definition scan_settle : M (list string) :=
  w ← get_world; mret (disk w).*1.

(** [resolveToolFiles()] *)
Definition resolveToolFiles : M (list string) :=
  scan_begin;; scan_settle.

(** The template [`${filePath}?t=${Date.now()}`] *)
Definition specifier (filePath : string) (t : Z) : string :=
  filePath +:+ "?t=" +:+ pretty t.

(** The text before the first occurrence of [c], if [c] occurs. *)
Fixpoint before_first (c : ascii) (s : string) : option string :=
  match s with
  | "" => None
  | String a r => if decide (a = c) then Some "" else String a <$> before_first c r
  end.

(** The path a specifier names: the text before its query, which begins
    at the first question mark. *)
Definition specifier_path (spec : string) : string :=
  default spec (before_first "?"%char spec).

Definition quote : string := String "034"%char "".

(** The error of the runtime for a module whose file cannot be read. *)
Definition enoent (filePath : string) : JsError :=
  Error ("ENOENT reading " +:+ quote +:+ filePath +:+ quote).

Fixpoint assoc {V} (k : string) (l : list (string * V)) : option V :=
  match l with
  | [] => None
  | (k', v) :: l' => if decide (k' = k) then Some v else assoc k l'
  end.

(** [import(spec)] is called: the request is issued. *)
Definition import_begin (spec : string) : M unit :=
  modify_world (λ w, with_imports (imports w ++ [spec]) w).

(** [import(spec)] settles.  A specifier the runtime has evaluated before
    settles as it did then, with the module instance or the thrown value
    of then; a new one evaluates the file as it is on disk now, and what
    that gave is kept under the specifier.  A file that cannot be read
    leaves no module. *)
Definition import_settle (spec : string) : M Exports :=
  w ← get_world;
  match JsMap.get spec (registry w) with
  | Some (Evaluates exports) => mret exports
  | Some (Raises e) => throw e
  | None =>
      match assoc (specifier_path spec) (disk w) with
      | Some (Evaluates exports) =>
          modify_world (with_registry (JsMap.set spec (Evaluates exports) (registry w)));;
          mret exports
      | Some (Raises e) =>
          modify_world (with_registry (JsMap.set spec (Raises e) (registry w)));;
          throw e
      | None => throw (enoent (specifier_path spec))
      end
  end.

(** [fs.watch(targetFolder, { recursive: true }, listener)]: a new handle,
    open from now on. *)
Definition fs_watch : M nat :=
  w ← get_world;
  modify_world (with_watchers (open_watchers w ++ [watches w]) (S (watches w)));;
  mret (watches w).

(** [handle.close()] *)
Definition fs_close (h : nat) : M unit :=
  modify_world (λ w,
    with_watchers (filter (λ h', h' ≠ h) (open_watchers w)) (watches w) w).

(** ** The unit loader *)

Definition newline : string := String "010"%char "".

Definition note : string :=
  "Note: This tool is dynamically loaded. Changes to this file will immediately affect this tool's behavior. You can read and modify this file to change the tool.".

(** [[...].join("\n")] *)
Fixpoint join (sep : string) (parts : list string) : string :=
  match parts with
  | [] => ""
  | [p] => p
  | p :: rest => p +:+ sep +:+ join sep rest
  end.

Definition buildDescription (desc filePath : string) : string :=
  join newline [desc; ""; "---"; "Source: " +:+ filePath; note].

(** The text of a value that passed [typeof v === "string"]. *)
Definition string_of (v : JsValue) : string :=
  match v with
  | JsString s => s
  | _ => ""
  end.

(** [dynamicImport(filePath)], up to the call of [import()].  The
    [try]/[catch] around [return import(...)] only sees a synchronous throw,
    and [import()] reports every failure through its promise: the handler
    never runs, and the rejection goes to the caller as it is. *)
Definition dynamicImport_begin (filePath : string) : M string :=
  w ← get_world;
  let spec := specifier filePath (now w) in
  import_begin spec;; mret spec.

Definition dynamicImport (filePath : string) : M Exports :=
  spec ← dynamicImport_begin filePath; import_settle spec.

(** [loadToolFromFile(filePath)] after [await this.dynamicImport(filePath)] *)
Definition loadToolFromFile_resume (filePath : string) (exports : Exports)
  : M ToolDefinition :=
  let name := toolName filePath in
  let desc := export exports "description" in
  let schema := export exports "inputSchema" in
  let dflt := export exports "default" in
  if falsy desc || negb (bool_decide (typeof desc = "string")) then
    throw (Error ("Tool file " +:+ filePath +:+ " must export a 'description' string"))
  else if falsy schema || negb (bool_decide (typeof schema = "object")) then
    throw (Error ("Tool file " +:+ filePath +:+ " must export an 'inputSchema' object"))
  else if falsy dflt || negb (bool_decide (typeof dflt = "function")) then
    throw (Error ("Tool file " +:+ filePath
                  +:+ " must have a default export function (execute)"))
  else
    (* Cache the path mapping *)
    modify_tools (λ t, with_toolPathMap (JsMap.set name filePath (toolPathMap t)) t);;
    mret {| name := name;
            description := buildDescription (string_of desc) filePath;
            inputSchema := schema;
            execute := dflt |}.

Definition loadToolFromFile (filePath : string) : M ToolDefinition :=
  exports ← dynamicImport filePath; loadToolFromFile_resume filePath exports.

(** ** The registry *)

(** The handler of [loadTools]: [.catch((err) => this.logger.error(...))].
    Its argument reads [(err as Error).message] before the logger is
    called: for a rejection with [null] or [undefined] the handler throws
    and the promise rejects; otherwise the promise holds [undefined]. *)
Definition report_failure (filePath : string) (err : JsError)
  : M (option ToolDefinition) :=
  text ← read_message err;
  logger ERROR "Failed to load tool from file"
    [("file", filePath); ("err", text)];;
  mret None.

(** One element of [toolPromises], from the moment its import settles. *)
Definition toolPromise_settle (filePath spec : string) : M (option ToolDefinition) :=
  catch (Some <$> (exports ← import_settle spec;
                   loadToolFromFile_resume filePath exports))
        (report_failure filePath).

(** A promise run until it settles: what it holds, fulfilled or
    rejected. *)
Definition attempt {A} (m : M A) : M (Result A) := λ s,
  match m s with
  | (r, s') => (Ok r, s')
  end.

(** [Promise.all] of promises that settled in this order: their values,
    or the first rejection. *)
Fixpoint Promise_all {A} (settled : list (Result A)) : Result (list A) :=
  match settled with
  | [] => Ok []
  | Ok a :: rest =>
      match Promise_all rest with
      | Ok values => Ok (a :: values)
      | Throw e => Throw e
      end
  | Throw e :: _ => Throw e
  end.

(** [await p] for a promise that has settled. *)
Definition await {A} (p : Result A) : M A := λ s, (p, s).

(** [this.cacheValid && this.toolCache.size > 0] *)
Definition cache_hit (t : Tools) : bool :=
  cacheValid t && bool_decide (0 < JsMap.size (toolCache t)).

(** [loadTools()] up to its first [await]: the cached values, or a scan is
    under way. *)
Definition loadTools_enter : M (option (list ToolDefinition)) :=
  t ← get_tools;
  (* Return cached tools if cache is valid *)
  if cache_hit t then
    logger DEBUG "Returning cached tools"
      [("count", pretty (JsMap.size (toolCache t)))];;
    mret (Some (JsMap.values (toolCache t)))
  else
    scan_begin;; mret None.

(** From the scan's result to [await Promise.all(toolPromises)]: the caches
    are cleared and every import is issued, in the order of [files]. *)
Definition loadTools_scanned (files : list string) : M (list (string * string)) :=
  logger DEBUG "Resolved tool files" [("count", pretty (length files))];;
  (* Clear caches *)
  modify_tools (with_toolCache JsMap.empty);;
  modify_tools (with_toolPathMap JsMap.empty);;
  (* Load all tools in parallel *)
  mapM (λ filePath, spec ← dynamicImport_begin filePath; mret (filePath, spec)) files.

(** [for (const tool of tools) this.toolCache.set(tool.name, tool)] *)
Definition cache_all (found : list ToolDefinition) (c : JsMap.t ToolDefinition)
  : JsMap.t ToolDefinition :=
  foldl (λ c tool, JsMap.set (name tool) tool c) c found.

(** From the result of [Promise.all] to the end. *)
Definition loadTools_finish (results : list (option ToolDefinition))
  : M (list ToolDefinition) :=
  let found := omap id results in
  (* Cache the results *)
  modify_tools (λ t, with_toolCache (cache_all found (toolCache t)) t);;
  modify_tools (with_cacheValid true);;
  mret found.

(** [loadTools()], nothing interleaved: the imports settle in the order of
    [files], every one of them, and [Promise.all] gives their values or
    the first rejection, with which the call rejects. *)
Definition loadTools : M (list ToolDefinition) :=
  cached ← loadTools_enter;
  match cached with
  | Some found => mret found
  | None =>
      files ← scan_settle;
      pending ← loadTools_scanned files;
      settled ← mapM (λ '(filePath, spec), attempt (toolPromise_settle filePath spec))
                     pending;
      results ← await (Promise_all settled);
      loadTools_finish results
  end.

(** [if (!filePath)]: [undefined] and the empty string are both falsy. *)
Definition truthy_path (p : option string) : option string :=
  p ≫= λ filePath, if decide (filePath = "") then None else Some filePath.

(** [this.cacheValid && this.toolCache.has(name)], and then
    [this.toolCache.get(name)!]: the entry, when the flag is set and the
    cache has one. *)
Definition cached (name : string) (t : Tools) : option ToolDefinition :=
  if cacheValid t && JsMap.has name (toolCache t)
  then JsMap.get name (toolCache t) else None.

(** [loadTool(name)] *)
Definition loadTool (name : string) : M ToolDefinition :=
  t ← get_tools;
  (* Check cache first *)
  match cached name t with
  | Some tool =>
      logger DEBUG "Returning cached tool" [("name", name)];;
      mret tool
  | None =>
      (* If not cached, look up the file path *)
      filePath ←
        match truthy_path (JsMap.get name (toolPathMap t)) with
        | Some filePath => mret filePath
        | None =>
            (* Need to scan files to find the tool *)
            files ← resolveToolFiles;
            match truthy_path
                    (find (λ f, bool_decide (toolName f = name)) files) with
            | None => throw (Error ("Tool not found: " +:+ name))
            | Some filePath =>
                (* Cache the path mapping *)
                modify_tools (λ t,
                  with_toolPathMap (JsMap.set name filePath (toolPathMap t)) t);;
                mret filePath
            end
        end;
      tool ← loadToolFromFile filePath;
      modify_tools (λ t, with_toolCache (JsMap.set name tool (toolCache t)) t);;
      mret tool
  end.

(** [onChange(callback)] *)
Definition onChange (callback : Callback) : M unit :=
  modify_tools (with_onChangeCallback (Some callback)).

(** [this.onChangeCallback()] *)
Definition call (callback : Callback) : M unit := λ s,
  match callback (world s) with
  | (None, w) => (Ok (), {| tools := tools s; world := w |})
  | (Some e, w) => (Throw e, {| tools := tools s; world := w |})
  end.

(** [onFileChange(event, filename)] *)
Definition onFileChange (event filename : string) : M unit :=
  t ← get_tools;
  (* Check if the changed file matches our glob pattern *)
  if negb (globPattern t filename) then mret ()
  else
    logger INFO "File changed" [("event", event); ("filename", filename)];;
    (* Invalidate cache when files change *)
    modify_tools (with_cacheValid false);;
    match onChangeCallback t with
    | Some callback => call callback
    | None => mret ()
    end.

(** The listener given to [fs.watch]: [filename] may be [null]. *)
Definition watch_listener (event : string) (filename : option string) : M unit :=
  match filename with
  | Some f => if decide (f = "") then mret () else onFileChange event f
  | None => mret ()
  end.

(** [startWatching()].  The error handler it attaches only logs. *)
Definition startWatching : M unit :=
  t ← get_tools;
  logger INFO "Watching for changes" [("targetFolder", targetFolder (config t))];;
  h ← fs_watch;
  modify_tools (with_watcher (Some h)).

(** [stopWatching()] *)
Definition stopWatching : M unit :=
  t ← get_tools;
  match watcher t with
  | Some h =>
      fs_close h;;
      modify_tools (with_watcher None);;
      logger INFO "Stopped watching for changes" []
  | None => mret ()
  end.

(** Every handle of [handles] runs its listener, oldest first.  Each
    handle is an emitter of its own: an error its listener lets through
    reaches the runtime, and the listeners of the other handles run all
    the same.  The errors that reached the runtime, in order. *)
Fixpoint run_listeners (handles : list nat) (listener : M unit) (s : State)
  : list JsError * State :=
  match handles with
  | [] => ([], s)
  | _ :: rest =>
      match listener s with
      | (Ok _, s') => run_listeners rest listener s'
      | (Throw e, s') =>
          match run_listeners rest listener s' with
          | (errors, s'') => (e :: errors, s'')
          end
      end
  end.

(** The change source reports [(event, filename)]: every open handle runs
    its listener.  The delivery gives the first error that reached the
    runtime, if there is one. *)
Definition deliver (event : string) (filename : option string) : M unit := λ s,
  match run_listeners (open_watchers (world s)) (watch_listener event filename) s with
  | ([], s') => (Ok (), s')
  | (e :: _, s') => (Throw e, s')
  end.

(** [ms] milliseconds go by. *)
Definition advance (ms : Z) (s : State) : State :=
  {| tools := tools s; world := with_now (now (world s) + ms) (world s) |}.

(** ** The always-rescan variant of the class: no cache, no path index *)

Module AlwaysRescan.

Definition loadToolFromFile_resume (filePath : string) (exports : Exports)
  : M ToolDefinition :=
  let name := toolName filePath in
  let desc := export exports "description" in
  let schema := export exports "inputSchema" in
  let dflt := export exports "default" in
  if falsy desc || negb (bool_decide (typeof desc = "string")) then
    throw (Error ("Tool file " +:+ filePath +:+ " must export a 'description' string"))
  else if falsy schema || negb (bool_decide (typeof schema = "object")) then
    throw (Error ("Tool file " +:+ filePath +:+ " must export an 'inputSchema' object"))
  else if falsy dflt || negb (bool_decide (typeof dflt = "function")) then
    throw (Error ("Tool file " +:+ filePath
                  +:+ " must have a default export function (execute)"))
  else
    mret {| name := name;
            description := buildDescription (string_of desc) filePath;
            inputSchema := schema;
            execute := dflt |}.

Definition loadToolFromFile (filePath : string) : M ToolDefinition :=
  exports ← dynamicImport filePath; loadToolFromFile_resume filePath exports.

(** The report of [loadTools] for a file that does not load. *)
Definition failure_entry (filePath : string) (e : JsError) : LogEntry :=
  Log ERROR "Failed to load tool" [("file", filePath); ("err", message_or_reason e)].

(** One promise of [Promise.allSettled]: it holds the outcome, whichever. *)
Definition settle (filePath spec : string) : M (Result ToolDefinition) := λ s,
  match (exports ← import_settle spec; loadToolFromFile_resume filePath exports) s with
  | (r, s') => (Ok r, s')
  end.

(** [results.forEach((result, index) => ...)]: a fulfilled result is pushed,
    a rejected one is logged with [files[index]].  The logger gets
    [result.reason?.message || result.reason]. *)
Fixpoint collect (files : list string) (results : list (Result ToolDefinition))
  : M (list ToolDefinition) :=
  match files, results with
  | filePath :: files', Ok tool :: results' =>
      found ← collect files' results'; mret (tool :: found)
  | filePath :: files', Throw reason :: results' =>
      logger ERROR "Failed to load tool"
        [("file", filePath); ("err", message_or_reason reason)];;
      collect files' results'
  | _, _ => mret []
  end.

Definition loadTools : M (list ToolDefinition) :=
  files ← resolveToolFiles;
  logger DEBUG "Resolved tool files" [("count", pretty (length files))];;
  (* Load all tools in parallel *)
  pending ← mapM (λ filePath, spec ← dynamicImport_begin filePath;
                              mret (filePath, spec)) files;
  results ← mapM (λ '(filePath, spec), settle filePath spec) pending;
  collect files results.

End AlwaysRescan.

(** ** [loadTools()] cut at its [await]s

    One call of [loadTools()] can be in flight.  Between two of its
    continuations the runtime may run anything else that is ready: here,
    the delivery of a filesystem event, after the disk changed. *)

Module Interleaving.

(** One element of [toolPromises]: [None] while its import is pending, then
    what the promise settled with. *)
Record Slot := {
  slot_file : string;
  slot_spec : string;
  slot_result : option (Result (option ToolDefinition));
}.

(** Where the call stands: at [await this.resolveToolFiles()], at
    [await Promise.all(toolPromises)], returned, or rejected with the
    first rejection of a promise, while the other promises still settle. *)
Inductive Task :=
| AwaitScan
| AwaitImports (slots : list Slot)
| Returned (found : list ToolDefinition)
| Rejected (e : JsError) (slots : list Slot).

Record System := {
  state : State;
  task : option Task;
  (** errors that reached the runtime from a watcher listener *)
  uncaught : list JsError;
}.

(** What the runtime may run next: a caller's [loadTools()] up to its first
    [await] (when no call is in flight); the continuation after the scan;
    the continuation of the [i]-th load after its import; the listeners of
    the watchers, after the disk changed to [disk']; or nothing, while time
    goes by. *)
Inductive Action :=
| CallLoadTools
| ScanSettles
| ImportSettles (i : nat)
| FileEvent (disk' : list (string * Evaluation)) (event : string)
            (filename : option string)
| Advance (ms : Z).

Definition pending_slot (p : string * string) : Slot :=
  {| slot_file := p.1; slot_spec := p.2; slot_result := None |}.

Definition settle_slot (slot : Slot) (r : Result (option ToolDefinition)) : Slot :=
  {| slot_file := slot_file slot; slot_spec := slot_spec slot; slot_result := Some r |}.

Definition settled (slots : list Slot)
  : option (list (Result (option ToolDefinition))) :=
  mapM slot_result slots.

(** A call is in flight until it returned or rejected and every promise
    it made has settled. *)
Definition in_flight (t : option Task) : bool :=
  match t with
  | Some AwaitScan | Some (AwaitImports _) => true
  | Some (Rejected _ slots) => negb (bool_decide (is_Some (settled slots)))
  | _ => false
  end.

(** After a continuation ran: when every promise is settled, [Promise.all]
    is, and [loadTools()] runs to its end. *)
Definition join_imports (slots : list Slot) (s : State) : option (State * Task) :=
  match settled slots with
  | Some results =>
      match (values ← await (Promise_all results); loadTools_finish values) s with
      | (Ok found, s') => Some (s', Returned found)
      | (Throw e, s') => Some (s', Rejected e slots)
      end
  | None => Some (s, AwaitImports slots)
  end.

Definition step (a : Action) (sys : System) : option System :=
  match a with
  | CallLoadTools =>
      if in_flight (task sys) then None
      else match loadTools_enter (state sys) with
           | (Ok (Some found), s') =>
               Some {| state := s'; task := Some (Returned found);
                       uncaught := uncaught sys |}
           | (Ok None, s') =>
               Some {| state := s'; task := Some AwaitScan;
                       uncaught := uncaught sys |}
           | (Throw _, _) => None
           end
  | ScanSettles =>
      match task sys with
      | Some AwaitScan =>
          match (files ← scan_settle; loadTools_scanned files) (state sys) with
          | (Ok pending, s') =>
              '(s'', t) ← join_imports (pending_slot <$> pending) s';
              Some {| state := s''; task := Some t; uncaught := uncaught sys |}
          | (Throw _, _) => None
          end
      | _ => None
      end
  | ImportSettles i =>
      match task sys with
      | Some (AwaitImports slots) =>
          slot ← slots !! i;
          match slot_result slot with
          | Some _ => None
          | None =>
              match toolPromise_settle (slot_file slot) (slot_spec slot) (state sys) with
              | (Ok r, s') =>
                  '(s'', t) ← join_imports (<[i := settle_slot slot (Ok r)]> slots) s';
                  Some {| state := s''; task := Some t; uncaught := uncaught sys |}
              | (Throw e, s') =>
                  (* [Promise.all] rejects with the first rejection *)
                  Some {| state := s';
                          task := Some (Rejected e (<[i := settle_slot slot (Throw e)]> slots));
                          uncaught := uncaught sys |}
              end
          end
      | Some (Rejected e slots) =>
          slot ← slots !! i;
          match slot_result slot with
          | Some _ => None
          | None =>
              match toolPromise_settle (slot_file slot) (slot_spec slot) (state sys) with
              | (r, s') =>
                  Some {| state := s';
                          task := Some (Rejected e (<[i := settle_slot slot r]> slots));
                          uncaught := uncaught sys |}
              end
          end
      | _ => None
      end
  | FileEvent disk' event filename =>
      let s := {| tools := tools (state sys);
                  world := with_disk disk' (world (state sys)) |} in
      match run_listeners (open_watchers (world s)) (watch_listener event filename) s with
      | (errors, s') =>
          Some {| state := s'; task := task sys; uncaught := uncaught sys ++ errors |}
      end
  | Advance ms =>
      Some {| state := advance ms (state sys);
              task := task sys; uncaught := uncaught sys |}
  end.

Fixpoint exec (schedule : list Action) (sys : System) : option System :=
  match schedule with
  | [] => Some sys
  | a :: rest => sys' ← step a sys; exec rest sys'
  end.

Definition boot (s : State) : System :=
  {| state := s; task := None; uncaught := [] |}.

(** One call with nothing interleaved: the [n] imports settle in order. *)
Definition in_order (n : nat) : list Action :=
  CallLoadTools :: ScanSettles :: (ImportSettles <$> seq 0 n).

End Interleaving.

(** ** What the operations compute, said without the monad *)

(** The object [loadToolFromFile] builds from a path and a module. *)
Definition tool_of (filePath : string) (exports : Exports) : ToolDefinition :=
  {| name := toolName filePath;
     description := buildDescription (string_of (export exports "description")) filePath;
     inputSchema := export exports "inputSchema";
     execute := export exports "default" |}.

(** The three checks of [loadToolFromFile] and their errors. *)
Definition validate (filePath : string) (exports : Exports) : Result ToolDefinition :=
  let desc := export exports "description" in
  let schema := export exports "inputSchema" in
  let dflt := export exports "default" in
  if falsy desc || negb (bool_decide (typeof desc = "string")) then
    Throw (Error ("Tool file " +:+ filePath +:+ " must export a 'description' string"))
  else if falsy schema || negb (bool_decide (typeof schema = "object")) then
    Throw (Error ("Tool file " +:+ filePath +:+ " must export an 'inputSchema' object"))
  else if falsy dflt || negb (bool_decide (typeof dflt = "function")) then
    Throw (Error ("Tool file " +:+ filePath
                  +:+ " must have a default export function (execute)"))
  else Ok (tool_of filePath exports).

(** The exports that pass the three checks: a string that is not empty, an
    object, a function. *)
Definition valid_exports (exports : Exports) : Prop :=
  (∃ d, export exports "description" = JsString d ∧ d ≠ "") ∧
  (∃ r, export exports "inputSchema" = JsObject r) ∧
  (∃ r, export exports "default" = JsFunction r).

(** What an evaluation settles an import with. *)
Definition settles_with (ev : Evaluation) : Result Exports :=
  match ev with
  | Evaluates exports => Ok exports
  | Raises e => Throw e
  end.

(** What [import(spec)] settles with in the world [w]. *)
Definition evaluate (w : World) (spec : string) : Result Exports :=
  match JsMap.get spec (registry w) with
  | Some ev => settles_with ev
  | None =>
      match assoc (specifier_path spec) (disk w) with
      | Some ev => settles_with ev
      | None => Throw (enoent (specifier_path spec))
      end
  end.

(** The world once [import(spec)] settled: what evaluating the file gave
    is in the registry. *)
Definition remember (spec : string) (w : World) : World :=
  match JsMap.get spec (registry w), assoc (specifier_path spec) (disk w) with
  | None, Some ev => with_registry (JsMap.set spec ev (registry w)) w
  | _, _ => w
  end.

(** What loading [filePath] under [spec] gives in the world [w]. *)
Definition outcome_of (w : World) (filePath spec : string) : Result ToolDefinition :=
  match evaluate w spec with
  | Ok exports => validate filePath exports
  | Throw e => Throw e
  end.

(** What loading [filePath] gives in the world [w]. *)
Definition load_outcome (w : World) (filePath : string) : Result ToolDefinition :=
  outcome_of w filePath (specifier filePath (now w)).

(** The world once [filePath] was imported under the specifier of now. *)
Definition after_import (filePath : string) (w : World) : World :=
  remember (specifier filePath (now w))
           (with_imports (imports w ++ [specifier filePath (now w)]) w).

(** What the code rejects: a module that does not import, or exports that
    do not pass the three checks. *)
Definition rejects (imported : Result Exports) : Prop :=
  match imported with
  | Throw _ => True
  | Ok exports => ¬ valid_exports exports
  end.

(** The report of [loadTools] for a file that does not load. *)
Definition failure_entry (filePath : string) (e : JsError) : LogEntry :=
  Log ERROR "Failed to load tool from file" [("file", filePath); ("err", message e)].

(** The path index once [filePath] loaded. *)
Definition index_path (filePath : string) (t : Tools) : Tools :=
  with_toolPathMap (JsMap.set (toolName filePath) filePath (toolPathMap t)) t.

(** What the handler of [loadTools] logs for a failure: nothing when it
    throws itself. *)
Definition reported (filePath : string) (e : JsError) : option LogEntry :=
  if unreadable e then None else Some (failure_entry filePath e).

(** The state once one promise of [loadTools] settled. *)
Definition after_settle (s : State) (filePath spec : string) : State :=
  match outcome_of (world s) filePath spec with
  | Ok _ =>
      {| tools := index_path filePath (tools s);
         world := remember spec (world s) |}
  | Throw e =>
      {| tools := tools s;
         world := with_log (log (world s) ++ option_list (reported filePath e))
                           (remember spec (world s)) |}
  end.

(** What one promise of [loadTools] settles with, from the outcome of its
    load: the tool, [undefined] after a failure that was logged, or the
    error of the handler. *)
Definition promised (outcome : Result ToolDefinition) : Result (option ToolDefinition) :=
  match outcome with
  | Ok tool => Ok (Some tool)
  | Throw e => if unreadable e then Throw (not_an_object e) else Ok None
  end.

Definition fulfilled {A} (r : Result A) : option A :=
  match r with
  | Ok a => Some a
  | Throw _ => None
  end.

Definition rejected {A} (r : Result A) : option JsError :=
  match r with
  | Ok _ => None
  | Throw e => Some e
  end.

(** The state once every promise of [loadTools] settled, in order. *)
Definition settle_all (s : State) (pending : list (string * string)) : State :=
  foldl (λ s '(filePath, spec), after_settle s filePath spec) s pending.

(** The specifiers [loadTools] issues for [files] at time [t]. *)
Definition issue (t : Z) (files : list string) : list (string * string) :=
  (λ filePath, (filePath, specifier filePath t)) <$> files.

(** The state when [loadTools] has cleared its caches and issued its
    imports. *)
Definition after_scan (files : list string) (s : State) : State :=
  {| tools := with_toolPathMap JsMap.empty (with_toolCache JsMap.empty (tools s));
     world := with_imports (imports (world s) ++ (issue (now (world s)) files).*2)
                (with_log (log (world s)
                           ++ [Log DEBUG "Resolved tool files"
                                 [("count", pretty (length files))]])
                          (world s)) |}.

(** The tools that load from the files on disk, in scan order. *)
Definition found_on (w : World) : list ToolDefinition :=
  omap (λ filePath, fulfilled (load_outcome w filePath)) (disk w).*1.

(** Every failure of a load from the files on disk can be reported: none
    rejects with [null] or [undefined]. *)
Definition reportable (w : World) : Prop :=
  ∀ filePath e, filePath ∈ (disk w).*1 → load_outcome w filePath = Throw e →
                unreadable e = false.

Definition reportableb (w : World) : bool :=
  forallb (λ filePath, match load_outcome w filePath with
                       | Ok _ => true
                       | Throw e => negb (unreadable e)
                       end) (disk w).*1.

(** What [Promise.all] gives a scanning [loadTools()] in the world [w]. *)
Definition all_promised (w : World) : Result (list (option ToolDefinition)) :=
  Promise_all ((λ filePath, promised (load_outcome w filePath)) <$> (disk w).*1).

(** The state of a rescanning [loadTools()] when every promise has
    settled. *)
Definition all_settled (s : State) : State :=
  let files := (disk (world s)).*1 in
  let s1 := {| tools := tools s; world := with_scans (S (scans (world s))) (world s) |} in
  settle_all (after_scan files s1) (issue (now (world s)) files).

(** The state a rescanning [loadTools()] ends in when it returns. *)
Definition after_rescan (s : State) : State :=
  let files := (disk (world s)).*1 in
  let s1 := {| tools := tools s; world := with_scans (S (scans (world s))) (world s) |} in
  let s3 := settle_all (after_scan files s1) (issue (now (world s)) files) in
  {| tools := with_cacheValid true
                (with_toolCache (cache_all (found_on (world s)) (toolCache (tools s3)))
                                (tools s3));
     world := world s3 |}.

(** Two states that differ at most in the module registry, the log and
    the path index, with a registry that answers every import alike. *)
Definition same_outside (s s' : State) : Prop :=
  config (tools s') = config (tools s) ∧
  watcher (tools s') = watcher (tools s) ∧
  onChangeCallback (tools s') = onChangeCallback (tools s) ∧
  globPattern (tools s') = globPattern (tools s) ∧
  toolCache (tools s') = toolCache (tools s) ∧
  cacheValid (tools s') = cacheValid (tools s) ∧
  disk (world s') = disk (world s) ∧
  now (world s') = now (world s) ∧
  scans (world s') = scans (world s) ∧
  imports (world s') = imports (world s) ∧
  open_watchers (world s') = open_watchers (world s) ∧
  watches (world s') = watches (world s) ∧
  (∀ spec, evaluate (world s') spec = evaluate (world s) spec).

(** The file [loadTool(name)] goes to when the cache does not answer: the
    path index first, a scan otherwise. *)
Definition resolve (name : string) (s : State) : option string :=
  match truthy_path (JsMap.get name (toolPathMap (tools s))) with
  | Some filePath => Some filePath
  | None => truthy_path (find (λ f, bool_decide (toolName f = name)) (disk (world s)).*1)
  end.

(** [loadTool(name)] from the file it resolved to, in the state [s]. *)
Definition loadTool_from (name filePath : string) (s : State)
  : Result ToolDefinition * State :=
  match load_outcome (world s) filePath with
  | Ok tool =>
      (Ok tool,
       {| tools := with_toolCache
                     (JsMap.set name tool (toolCache (tools s)))
                     (index_path filePath (tools s));
          world := after_import filePath (world s) |})
  | Throw e => (Throw e, {| tools := tools s; world := after_import filePath (world s) |})
  end.

(** The state after [loadTool] was called for each of [names], whatever
    each call gave. *)
Definition loadTool_each (names : list string) (s : State) : State :=
  foldl (λ s n, (loadTool n s).2) s names.

(** Every cached tool stands under its own name. *)
Definition named (c : JsMap.t ToolDefinition) : Prop :=
  ∀ n tool, JsMap.get n c = Some tool → name tool = n.

(** Every path of the index stands under the name the path gives. *)
Definition indexed (pm : JsMap.t string) : Prop :=
  ∀ n p, JsMap.get n pm = Some p → p ≠ "" → toolName p = n.

(** The invariant of the registry's two maps. *)
Definition registry_ok (t : Tools) : Prop :=
  indexed (toolPathMap t) ∧ named (toolCache t).

(** The claim of the loader's contract, in its words: the load fails
    exactly when the module cannot be imported or executed, or
    [description] is missing or not a string, or [inputSchema] is missing
    or not an object-shaped value, or the default export is missing or not
    callable. *)
Definition contract_rejects (imported : Result Exports) : Prop :=
  match imported with
  | Throw _ => True
  | Ok exports =>
      typeof (export exports "description") ≠ "string" ∨
      (¬ ∃ r, export exports "inputSchema" = JsObject r) ∨
      typeof (export exports "default") ≠ "function"
  end.

(** ** The always-rescan variant: the single load and the change handler *)

Module AlwaysRescanTool.

(** [loadTool(name)]: a scan on every call. *)
Definition loadTool (name : string) : M ToolDefinition :=
  files ← resolveToolFiles;
  match truthy_path (find (λ f, bool_decide (toolName f = name)) files) with
  | None => throw (Error ("Tool not found: " +:+ name))
  | Some filePath => AlwaysRescan.loadToolFromFile filePath
  end.

(** [onFileChange(event, filename)]: the glob is built anew from
    [config.glob], so it matches as [globPattern] does; there is no flag
    to clear. *)
Definition onFileChange (event filename : string) : M unit :=
  t ← get_tools;
  if negb (globPattern t filename) then mret ()
  else
    logger INFO "File changed" [("event", event); ("filename", filename)];;
    match onChangeCallback t with
    | Some callback => call callback
    | None => mret ()
    end.

End AlwaysRescanTool.

(** ** Sessions: the public operations and the environment, in any order *)

(** Every handle that is open was handed out by [fs.watch]. *)
Definition handles_ok (w : World) : Prop :=
  ∀ h, h ∈ open_watchers w → (h < watches w)%nat.

(** Every specifier of the module registry was built by [specifier] at a
    time that is not in the future. *)
Definition stamped (w : World) : Prop :=
  ∀ spec, is_Some (JsMap.get spec (registry w)) →
          ∃ filePath t, spec = specifier filePath t ∧ (t ≤ now w)%Z.

(** The tools the files on disk give when each is evaluated as it is now. *)
Definition on_disk (w : World) : list ToolDefinition :=
  omap (λ '(filePath, ev),
          match ev with
          | Evaluates exports => fulfilled (validate filePath exports)
          | Raises _ => None
          end) (disk w).

(** One thing that happens to the registry: a call of a public method, or
    the environment moving (the disk changes and the watchers report it;
    time goes by). *)
Inductive Op :=
| OpLoadTools
| OpLoadTool (name : string)
| OpOnChange (callback : Callback)
| OpStartWatching
| OpStopWatching
| OpFileEvent (disk' : list (string * Evaluation)) (event : string)
              (filename : option string)
| OpTick (ms : N).

(** The state once the operation ran to its end, whatever it returned. *)
Definition run_op (op : Op) (s : State) : State :=
  match op with
  | OpLoadTools => (loadTools s).2
  | OpLoadTool name => (loadTool name s).2
  | OpOnChange callback => (onChange callback s).2
  | OpStartWatching => (startWatching s).2
  | OpStopWatching => (stopWatching s).2
  | OpFileEvent disk' event filename =>
      (deliver event filename
         {| tools := tools s; world := with_disk disk' (world s) |}).2
  | OpTick ms => advance (Z.of_N ms) s
  end.

Definition run_ops (ops : list Op) (s : State) : State :=
  foldl (λ s op, run_op op s) s ops.

(** A subscriber keeps to itself: it leaves the disk, the clock, the
    module registry and the watchers as they are. *)
Definition polite (callback : Callback) : Prop :=
  ∀ w, disk (callback w).2 = disk w ∧ now (callback w).2 = now w ∧
       registry (callback w).2 = registry w ∧
       open_watchers (callback w).2 = open_watchers w ∧
       watches (callback w).2 = watches w.

Definition polite_op (op : Op) : Prop :=
  match op with
  | OpOnChange callback => polite callback
  | _ => True
  end.

(** [c] does not occur in [s]. *)
Fixpoint lacks (c : ascii) (s : string) : Prop :=
  match s with
  | "" => True
  | String a r => a ≠ c ∧ lacks c r
  end.

(** ** A small installation, for running the definitions *)

Module Sample.

Definition hello_exports : Exports :=
  {[ "description" := JsString "Says hello";
     "inputSchema" := JsObject 1;
     "default" := JsFunction 2 ]}.

Definition hello_shouting : Exports :=
  {[ "description" := JsString "Says HELLO";
     "inputSchema" := JsObject 3;
     "default" := JsFunction 4 ]}.

Definition raw_exports : Exports :=
  {[ "description" := JsString "Returns raw content";
     "inputSchema" := JsObject 5;
     "default" := JsFunction 6 ]}.

(** no [description] *)
Definition broken_exports : Exports :=
  {[ "inputSchema" := JsObject 7; "default" := JsFunction 8 ]}.

(** an empty [description] *)
Definition blank_exports : Exports :=
  {[ "description" := JsString "";
     "inputSchema" := JsObject 9;
     "default" := JsFunction 10 ]}.

Definition cfg : Config := {| targetFolder := "/work/tools"; glob := "**/*.ts" |}.

(** [**/*.ts] on a relative path: it ends in [.ts]. *)
Definition ends_in_ts (filename : string) : bool :=
  bool_decide (is_Some (strip_suffix ".ts" filename)).

Definition world0 (d : list (string * Evaluation)) : World :=
  {| disk := d; now := 1700000000000; registry := JsMap.empty;
     open_watchers := []; watches := 0; scans := 0; imports := []; log := [] |}.

Definition state0 (d : list (string * Evaluation)) : State :=
  {| tools := new_Tools cfg ends_in_ts; world := world0 d |}.

Definition hello_ts : string := "/work/tools/hello.ts".
Definition raw_ts : string := "/work/tools/raw.ts".
Definition broken_ts : string := "/work/tools/broken.ts".
Definition blank_ts : string := "/work/tools/blank.ts".
Definition other_hello_ts : string := "/work/tools/extra/hello.ts".

(** [hello.ts], [broken.ts] and [raw.ts], nothing loaded yet. *)
Definition three_files : State :=
  state0 [(hello_ts, Evaluates hello_exports);
          (broken_ts, Evaluates broken_exports);
          (raw_ts, Evaluates raw_exports)].

(** Two files named [hello.ts], in two folders, and [raw.ts] between. *)
Definition two_hellos : State :=
  state0 [(hello_ts, Evaluates hello_exports);
          (raw_ts, Evaluates raw_exports);
          (other_hello_ts, Evaluates hello_shouting)].

(** The three files loaded, then [hello.ts] reported as changed. *)
Definition invalidated : State :=
  (onFileChange "change" "hello.ts" (loadTools three_files).2).2.

(** A subscriber that throws. *)
Definition failing_subscriber : Callback :=
  λ w, (Some (Error "sendToolListChanged failed"), w).

(** A subscriber that logs, as the server's does, and returns. *)
Definition logging_subscriber : Callback :=
  λ w, (None, with_log (log w ++ [Log INFO "Tools changed, notifying clients" []]) w).

(** The three files loaded and watched, with the subscriber that throws. *)
Definition watched_failing : State :=
  ((onChange failing_subscriber;; loadTools;; startWatching) three_files).2.

(** The three files loaded and watched, with the subscriber that logs. *)
Definition watched : State :=
  ((onChange logging_subscriber;; loadTools;; startWatching) three_files).2.

(** The same, with [startWatching()] called twice. *)
Definition watched_twice : State :=
  ((onChange logging_subscriber;; loadTools;; startWatching;; startWatching)
     three_files).2.

(** [hello.ts] once edited. *)
Definition edited : list (string * Evaluation) :=
  [(hello_ts, Evaluates hello_shouting);
   (broken_ts, Evaluates broken_exports);
   (raw_ts, Evaluates raw_exports)].

(** The entries of a log that report a changed file. *)
Definition changes (l : list LogEntry) : list LogEntry :=
  filter (λ entry, msg entry = "File changed") l.

(** [hello.ts] and [raw.ts], watched, nothing loaded yet. *)
Definition two_files : State :=
  ((onChange logging_subscriber;; startWatching)
     (state0 [(hello_ts, Evaluates hello_exports); (raw_ts, Evaluates raw_exports)])).2.

(** The two files once [hello.ts] is edited. *)
Definition two_files_edited : list (string * Evaluation) :=
  [(hello_ts, Evaluates hello_shouting); (raw_ts, Evaluates raw_exports)].

(** A [loadTools()] is called; the scan settles; the import of [hello.ts]
    settles; [hello.ts] is edited and the watcher delivers the event; the
    import of [raw.ts] settles, and the call returns.  A second goes by. *)
Definition race : list Interleaving.Action :=
  [Interleaving.CallLoadTools; Interleaving.Advance 2;
   Interleaving.ScanSettles; Interleaving.Advance 3;
   Interleaving.ImportSettles 0; Interleaving.Advance 1;
   Interleaving.FileEvent two_files_edited "change" (Some "hello.ts");
   Interleaving.Advance 4;
   Interleaving.ImportSettles 1; Interleaving.Advance 1000].

(** The same with the edit after the call returned. *)
Definition no_race : list Interleaving.Action :=
  [Interleaving.CallLoadTools; Interleaving.Advance 2;
   Interleaving.ScanSettles; Interleaving.Advance 3;
   Interleaving.ImportSettles 0; Interleaving.Advance 1;
   Interleaving.ImportSettles 1; Interleaving.Advance 4;
   Interleaving.FileEvent two_files_edited "change" (Some "hello.ts");
   Interleaving.Advance 1000].

(** What the two files give before the edit, and after. *)
Definition before_edit : list ToolDefinition :=
  [tool_of hello_ts hello_exports; tool_of raw_ts raw_exports].

Definition after_edit : list ToolDefinition :=
  [tool_of hello_ts hello_shouting; tool_of raw_ts raw_exports].

(** [hello.ts] alone, then edited with the clock where it was. *)
Definition hello_only : State := state0 [(hello_ts, Evaluates hello_exports)].

Definition hello_edited (s : State) : State :=
  {| tools := tools s;
     world := with_disk [(hello_ts, Evaluates hello_shouting)] (world s) |}.

(** [blank.ts] alone. *)
Definition blank_state : State := state0 [(blank_ts, Evaluates blank_exports)].

(** [broken.ts] alone. *)
Definition broken_state : State := state0 [(broken_ts, Evaluates broken_exports)].

Definition null_ts : string := "/work/tools/null.ts".

(** [hello.ts], a file whose top level runs [throw null], and [raw.ts]. *)
Definition throws_null : State :=
  state0 [(hello_ts, Evaluates hello_exports);
          (null_ts, Raises (Thrown JsNull));
          (raw_ts, Evaluates raw_exports)].

(** The same with a file whose top level throws an [Error]. *)
Definition throws_error : State :=
  state0 [(hello_ts, Evaluates hello_exports);
          (null_ts, Raises (Error "boom"));
          (raw_ts, Evaluates raw_exports)].

End Sample.

(** ** More installations, for running the further properties *)

Module Scenario.

(** The three files were loaded and [hello.ts] reported as changed; since
    then it was moved to the folder [extra], and five milliseconds went
    by. *)
Definition moved : State :=
  advance 5
    {| tools := tools Sample.invalidated;
       world := with_disk [(Sample.other_hello_ts, Evaluates Sample.hello_exports);
                           (Sample.broken_ts, Evaluates Sample.broken_exports);
                           (Sample.raw_ts, Evaluates Sample.raw_exports)]
                          (world Sample.invalidated) |}.

(** The three files were loaded and [hello.ts] reported as changed; since
    then it was edited, and five milliseconds went by. *)
Definition reloading : State :=
  advance 5
    {| tools := tools Sample.invalidated;
       world := with_disk Sample.edited (world Sample.invalidated) |}.

(** A folder where nothing loads. *)
Definition nothing_loads : State :=
  Sample.state0 [(Sample.broken_ts, Evaluates Sample.broken_exports);
                 (Sample.blank_ts, Evaluates Sample.blank_exports)].

End Scenario.

(** An event the listener of a watcher drops: no file name, an empty one,
    or one the glob does not match. *)
Definition ignored (t : Tools) (filename : option string) : bool :=
  match filename with
  | Some f => bool_decide (f = "") || negb (globPattern t f)
  | None => true
  end.

(** The subscriber the registry holds, if any, keeps to itself. *)
Definition subscriber_ok (t : Tools) : Prop :=
  match onChangeCallback t with
  | Some callback => polite callback
  | None => True
  end.

(** Two worlds with the same disk, clock, module registry and watchers. *)
Definition same_runtime (w w' : World) : Prop :=
  disk w' = disk w ∧ now w' = now w ∧ registry w' = registry w ∧
  open_watchers w' = open_watchers w ∧ watches w' = watches w.

(** What holds of every state a session reaches. *)
Definition session_ok (s : State) : Prop :=
  registry_ok (tools s) ∧ subscriber_ok (tools s) ∧
  handles_ok (world s) ∧ stamped (world s).

Module Session.

(** The server's life in small: subscribe, load, watch; [hello.ts] is
    edited and reported; five milliseconds later [hello] is called and the
    tools are listed; the watcher is stopped. *)
Definition ops : list Op :=
  [OpOnChange Sample.logging_subscriber; OpLoadTools; OpStartWatching;
   OpFileEvent Sample.edited "change" (Some "hello.ts"); OpTick 5;
   OpLoadTool "hello"; OpLoadTools; OpStopWatching].

End Session.

Module Reload.

(** The three files were loaded and [hello.ts] reported as changed; since
    then it was edited. *)
Definition edited_after_event : State :=
  {| tools := tools Sample.invalidated;
     world := with_disk Sample.edited (world Sample.invalidated) |}.

End Reload.

(** ** The logger's queue *)

(** [Logger.ts]: in file mode [log] hands the formatted line to
    [queueLog]; a timer of 100 ms runs [flushLogs], which writes the whole
    queue with one [fs.promises.appendFile] and falls back to the console
    when the write fails.  The runtime keeps the timeouts that are pending
    and the writes that are in flight. *)
Module Logger.

(** What the logger gives to the outside. *)
Inductive Output :=
| AppendFile (content : string)
| ConsoleError (args : list string).

Record t := {
  logQueue : list string;
  (** the handle of [setTimeout], or [null] *)
  flushTimer : option nat;
  isWriting : bool;
  (** the timeouts that are pending, each to run [flushLogs] *)
  timeouts : list nat;
  (** how many timeouts [setTimeout] has handed out *)
  handles : nat;
  (** the content of the [appendFile] calls that have not settled, oldest
      first *)
  inflight : list string;
  (** the writes that succeeded and the calls of [console.error], oldest
      first *)
  output : list Output;
}.

Definition new : t :=
  {| logQueue := []; flushTimer := None; isWriting := false;
     timeouts := []; handles := 0; inflight := []; output := [] |}.

Definition with_logQueue (q : list string) (l : t) : t :=
  {| logQueue := q; flushTimer := flushTimer l; isWriting := isWriting l;
     timeouts := timeouts l; handles := handles l; inflight := inflight l;
     output := output l |}.

Definition with_flushTimer (h : option nat) (l : t) : t :=
  {| logQueue := logQueue l; flushTimer := h; isWriting := isWriting l;
     timeouts := timeouts l; handles := handles l; inflight := inflight l;
     output := output l |}.

Definition with_isWriting (b : bool) (l : t) : t :=
  {| logQueue := logQueue l; flushTimer := flushTimer l; isWriting := b;
     timeouts := timeouts l; handles := handles l; inflight := inflight l;
     output := output l |}.

Definition with_timeouts (hs : list nat) (l : t) : t :=
  {| logQueue := logQueue l; flushTimer := flushTimer l; isWriting := isWriting l;
     timeouts := hs; handles := handles l; inflight := inflight l;
     output := output l |}.

Definition with_inflight (cs : list string) (l : t) : t :=
  {| logQueue := logQueue l; flushTimer := flushTimer l; isWriting := isWriting l;
     timeouts := timeouts l; handles := handles l; inflight := cs;
     output := output l |}.

Definition with_output (o : list Output) (l : t) : t :=
  {| logQueue := logQueue l; flushTimer := flushTimer l; isWriting := isWriting l;
     timeouts := timeouts l; handles := handles l; inflight := inflight l;
     output := o |}.

(** [this.flushTimer = setTimeout(() => this.flushLogs(), 100)] *)
Definition schedule (l : t) : t :=
  let h := handles l in
  with_flushTimer (Some h)
    {| logQueue := logQueue l; flushTimer := flushTimer l; isWriting := isWriting l;
       timeouts := timeouts l ++ [h]; handles := S h; inflight := inflight l;
       output := output l |}.

(** [clearTimeout(h)] *)
Definition clearTimeout (h : nat) (l : t) : t :=
  with_timeouts (filter (λ h', h' ≠ h) (timeouts l)) l.

(** [queueLog(message)] *)
Definition queueLog (message : string) (l : t) : t :=
  let l := with_logQueue (logQueue l ++ [message]) l in
  (* Schedule flush if not already scheduled *)
  match flushTimer l with
  | None => schedule l
  | Some _ => l
  end.

(** [flushLogs()], up to its [await]: the queue is taken whole and given
    to [appendFile] as one text. *)
Definition flushLogs (l : t) : t :=
  let l := with_flushTimer None l in
  if isWriting l || bool_decide (logQueue l = []) then l
  else
    let l := with_isWriting true l in
    let logsToWrite := logQueue l in
    let l := with_logQueue [] l in
    let content := join newline logsToWrite +:+ newline in
    with_inflight (inflight l ++ [content]) l.

(** [flushLogs()] from the point where the write of [content] settled:
    [failure] is the error of a write that failed. *)
Definition flushLogs_resume (failure : option string) (content : string) (l : t) : t :=
  let l := match failure with
           | None => with_output (output l ++ [AppendFile content]) l
           | Some err =>
               (* Fallback to console if file write fails *)
               with_output (output l ++ [ConsoleError ["Failed to write to log file:"; err];
                                         ConsoleError [content]]) l
           end in
  let l := with_isWriting false l in
  (* If more logs were queued while writing, schedule another flush *)
  if negb (bool_decide (logQueue l = [])) && negb (bool_decide (is_Some (flushTimer l)))
  then schedule l else l.

(** The variant with [MAX_QUEUE_SIZE]: a queue that has grown to the
    limit is flushed at once. *)
Definition MAX_QUEUE_SIZE : nat := 1000.

Definition queueLog_bounded (message : string) (l : t) : t :=
  let l := with_logQueue (logQueue l ++ [message]) l in
  (* If queue is getting too large, flush immediately *)
  if (MAX_QUEUE_SIZE <=? length (logQueue l))%nat then
    let l := match flushTimer l with
             | Some h => with_flushTimer None (clearTimeout h l)
             | None => l
             end in
    flushLogs l
  else
    match flushTimer l with
    | None => schedule l
    | Some _ => l
    end.

(** The synchronous variant: [fs.appendFileSync(logFile, formatted + "\n")]. *)
Definition log_sync (formatted : string) (l : t) : t :=
  with_output (output l ++ [AppendFile (formatted +:+ newline)]) l.

Inductive Variant := Timed | Bounded.

(** What happens to a logger: a line is queued, a pending timeout runs
    its callback, the oldest write in flight settles. *)
Inductive Event :=
| QueueLog (message : string)
| Timeout (h : nat)
| WriteSettles (failure : option string).

Definition step (v : Variant) (e : Event) (l : t) : option t :=
  match e with
  | QueueLog message =>
      Some (match v with
            | Timed => queueLog message l
            | Bounded => queueLog_bounded message l
            end)
  | Timeout h =>
      if bool_decide (h ∈ timeouts l) then Some (flushLogs (clearTimeout h l)) else None
  | WriteSettles failure =>
      match inflight l with
      | content :: rest => Some (flushLogs_resume failure content (with_inflight rest l))
      | [] => None
      end
  end.

Fixpoint run (v : Variant) (events : list Event) (l : t) : option t :=
  match events with
  | [] => Some l
  | e :: events' => step v e l ≫= run v events'
  end.

(** The lines that were queued, in order. *)
Definition queued (events : list Event) : list string :=
  omap (λ e, match e with QueueLog message => Some message | _ => None end) events.

(** The lines as a log file holds them: each followed by a newline. *)
Fixpoint text (lines : list string) : string :=
  match lines with
  | [] => ""
  | line :: lines' => line +:+ newline +:+ text lines'
  end.

Fixpoint concat (parts : list string) : string :=
  match parts with
  | [] => ""
  | p :: parts' => p +:+ concat parts'
  end.

(** The log text that went out, to the file or, as a fallback, to the
    console. *)
Definition written (o : list Output) : string :=
  concat (omap (λ out, match out with
                       | AppendFile content => Some content
                       | ConsoleError [content] => Some content
                       | ConsoleError _ => None
                       end) o).

(** The log text a logger holds or has given out: written, in flight,
    queued. *)
Definition taken (l : t) : string :=
  written (output l) +:+ concat (inflight l) +:+ text (logQueue l).

(** The synchronous variant on the lines [lines], one after the other. *)
Definition run_sync (lines : list string) (l : t) : t :=
  foldl (λ l formatted, log_sync formatted l) l lines.

(** One handle at most is pending, and it is the one the logger holds; one
    write at most is in flight, and the flag says so; a queue that is not
    empty has a flush coming. *)
Definition ok (l : t) : Prop :=
  timeouts l = match flushTimer l with Some h => [h] | None => [] end ∧
  length (inflight l) = (if isWriting l then 1 else 0)%nat ∧
  (logQueue l ≠ [] → is_Some (flushTimer l) ∨ isWriting l = true).

(** Nothing is pending. *)
Definition quiet (l : t) : Prop := timeouts l = [] ∧ inflight l = [].

(** The events that bring a logger to rest when no more lines come: the
    write in flight settles, the timeout runs, its write settles. *)
Definition drain (l : t) : list Event :=
  (if isWriting l then [WriteSettles None] else [])
  ++ match flushTimer l with
     | Some h => Timeout h :: (if bool_decide (logQueue l = []) then [] else [WriteSettles None])
     | None =>
         if isWriting l && negb (bool_decide (logQueue l = []))
         then [Timeout (handles l); WriteSettles None] else []
     end.

(** Two lines are queued and flushed; a third comes while the write is
    in flight and is flushed in turn, by a write that fails. *)
Definition sample : list Event :=
  [QueueLog "one"; QueueLog "two"; Timeout 0; QueueLog "three";
   WriteSettles None; Timeout 1; WriteSettles (Some "EACCES")].

Definition sample_end : t := default new (run Timed sample new).

(** The same, stopped while the first write is in flight. *)
Definition sample_busy : t := default new (run Timed (take 4 sample) new).

End Logger.

(** ** The configuration *)

(** [Config.ts]: the singleton that [parse(argv)] fills from the command
    line and the environment.  [parseInt], [path.resolve], [path.join] and
    the file system ([fs.existsSync], [fs.mkdirSync]) are taken as they
    come. *)
Module Configuration.

Inductive Mode := stdio | http.

(** [process.env], as far as [parse] reads it. *)
Record Env := {
  MCP_MODE : option string;
  MCP_GLOB : option string;
  LOG_FILE : option string;
}.

(** The private fields.  [argv[++i]] past the end of [argv] is
    [undefined]: [None] in [_targetFolder] and [_glob]. *)
Record t := {
  _mode : Mode;
  _targetFolder : option string;
  _glob : option string;
  _logFile : string;
  _port : JsValue;
}.

(** The fields of [new Config()]. *)
Definition new : t :=
  {| _mode := stdio; _targetFolder := Some ""; _glob := Some "**/*.ts";
     _logFile := ""; _port := JsNumber 3000 |}.

Definition with_mode (m : Mode) (c : t) : t :=
  {| _mode := m; _targetFolder := _targetFolder c; _glob := _glob c;
     _logFile := _logFile c; _port := _port c |}.

Definition with_targetFolder (f : option string) (c : t) : t :=
  {| _mode := _mode c; _targetFolder := f; _glob := _glob c;
     _logFile := _logFile c; _port := _port c |}.

Definition with_glob (g : option string) (c : t) : t :=
  {| _mode := _mode c; _targetFolder := _targetFolder c; _glob := g;
     _logFile := _logFile c; _port := _port c |}.

Definition with_logFile (f : string) (c : t) : t :=
  {| _mode := _mode c; _targetFolder := _targetFolder c; _glob := _glob c;
     _logFile := f; _port := _port c |}.

Definition with_port (p : JsValue) (c : t) : t :=
  {| _mode := _mode c; _targetFolder := _targetFolder c; _glob := _glob c;
     _logFile := _logFile c; _port := p |}.

(** A string that is neither [undefined] nor empty. *)
Definition truthy (s : option string) : bool :=
  match s with
  | Some s => negb (bool_decide (s = ""))
  | None => false
  end.

Definition missing_target : JsError :=
  Error "Missing required argument: --target <path>. Specify the folder containing tool files.".

Section parse.

Variable parseInt : option string → JsValue.
Variable resolve : string → string.
Variable join : string → string → string.

(** The file system: its states; [fs.existsSync(p)], which holds of
    whatever is at [p], a folder or a file; and
    [fs.mkdirSync(p, { recursive: true })], which makes the folder and its
    parents or throws. *)
Variable Fs : Type.
Variable existsSync : Fs → string → bool.
Variable mkdirSync : Fs → string → Result unit * Fs.

(** The loop over [argv]: a flag takes the next argument for its value,
    whatever it is, and the loop goes on after the value. *)
Fixpoint parse_args (argv : list string) (c : t) : t :=
  match argv with
  | [] => c
  | arg :: rest =>
      if decide (arg = "--target") then
        match rest with
        | [] => with_targetFolder None c
        | value :: rest' => parse_args rest' (with_targetFolder (Some value) c)
        end
      else if decide (arg = "--glob") then
        match rest with
        | [] => with_glob None c
        | value :: rest' => parse_args rest' (with_glob (Some value) c)
        end
      else if decide (arg = "--port") then
        match rest with
        | [] => with_port (parseInt None) c
        | value :: rest' => parse_args rest' (with_port (parseInt (Some value)) c)
        end
      else parse_args rest c
  end.

(** The environment's part: [MCP_MODE], [MCP_GLOB], [LOG_FILE]. *)
Definition env_fallbacks (env : Env) (c : t) : t :=
  let c := if decide (MCP_MODE env = Some "http") then with_mode http c
           else if decide (MCP_MODE env = Some "stdio") then with_mode stdio c
           else c in
  let c := if negb (truthy (_glob c)) || bool_decide (_glob c = Some "**/*.ts")
           then with_glob (Some (if truthy (MCP_GLOB env)
                                 then default "" (MCP_GLOB env) else "**/*.ts")) c
           else c in
  if truthy (LOG_FILE env) then with_logFile (default "" (LOG_FILE env)) c else c.

(** The end of [parse]: the default log file, relative to the target
    folder. *)
Definition default_logFile (target : string) (c : t) : t :=
  if bool_decide (_logFile c = "") then with_logFile (join target "debug.log") c else c.

(** [parse(argv)], with the file system before and after. *)
Definition parse (argv : list string) (env : Env) (c : t) (fs : Fs)
  : Result unit * t * Fs :=
  (* Parse CLI arguments *)
  let c := parse_args argv c in
  (* Env fallbacks (CLI takes priority) *)
  let c := env_fallbacks env c in
  if negb (truthy (_targetFolder c)) then (Throw missing_target, c, fs)
  else
    (* Resolve to absolute path *)
    let target := resolve (default "" (_targetFolder c)) in
    let c := with_targetFolder (Some target) c in
    (* Create target folder if it doesn't exist *)
    if existsSync fs target then (Ok (), default_logFile target c, fs)
    else
      match mkdirSync fs target with
      | (Ok _, fs') => (Ok (), default_logFile target c, fs')
      | (Throw e, fs') => (Throw e, c, fs')
      end.

End parse.

(** A file system for running [parse]: the folders that exist, where
    every folder can be made. *)
Definition folder_exists (folders : list string) (p : string) : bool :=
  bool_decide (p ∈ folders).

Definition make_folder (folders : list string) (p : string) : Result unit * list string :=
  (Ok (), folders ++ [p]).

(** A file system where no folder can be made. *)
Definition read_only (folders : list string) (p : string) : Result unit * list string :=
  (Throw (Error ("EACCES: permission denied, mkdir '" +:+ p +:+ "'")), folders).

(** [get logDest()] *)
Definition logDest (c : t) : string :=
  match _mode c with http => "stdout" | stdio => "file" end.

(** What [Tools] reads of it: [config.targetFolder] and [config.glob]. *)
Definition read (c : t) : Config :=
  {| targetFolder := default "" (_targetFolder c); glob := default "" (_glob c) |}.

Definition no_env : Env := {| MCP_MODE := None; MCP_GLOB := None; LOG_FILE := None |}.

End Configuration.

(** ** The server's handlers *)

(** [Server.ts]: the handlers of [tools/list] and [tools/call] over the
    registry.  What a tool's function does and returns, the JSON printers
    and the Zod conversion are taken as they come. *)
Module Server.

(** The values a tool returns and the handlers build. *)
#[warnings="-register-all"]
Inductive Json :=
| JUndefined
| JNull
| JBool (b : bool)
| JNumber (n : Z)
| JString (s : string)
| JArray (items : list Json)
| JObject (fields : list (string * Json)).

Record Runtime := {
  (** [tool.execute(args)]: the function of the tool file applied, with
      what it does to the world *)
  apply : JsValue → Json → World → Result Json * World;
  (** [JSON.stringify(v, null, 2)] *)
  JSON_stringify : Json → string;
  (** [safeJsonStringify(v, null, 2)] *)
  safeJsonStringify : Json → string;
  (** ["_zod" in schema] *)
  has_zod : JsValue → bool;
  (** [schema.toJSONSchema()] *)
  toJSONSchema : JsValue → Result Json;
}.

(** [typeof v] *)
Definition typeof_json (v : Json) : string :=
  match v with
  | JUndefined => "undefined"
  | JNull | JArray _ | JObject _ => "object"
  | JBool _ => "boolean"
  | JNumber _ => "number"
  | JString _ => "string"
  end.

(** [!!v] *)
Definition truthy (v : Json) : bool :=
  match v with
  | JUndefined | JNull => false
  | JBool b => b
  | JNumber n => negb (n =? 0)%Z
  | JString s => negb (bool_decide (s = ""))
  | JArray _ | JObject _ => true
  end.

(** [key in v], for a [v] that is an object *)
Definition has_key (key : string) (v : Json) : bool :=
  match v with
  | JObject fields => bool_decide (key ∈ fields.*1)
  | _ => false
  end.

(** [String(v)] *)
Fixpoint String_ (v : Json) : string :=
  match v with
  | JUndefined => "undefined"
  | JNull => "null"
  | JBool true => "true"
  | JBool false => "false"
  | JNumber n => pretty n
  | JString s => s
  | JArray items =>
      join "," (map (λ item, match item with
                             | JUndefined | JNull => ""
                             | _ => String_ item
                             end) items)
  | JObject _ => "[object Object]"
  end.

(** [{ type: "text", text }] *)
Definition text_item (text : string) : Json :=
  JObject [("type", JString "text"); ("text", JString text)].

Record CallToolResult := {
  content : list Json;
  structuredContent : option Json;
  isError : option bool;
}.

(** An entry of the [tools/list] answer. *)
Record Listed := {
  listed_name : string;
  listed_description : string;
  listed_inputSchema : Json;
}.

(** The answer of the [catch] of [handleCallTool], for the text it read
    from [err.message]. *)
Definition error_text (text : string) : CallToolResult :=
  {| content := [text_item ("Error: " +:+ text)];
     structuredContent := None;
     isError := Some true |}.


Definition invalid_schema : Json :=
  JObject [("type", JString "object"); ("properties", JObject []);
           ("description", JString "Invalid Zod schema: not a valid Zod schema object")].

Definition failed_schema : Json :=
  JObject [("type", JString "object"); ("properties", JObject []);
           ("description",
            JString "Failed to convert zod schema to JSON Schema, pls check your zod schema maybe it have some problems")].

Section handlers.

Variable rt : Runtime.

(** [formatContentItem(item)] *)
Definition formatContentItem (item : Json) : Json :=
  (* If it's already an MCP content item, return as-is *)
  if truthy item && bool_decide (typeof_json item = "object") && has_key "type" item
  then item
  else
    (* Otherwise, convert to text *)
    text_item
      (if bool_decide (typeof_json item = "string") then String_ item
       else match item with
            | JNull | JUndefined => String_ item
            | _ => if bool_decide (typeof_json item = "object")
                   then JSON_stringify rt item
                   else String_ item
            end).

(** [formatToolResult(raw)] *)
Definition formatToolResult (raw : Json) : CallToolResult :=
  match raw with
  | JArray items =>
      (* Handle arrays: each item becomes a content item *)
      {| content := formatContentItem <$> items;
         structuredContent := None; isError := None |}
  | _ =>
      if truthy raw && bool_decide (typeof_json raw = "object") then
        {| content := [text_item (safeJsonStringify rt raw)];
           structuredContent := Some raw; isError := None |}
      else
        {| content := [text_item (String_ raw)];
           structuredContent := None; isError := None |}
  end.

(** [await tool.execute(args || {})] *)
Definition execute_tool (tool : ToolDefinition) (args : option Json) : M Json := λ s,
  let args := match args with
              | Some a => if truthy a then a else JObject []
              | None => JObject []
              end in
  match apply rt (execute tool) args (world s) with
  | (r, w) => (r, {| tools := tools s; world := w |})
  end.

(** [handleCallTool(request)].  The [catch] gives [err] to the logger and
    then reads [(err as Error).message] for the text of its answer: when
    the loader or the tool threw [null] or [undefined] that read throws,
    and the handler rejects. *)
Definition handleCallTool (name : string) (args : option Json) : M CallToolResult :=
  logger INFO "Calling tool" [("name", name)];;
  catch (tool ← loadTool name;
         raw ← execute_tool tool args;
         logger DEBUG "Tool executed successfully"
           [("name", name); ("raw", safeJsonStringify rt raw)];;
         mret (formatToolResult raw))
        (λ err,
           logger ERROR "Tool execution failed"
             [("name", name); ("error", message_or_reason err)];;
           text ← read_message err;
           mret (error_text text)).

(** [safeZodToJson(schema)] *)
Definition safeZodToJson (schema : JsValue) : M Json :=
  (* Validate it's a proper Zod schema *)
  if falsy schema || negb (bool_decide (typeof schema = "object"))
     || negb (has_zod rt schema) then
    logger ERROR "Invalid Zod schema: missing _zod property"
      [("schemaType", typeof schema);
       ("hasZodProp", if negb (falsy schema) && has_zod rt schema then "true" else "false")];;
    mret invalid_schema
  else
    match toJSONSchema rt schema with
    | Ok json => mret json
    | Throw err =>
        (* the [catch]: [(err as Error).message] is read for the logger *)
        text ← read_message err;
        logger ERROR "Failed to convert Zod schema to JSON Schema"
          [("error", text)];;
        mret failed_schema
    end.

(** [handleListTools()] *)
Definition handleListTools : M (list Listed) :=
  logger DEBUG "Handling list_tools request" [];;
  toolDefs ← loadTools;
  listed ← mapM (λ tool,
                   schema ← safeZodToJson (inputSchema tool);
                   mret {| listed_name := name tool;
                           listed_description := description tool;
                           listed_inputSchema := schema |}) toolDefs;
  logger DEBUG "Returning tools" [("count", pretty (length listed))];;
  mret listed.

(** [handleListTools()] of the variant without [safeZodToJson]: the
    conversion is called on the schema as it is. *)
Definition handleListTools_unsafe : M (list Listed) :=
  logger DEBUG "Handling list_tools request" [];;
  toolDefs ← AlwaysRescan.loadTools;
  listed ← mapM (λ tool,
                   (* Convert Zod schema to JSON Schema for the MCP protocol *)
                   jsonSchema ← (λ s, (toJSONSchema rt (inputSchema tool), s));
                   logger DEBUG "Generated JSON schema for tool"
                     [("name", name tool); ("jsonSchema", safeJsonStringify rt jsonSchema)];;
                   mret {| listed_name := name tool;
                           listed_description := description tool;
                           listed_inputSchema := jsonSchema |}) toolDefs;
  logger DEBUG ("Returning " +:+ pretty (length listed) +:+ " tools") [];;
  mret listed.

End handlers.

(** A runtime for running the handlers: tools answer with their argument. *)
Definition echo : Runtime :=
  {| apply := λ _ args w, (Ok args, w);
     JSON_stringify := String_;
     safeJsonStringify := String_;
     has_zod := λ _, true;
     toJSONSchema := λ _, Ok (JObject [("type", JString "object")]) |}.

(** The same, with a conversion that throws on every schema. *)
Definition no_zod : Runtime :=
  {| apply := λ _ args w, (Ok args, w);
     JSON_stringify := String_;
     safeJsonStringify := String_;
     has_zod := λ _, true;
     toJSONSchema := λ _, Throw (Error "tool.inputSchema.toJSONSchema is not a function") |}.

End Server.

(** * Properties *)

(** ** Examples of the path functions *)

Example toolName_hello : toolName "/work/tools/hello.ts" = "hello".
Proof. reflexivity. Qed.

Example toolName_nested : toolName "/work/tools/sub.dir/a.b.ts" = "a.b".
Proof. reflexivity. Qed.

Example toolName_hidden : toolName "/work/tools/.env" = ".env".
Proof. reflexivity. Qed.

Example toolName_noext : toolName "/work/tools/Makefile" = "Makefile".
Proof. reflexivity. Qed.

Example extname_edge :
  extname "/a/.." = "" ∧ extname "/a/x." = "." ∧ extname "/a/..b" = ".b".
Proof. repeat split. Qed.

(** ** The map *)

Section JsMapFacts.
Context {V : Type}.
Implicit Types (m : JsMap.t V) (k : string) (v : V).

Lemma get_set_eq k v m : JsMap.get k (JsMap.set k v m) = Some v.
Proof.
  induction m as [|[k' v'] m IH]; simpl.
  - by rewrite decide_True.
  - destruct (decide (k' = k)) as [->|Hne]; simpl.
    + by rewrite decide_True.
    + by rewrite decide_False.
Qed.

Lemma get_set_ne k k' v m : k ≠ k' → JsMap.get k' (JsMap.set k v m) = JsMap.get k' m.
Proof.
  intros Hne. induction m as [|[k0 v0] m IH]; simpl.
  - by rewrite decide_False.
  - destruct (decide (k0 = k)) as [->|Hk0]; simpl.
    + by rewrite !decide_False.
    + destruct (decide (k0 = k')); [done | apply IH].
Qed.

Lemma get_set k k' v m :
  JsMap.get k' (JsMap.set k v m) = if decide (k = k') then Some v else JsMap.get k' m.
Proof.
  destruct (decide (k = k')) as [->|?]; [apply get_set_eq | by apply get_set_ne].
Qed.



Lemma size_set k v m :
  JsMap.size (JsMap.set k v m)
  = if JsMap.get k m is Some _ then JsMap.size m else S (JsMap.size m).
Proof.
  unfold JsMap.size. induction m as [|[k' v'] m IH]; simpl; [done|].
  destruct (decide (k' = k)); simpl; [done|].
  rewrite IH. by destruct (JsMap.get k m).
Qed.


Lemma has_true k m : JsMap.has k m = true ↔ is_Some (JsMap.get k m).
Proof. unfold JsMap.has. by rewrite bool_decide_eq_true. Qed.

End JsMapFacts.

(** ** Import specifiers *)

Lemma lacks_app c s1 s2 : lacks c s1 → lacks c s2 → lacks c (s1 +:+ s2).
Proof. induction s1; simpl; [done | intros [??] ?; auto]. Qed.

Lemma pretty_N_go_lacks (x : N) s : lacks "?" s → lacks "?" (pretty_N_go x s).
Proof.
  revert s. induction (N.lt_wf_0 x) as [x _ IH]; intros s Hs.
  destruct (decide (x = 0)%N) as [->|Hx]; [done|].
  rewrite pretty_N_go_step by lia.
  apply IH; [apply N.div_lt; lia|].
  split; [|done]. unfold pretty_N_char. by repeat case_match.
Qed.

Lemma pretty_Z_lacks (t : Z) : lacks "?" (pretty t).
Proof.
  assert (∀ p : positive, lacks "?" (pretty p)) as Hpos.
  { intros p. unfold pretty, pretty_positive, pretty, pretty_N.
    case_decide; [done|]. by apply pretty_N_go_lacks. }
  destruct t as [|p|p]; [done | apply Hpos |].
  unfold pretty, pretty_Z. split; [done | apply Hpos].
Qed.

Lemma before_last_lacks c s : lacks c s → before_last c s = None.
Proof.
  induction s as [|a s IH]; simpl; [done|]. intros [Ha Hs].
  rewrite IH by done. by rewrite decide_False.
Qed.

Lemma before_last_app c s r : lacks c r → before_last c (s +:+ String c r) = Some s.
Proof.
  intros Hr. induction s as [|a s IH]; simpl.
  - rewrite before_last_lacks by done. by rewrite decide_True.
  - by rewrite IH.
Qed.

Lemma before_first_app c s r : lacks c s → before_first c (s +:+ String c r) = Some s.
Proof.
  induction s as [|a s IH]; intros Hs.
  - change ("" +:+ String c r) with (String c r).
    cbn [before_first]. by rewrite decide_True.
  - destruct Hs as [Ha Hs].
    change (String a s +:+ String c r) with (String a (s +:+ String c r)).
    cbn [before_first]. rewrite decide_False by done. by rewrite IH.
Qed.

(** The specifier of a path without a question mark names that path. *)
Lemma specifier_path_specifier filePath t :
  lacks "?" filePath → specifier_path (specifier filePath t) = filePath.
Proof.
  intros Hpath. unfold specifier_path, specifier.
  change ("?t=" +:+ pretty t) with (String "?" ("t=" +:+ pretty t)).
  by rewrite before_first_app.
Qed.

Lemma specifier_inj_time filePath t1 t2 :
  specifier filePath t1 = specifier filePath t2 → t1 = t2.
Proof.
  unfold specifier. intros H.
  apply (inj (String.app filePath)) in H.
  apply (inj (String.app "?t=")) in H.
  by apply (inj pretty) in H.
Qed.

(** ** Running the pieces *)

Lemma bind_run {A B} (m : M A) (f : A → M B) s :
  (m ≫= f) s = match m s with
               | (Ok a, s') => f a s'
               | (Throw e, s') => (Throw e, s')
               end.
Proof. reflexivity. Qed.

Lemma evaluate_remember spec spec' w :
  evaluate (remember spec w) spec' = evaluate w spec'.
Proof.
  unfold remember, evaluate.
  destruct (JsMap.get spec (registry w)) as [m|] eqn:Hget; [done|].
  destruct (assoc (specifier_path spec) (disk w)) as [ev|] eqn:Hdisk; [|done].
  simpl. rewrite get_set. case_decide as Heq; [|done].
  subst spec'. by rewrite Hget, Hdisk.
Qed.

Lemma import_settle_run spec s :
  import_settle spec s
  = (evaluate (world s) spec, {| tools := tools s; world := remember spec (world s) |}).
Proof.
  destruct s as [t w]. unfold import_settle, evaluate, remember.
  rewrite bind_run. simpl.
  destruct (JsMap.get spec (registry w)) as [[m|e]|]; [done..|].
  by destruct (assoc (specifier_path spec) (disk w)) as [[m|e]|].
Qed.

Lemma loadToolFromFile_resume_run filePath exports s :
  loadToolFromFile_resume filePath exports s
  = match validate filePath exports with
    | Ok tool => (Ok tool, {| tools := index_path filePath (tools s); world := world s |})
    | Throw e => (Throw e, s)
    end.
Proof.
  unfold loadToolFromFile_resume, validate.
  repeat (case_match; [done|]). done.
Qed.

Lemma remember_frame spec w :
  disk (remember spec w) = disk w ∧ now (remember spec w) = now w ∧
  log (remember spec w) = log w ∧ scans (remember spec w) = scans w ∧
  imports (remember spec w) = imports w ∧
  open_watchers (remember spec w) = open_watchers w ∧
  watches (remember spec w) = watches w.
Proof.
  unfold remember. destruct (JsMap.get spec (registry w)); [done|].
  by destruct (assoc (specifier_path spec) (disk w)).
Qed.

Lemma report_failure_run filePath e s :
  report_failure filePath e s
  = (promised (Throw e),
     {| tools := tools s;
        world := with_log (log (world s) ++ option_list (reported filePath e))
                          (world s) |}).
Proof.
  unfold report_failure, read_message, promised, reported.
  rewrite bind_run. destruct (unreadable e).
  - unfold throw. destruct s as [t []]. cbn. by rewrite app_nil_r.
  - done.
Qed.

(** One promise of [loadTools] run until it settles. *)
Lemma toolPromise_settle_run filePath spec s :
  toolPromise_settle filePath spec s
  = (promised (outcome_of (world s) filePath spec), after_settle s filePath spec).
Proof.
  unfold toolPromise_settle, catch, after_settle, outcome_of, fmap, M_fmap.
  rewrite bind_run, import_settle_run.
  destruct (evaluate (world s) spec) as [m|e].
  - rewrite loadToolFromFile_resume_run. simpl.
    destruct (validate filePath m); [done|].
    rewrite report_failure_run. simpl.
    by destruct (remember_frame spec (world s)) as (_ & _ & -> & _).
  - rewrite report_failure_run. simpl.
    by destruct (remember_frame spec (world s)) as (_ & _ & -> & _).
Qed.

Lemma same_outside_refl s : same_outside s s.
Proof. by repeat split. Qed.

Lemma same_outside_trans s1 s2 s3 :
  same_outside s1 s2 → same_outside s2 s3 → same_outside s1 s3.
Proof.
  unfold same_outside. intros H12 H23.
  destruct_and!. repeat split; congruence.
Qed.

Lemma outcome_of_same s s' filePath spec :
  same_outside s s' →
  outcome_of (world s') filePath spec = outcome_of (world s) filePath spec.
Proof.
  intros (_ & _ & _ & _ & _ & _ & _ & _ & _ & _ & _ & _ & Hev).
  unfold outcome_of. by rewrite (Hev spec).
Qed.

Lemma after_settle_same s filePath spec : same_outside s (after_settle s filePath spec).
Proof.
  unfold after_settle.
  destruct (remember_frame spec (world s)) as (? & ? & ? & ? & ? & ? & ?).
  pose proof (evaluate_remember spec) as Hev.
  destruct (outcome_of (world s) filePath spec); repeat split; simpl; try done.
  intros spec'. unfold evaluate in *. simpl. apply Hev.
Qed.

Lemma settle_all_same pending s : same_outside s (settle_all s pending).
Proof.
  revert s. induction pending as [|[f spec] pending IH]; intros s; simpl.
  - apply same_outside_refl.
  - eapply same_outside_trans; [apply after_settle_same | apply IH].
Qed.

Lemma settle_all_run pending s :
  mapM (λ '(filePath, spec), attempt (toolPromise_settle filePath spec)) pending s
  = (Ok ((λ '(filePath, spec), promised (outcome_of (world s) filePath spec)) <$> pending),
     settle_all s pending).
Proof.
  revert s. induction pending as [|[f spec] pending IH]; intros s; [done|].
  simpl. rewrite bind_run. unfold attempt at 1. rewrite toolPromise_settle_run.
  rewrite bind_run, IH. simpl.
  unfold mret, M_ret. do 3 f_equal. apply list_fmap_ext. intros _ [f' spec'] _.
  by rewrite (outcome_of_same s _ f' spec' (after_settle_same s f spec)).
Qed.

Lemma issue_run files s :
  mapM (λ filePath, spec ← dynamicImport_begin filePath; mret (filePath, spec)) files s
  = (Ok (issue (now (world s)) files),
     {| tools := tools s;
        world := with_imports (imports (world s) ++ (issue (now (world s)) files).*2)
                              (world s) |}).
Proof.
  revert s. induction files as [|f files IH]; intros [t w].
  - destruct w. simpl. unfold with_imports. simpl. by rewrite app_nil_r.
  - simpl. unfold dynamicImport_begin at 1, import_begin, modify_world.
    rewrite !bind_run. simpl. rewrite !bind_run, IH. simpl.
    unfold with_imports. simpl. by rewrite <-app_assoc.
Qed.

Lemma loadTools_scanned_run files s :
  loadTools_scanned files s = (Ok (issue (now (world s)) files), after_scan files s).
Proof.
  unfold loadTools_scanned, after_scan, logger, modify_world, modify_tools.
  rewrite !bind_run. simpl. by rewrite issue_run.
Qed.

Lemma loadTools_enter_hit s :
  cache_hit (tools s) = true →
  loadTools_enter s
  = (Ok (Some (JsMap.values (toolCache (tools s)))),
     {| tools := tools s;
        world := with_log (log (world s)
                           ++ [Log DEBUG "Returning cached tools"
                                 [("count", pretty (JsMap.size (toolCache (tools s))))]])
                          (world s) |}).
Proof.
  intros Hhit. unfold loadTools_enter, get_tools. rewrite bind_run. simpl.
  by rewrite Hhit.
Qed.

Lemma loadTools_enter_miss s :
  cache_hit (tools s) = false →
  loadTools_enter s
  = (Ok None, {| tools := tools s; world := with_scans (S (scans (world s))) (world s) |}).
Proof.
  intros Hhit. unfold loadTools_enter, get_tools. rewrite bind_run. simpl.
  by rewrite Hhit.
Qed.

Lemma loadTools_finish_run results s :
  loadTools_finish results s
  = (Ok (omap id results),
     {| tools := with_cacheValid true
                   (with_toolCache (cache_all (omap id results) (toolCache (tools s)))
                                   (tools s));
        world := world s |}).
Proof. reflexivity. Qed.

Lemma found_on_issue w w' :
  disk w' = disk w → now w' = now w → (∀ spec, evaluate w' spec = evaluate w spec) →
  omap id ((λ '(filePath, spec), fulfilled (outcome_of w' filePath spec))
           <$> issue (now w) (disk w).*1)
  = found_on w.
Proof.
  intros _ _ Hev. unfold found_on, issue, load_outcome.
  induction (disk w).*1 as [|f files IH]; [done|]. csimpl.
  rewrite IH. unfold outcome_of at 1 3. by rewrite Hev.
Qed.

Lemma promised_issue w w' :
  (∀ spec, evaluate w' spec = evaluate w spec) →
  (λ '(filePath, spec), promised (outcome_of w' filePath spec)) <$> issue (now w) (disk w).*1
  = (λ filePath, promised (load_outcome w filePath)) <$> (disk w).*1.
Proof.
  intros Hev. unfold issue, load_outcome. rewrite <-list_fmap_compose.
  apply list_fmap_ext. intros _ f _. cbn. unfold outcome_of. by rewrite Hev.
Qed.

Lemma Promise_all_promised (outcomes : list (Result ToolDefinition)) results :
  Promise_all (promised <$> outcomes) = Ok results →
  omap id results = omap fulfilled outcomes.
Proof.
  revert results. induction outcomes as [|[tool|e] outcomes IH]; intros results.
  - by intros [= <-].
  - cbn. destruct (Promise_all (promised <$> outcomes)) as [values|]; [|done].
    intros [= <-]. cbn. by rewrite (IH values).
  - cbn. destruct (unreadable e); [done|].
    destruct (Promise_all (promised <$> outcomes)) as [values|]; [|done].
    intros [= <-]. cbn. by rewrite (IH values).
Qed.

Lemma omap_fmap_compose {A B C} (f : A → B) (g : B → option C) (l : list A) :
  omap g (f <$> l) = omap (λ a, g (f a)) l.
Proof. induction l as [|a l IH]; [done|]. csimpl. by rewrite IH. Qed.

Lemma all_promised_found w results :
  all_promised w = Ok results → omap id results = found_on w.
Proof.
  unfold all_promised, found_on. rewrite (list_fmap_compose (load_outcome w) promised).
  intros Hall. rewrite (Promise_all_promised _ _ Hall). apply omap_fmap_compose.
Qed.

(** When every failure can be reported, [Promise.all] fulfils. *)
Lemma all_promised_reportable w :
  reportable w → ∃ results, all_promised w = Ok results.
Proof.
  unfold reportable, all_promised. induction (disk w).*1 as [|f files IH]; intros Hrep.
  - by eexists.
  - destruct IH as [results Hresults].
    { intros f' e Hin. apply Hrep. by apply list_elem_of_further. }
    cbn. rewrite Hresults.
    destruct (load_outcome w f) as [tool|e] eqn:Hf; cbn; [by eexists|].
    rewrite (Hrep f e) by (done || apply list_elem_of_here). by eexists.
Qed.

(** A [loadTools()] that does not answer from the cache, run to its end:
    it returns what loads, or rejects with the first error of its failure
    handler. *)
Lemma loadTools_miss_run s :
  cache_hit (tools s) = false →
  loadTools s
  = match all_promised (world s) with
    | Ok _ => (Ok (found_on (world s)), after_rescan s)
    | Throw e => (Throw e, all_settled s)
    end.
Proof.
  intros Hmiss. unfold loadTools.
  rewrite bind_run, loadTools_enter_miss by done.
  unfold scan_settle, get_world. rewrite !bind_run. simpl.
  rewrite bind_run, loadTools_scanned_run, bind_run, settle_all_run.
  rewrite bind_run. unfold await. cbn [world with_imports with_log with_scans].
  rewrite (promised_issue (world s)) by done.
  fold (all_promised (world s)).
  destruct (all_promised (world s)) as [results|e] eqn:Hall; [|done].
  rewrite loadTools_finish_run. simpl.
  unfold after_rescan. by rewrite (all_promised_found _ _ Hall).
Qed.

(** A [loadTools()] that does not answer from the cache, run to its end,
    when every failure can be reported. *)
Lemma loadTools_rescan_run s :
  cache_hit (tools s) = false → reportable (world s) →
  loadTools s = (Ok (found_on (world s)), after_rescan s).
Proof.
  intros Hmiss Hrep. rewrite loadTools_miss_run by done.
  by destruct (all_promised_reportable _ Hrep) as [results ->].
Qed.


(** A [loadTools()] that scanned and rejected. *)
Lemma loadTools_rejected s e s1 :
  cache_hit (tools s) = false → loadTools s = (Throw e, s1) → s1 = all_settled s.
Proof.
  intros Hmiss. rewrite loadTools_miss_run by done.
  destruct (all_promised (world s)); [done|]. by intros [= <- <-].
Qed.

Lemma reportableb_true w : reportableb w = true → reportable w.
Proof.
  unfold reportableb, reportable. rewrite forallb_forall.
  intros Hall f e Hin Hout. apply list_elem_of_In, Hall in Hin.
  rewrite Hout in Hin. by apply negb_true_iff.
Qed.

(** Whether every failure can be reported depends on the disk, the clock
    and what the imports give. *)
Lemma reportable_ext w w' :
  disk w' = disk w → now w' = now w → (∀ spec, evaluate w' spec = evaluate w spec) →
  reportable w → reportable w'.
Proof.
  intros Hd Hn Hev Hrep f e. unfold load_outcome, outcome_of.
  rewrite Hd, Hn, Hev. apply Hrep.
Qed.

(** A [loadTools()] that answers from the cache, run to its end. *)
Lemma loadTools_hit_run s :
  cache_hit (tools s) = true →
  loadTools s
  = (Ok (JsMap.values (toolCache (tools s))),
     {| tools := tools s;
        world := with_log (log (world s)
                           ++ [Log DEBUG "Returning cached tools"
                                 [("count", pretty (JsMap.size (toolCache (tools s))))]])
                          (world s) |}).
Proof.
  intros Hhit. unfold loadTools. by rewrite bind_run, loadTools_enter_hit.
Qed.

Lemma after_rescan_frame s :
  toolCache (tools (after_rescan s)) = cache_all (found_on (world s)) JsMap.empty ∧
  cacheValid (tools (after_rescan s)) = true ∧
  scans (world (after_rescan s)) = S (scans (world s)) ∧
  disk (world (after_rescan s)) = disk (world s) ∧
  now (world (after_rescan s)) = now (world s) ∧
  watcher (tools (after_rescan s)) = watcher (tools s) ∧
  onChangeCallback (tools (after_rescan s)) = onChangeCallback (tools s) ∧
  globPattern (tools (after_rescan s)) = globPattern (tools s) ∧
  open_watchers (world (after_rescan s)) = open_watchers (world s) ∧
  (∀ spec, evaluate (world (after_rescan s)) spec = evaluate (world s) spec).
Proof.
  unfold after_rescan. simpl.
  match goal with |- context [settle_all ?s0 ?p] =>
    destruct (settle_all_same p s0)
      as (Hc & Hw & Hcb & Hg & Hcache & Hv & Hd & Hn & Hs & Hi & Ho & Hws & Hev)
  end.
  rewrite Hcache, Hw, Hcb, Hg, Hd, Hn, Hs, Ho. simpl.
  repeat split. intros spec. by rewrite Hev.
Qed.

Lemma all_settled_frame s :
  toolCache (tools (all_settled s)) = JsMap.empty ∧
  cacheValid (tools (all_settled s)) = cacheValid (tools s) ∧
  scans (world (all_settled s)) = S (scans (world s)) ∧
  disk (world (all_settled s)) = disk (world s) ∧
  now (world (all_settled s)) = now (world s) ∧
  watcher (tools (all_settled s)) = watcher (tools s) ∧
  onChangeCallback (tools (all_settled s)) = onChangeCallback (tools s) ∧
  globPattern (tools (all_settled s)) = globPattern (tools s) ∧
  open_watchers (world (all_settled s)) = open_watchers (world s) ∧
  imports (world (all_settled s))
  = imports (world s) ++ (issue (now (world s)) (disk (world s)).*1).*2 ∧
  (∀ spec, evaluate (world (all_settled s)) spec = evaluate (world s) spec).
Proof.
  unfold all_settled. simpl.
  match goal with |- context [settle_all ?s0 ?p] =>
    destruct (settle_all_same p s0)
      as (Hc & Hw & Hcb & Hg & Hcache & Hv & Hd & Hn & Hs & Hi & Ho & Hws & Hev)
  end.
  rewrite Hcache, Hv, Hw, Hcb, Hg, Hd, Hn, Hs, Ho, Hi. simpl.
  repeat split. intros spec. by rewrite Hev.
Qed.

Lemma after_rescan_all_settled s :
  world (after_rescan s) = world (all_settled s) ∧
  toolPathMap (tools (after_rescan s)) = toolPathMap (tools (all_settled s)) ∧
  config (tools (after_rescan s)) = config (tools (all_settled s)).
Proof. done. Qed.

(** A [loadTools()] that does not answer from the cache scans once and
    imports every file, whether it returns or rejects. *)
Lemma loadTools_miss_world s :
  cache_hit (tools s) = false →
  world (loadTools s).2 = world (all_settled s) ∧
  toolPathMap (tools (loadTools s).2) = toolPathMap (tools (all_settled s)).
Proof.
  intros Hmiss. rewrite loadTools_miss_run by done.
  by destruct (all_promised (world s)).
Qed.

Lemma settle_all_log_from w0 pending s :
  (∀ spec, evaluate (world s) spec = evaluate w0 spec) →
  log (world (settle_all s pending))
  = (log (world s)
     ++ omap (λ '(filePath, spec),
                rejected (outcome_of w0 filePath spec) ≫= reported filePath)
             pending)%list.
Proof.
  revert s. induction pending as [|[f spec] pending IH]; intros s Hev; simpl.
  - by rewrite app_nil_r.
  - rewrite IH; last first.
    { intros spec'. rewrite <-Hev.
      by destruct (after_settle_same s f spec) as (_&_&_&_&_&_&_&_&_&_&_&_&->). }
    csimpl. assert (outcome_of (world s) f spec = outcome_of w0 f spec) as Hout.
    { unfold outcome_of. by rewrite Hev. }
    unfold after_settle. rewrite Hout.
    destruct (outcome_of w0 f spec) as [tool|e]; simpl.
    + by destruct (remember_frame spec (world s)) as (_ & _ & -> & _).
    + destruct (reported f e); simpl; [by rewrite <-app_assoc | by rewrite app_nil_r].
Qed.

Lemma settle_all_log pending s :
  log (world (settle_all s pending))
  = (log (world s)
     ++ omap (λ '(filePath, spec),
                rejected (outcome_of (world s) filePath spec) ≫= reported filePath)
             pending)%list.
Proof. by apply settle_all_log_from. Qed.

(** The log a rescanning [loadTools()] leaves: what was there, the count
    of files, and one report per file whose failure the handler could
    report, in scan order. *)
Lemma all_settled_log s :
  log (world (all_settled s))
  = (log (world s)
     ++ [Log DEBUG "Resolved tool files" [("count", pretty (length (disk (world s)).*1))]]
     ++ omap (λ filePath,
                rejected (load_outcome (world s) filePath) ≫= reported filePath)
             (disk (world s)).*1)%list.
Proof.
  unfold all_settled. simpl. rewrite (settle_all_log_from (world s)) by done.
  simpl. rewrite <-app_assoc. do 2 f_equal.
  unfold issue, load_outcome. generalize (now (world s)) as t.
  intros t. induction (disk (world s)).*1 as [|f files IH]; [done|].
  csimpl. by rewrite IH.
Qed.

Lemma after_rescan_log s :
  log (world (after_rescan s))
  = (log (world s)
     ++ [Log DEBUG "Resolved tool files" [("count", pretty (length (disk (world s)).*1))]]
     ++ omap (λ filePath,
                rejected (load_outcome (world s) filePath) ≫= reported filePath)
             (disk (world s)).*1)%list.
Proof. apply all_settled_log. Qed.

(** ** The unit loader *)

Lemma check_description v :
  falsy v || negb (bool_decide (typeof v = "string")) = false
  ↔ ∃ d, v = JsString d ∧ d ≠ "".
Proof.
  split.
  - destruct v; cbn; rewrite ?orb_true_r, ?orb_false_r; try done.
    intros Hs. apply bool_decide_eq_false in Hs. eauto.
  - intros (d & -> & Hd). cbn. by rewrite bool_decide_eq_false_2.
Qed.

Lemma check_inputSchema v :
  falsy v || negb (bool_decide (typeof v = "object")) = false ↔ ∃ r, v = JsObject r.
Proof.
  split.
  - destruct v; simpl; try done; try (by rewrite orb_true_r); eauto.
  - by intros (r & ->).
Qed.

Lemma check_default v :
  falsy v || negb (bool_decide (typeof v = "function")) = false ↔ ∃ r, v = JsFunction r.
Proof.
  split.
  - destruct v; simpl; try done; try (by rewrite orb_true_r); eauto.
  - by intros (r & ->).
Qed.

Lemma validate_valid filePath exports :
  valid_exports exports → validate filePath exports = Ok (tool_of filePath exports).
Proof.
  intros (Hd & Hs & Hf). unfold validate.
  apply check_description in Hd. apply check_inputSchema in Hs.
  apply check_default in Hf. by rewrite Hd, Hs, Hf.
Qed.

Lemma validate_invalid filePath exports :
  ¬ valid_exports exports → ∃ e, validate filePath exports = Throw e.
Proof.
  intros Hinv. unfold validate.
  destruct (falsy (export exports "description") || _) eqn:Hd; [eauto|].
  destruct (falsy (export exports "inputSchema") || _) eqn:Hs; [eauto|].
  destruct (falsy (export exports "default") || _) eqn:Hf; [eauto|].
  destruct Hinv. split_and!.
  - by apply check_description.
  - by apply check_inputSchema.
  - by apply check_default.
Qed.

Lemma validate_Ok filePath exports tool :
  validate filePath exports = Ok tool ↔ valid_exports exports ∧ tool = tool_of filePath exports.
Proof.
  split.
  - intros Hv.
    assert (valid_exports exports) as Hvalid.
    { unfold validate in Hv. repeat case_match; try done.
      split_and!; [by apply check_description | by apply check_inputSchema
                  | by apply check_default]. }
    split; [done|]. rewrite validate_valid in Hv by done. congruence.
  - intros [Hvalid ->]. by apply validate_valid.
Qed.

Lemma dynamicImport_run filePath s :
  dynamicImport filePath s
  = (evaluate (world s) (specifier filePath (now (world s))),
     {| tools := tools s; world := after_import filePath (world s) |}).
Proof.
  unfold dynamicImport, dynamicImport_begin, import_begin, get_world, modify_world.
  rewrite !bind_run. simpl. by rewrite import_settle_run.
Qed.

Lemma loadToolFromFile_run filePath s :
  loadToolFromFile filePath s
  = (load_outcome (world s) filePath,
     {| tools := match load_outcome (world s) filePath with
                 | Ok _ => index_path filePath (tools s)
                 | Throw _ => tools s
                 end;
        world := after_import filePath (world s) |}).
Proof.
  unfold loadToolFromFile. rewrite bind_run, dynamicImport_run.
  unfold load_outcome, outcome_of.
  destruct (evaluate (world s) _); [|done].
  rewrite loadToolFromFile_resume_run. by destruct (validate filePath a).
Qed.

(** Every failure can be reported when no file fails with [null] or
    [undefined]. *)
Lemma reportable_loads s :
  reportable (world s)
  ↔ ∀ filePath e, filePath ∈ (disk (world s)).*1 →
                  (loadToolFromFile filePath s).1 = Throw e → unreadable e = false.
Proof.
  unfold reportable. by setoid_rewrite loadToolFromFile_run.
Qed.

(** C4, as the claim words it, fails: a module whose [description] is the
    empty string exports a string, an object and a function, and the
    loader rejects it. *)
Lemma blank_description_rejected :
  (∃ e, (loadToolFromFile Sample.blank_ts Sample.blank_state).1 = Throw e) ∧
  ¬ contract_rejects (dynamicImport Sample.blank_ts Sample.blank_state).1.
Proof.
  split.
  - eexists. vm_compute. reflexivity.
  - rewrite dynamicImport_run. vm_compute. intros [H|[H|H]]; [| destruct H; eauto |]; done.
Qed.

(** C4 (amended).  For every file path and state, [loadToolFromFile] fails
    exactly when the import fails or the module's exports do not pass the
    three checks, which ask for a [description] that is a string and not
    empty, an [inputSchema] that is an object and not [null], and a default
    export that is a function.  A failed import fails the load with the
    import's own error; exports that pass give the tool definition built
    from the path and the exports. *)
Theorem loadToolFromFile_fails_exactly filePath s :
  ((∃ e, (loadToolFromFile filePath s).1 = Throw e)
   ↔ rejects (dynamicImport filePath s).1) ∧
  (∀ e, (dynamicImport filePath s).1 = Throw e →
        (loadToolFromFile filePath s).1 = Throw e) ∧
  (∀ exports, (dynamicImport filePath s).1 = Ok exports → valid_exports exports →
        (loadToolFromFile filePath s).1 = Ok (tool_of filePath exports)).
Proof.
  rewrite loadToolFromFile_run, dynamicImport_run. simpl.
  unfold load_outcome, outcome_of.
  destruct (evaluate (world s) _) as [exports|e0]; simpl; split_and!.
  - split.
    + intros [e He] Hvalid. by rewrite validate_valid in He.
    + apply validate_invalid.
  - done.
  - intros ? [= <-]. apply validate_valid.
  - split; eauto.
  - by intros ? [= <-].
  - done.
Qed.

(** ** Batch loads *)

Lemma rescan_resume_run filePath exports s :
  AlwaysRescan.loadToolFromFile_resume filePath exports s = (validate filePath exports, s).
Proof.
  unfold AlwaysRescan.loadToolFromFile_resume, validate.
  repeat (case_match; [done|]). done.
Qed.

Lemma rescan_loadToolFromFile_run filePath s :
  AlwaysRescan.loadToolFromFile filePath s
  = (load_outcome (world s) filePath,
     {| tools := tools s; world := after_import filePath (world s) |}).
Proof.
  unfold AlwaysRescan.loadToolFromFile. rewrite bind_run, dynamicImport_run.
  unfold load_outcome, outcome_of.
  destruct (evaluate (world s) _); [|done]. by rewrite rescan_resume_run.
Qed.

Lemma rescan_settle_run filePath spec s :
  AlwaysRescan.settle filePath spec s
  = (Ok (outcome_of (world s) filePath spec),
     {| tools := tools s; world := remember spec (world s) |}).
Proof.
  unfold AlwaysRescan.settle. rewrite bind_run, import_settle_run.
  unfold outcome_of. destruct (evaluate (world s) spec); [|done].
  by rewrite rescan_resume_run.
Qed.

Lemma rescan_settle_all_run w0 pending s :
  (∀ spec, evaluate (world s) spec = evaluate w0 spec) →
  ∃ s', mapM (λ '(filePath, spec), AlwaysRescan.settle filePath spec) pending s
        = (Ok ((λ '(filePath, spec), outcome_of w0 filePath spec) <$> pending), s')
        ∧ tools s' = tools s ∧ log (world s') = log (world s).
Proof.
  revert s. induction pending as [|[f spec] pending IH]; intros s Hev.
  - by exists s.
  - simpl. rewrite bind_run, rescan_settle_run.
    destruct (IH {| tools := tools s; world := remember spec (world s) |})
      as (s' & Hrun & Ht & Hl).
    { intros spec'. simpl. by rewrite evaluate_remember. }
    exists s'. rewrite bind_run, Hrun. simpl. split_and!.
    + unfold mret, M_ret, outcome_of. by rewrite Hev.
    + done.
    + simpl in Hl. rewrite Hl.
      by destruct (remember_frame spec (world s)) as (_ & _ & -> & _).
Qed.

Lemma rescan_collect_run files (outcome : string → Result ToolDefinition) s :
  ∃ s', AlwaysRescan.collect files (outcome <$> files) s
        = (Ok (omap (λ f, fulfilled (outcome f)) files), s')
        ∧ tools s' = tools s
        ∧ log (world s')
          = (log (world s)
             ++ omap (λ f, AlwaysRescan.failure_entry f <$> rejected (outcome f)) files)%list.
Proof.
  revert s. induction files as [|f files IH]; intros s.
  - exists s. by rewrite app_nil_r.
  - csimpl. destruct (outcome f) as [tool|e]; simpl.
    + destruct (IH s) as (s' & Hrun & Ht & Hl). exists s'.
      by rewrite bind_run, Hrun.
    + unfold logger, modify_world. rewrite bind_run. simpl.
      destruct (IH {| tools := tools s;
                      world := with_log (log (world s)
                                         ++ [Log ERROR "Failed to load tool"
                                               [("file", f); ("err", message_or_reason e)]])
                                        (world s) |})
        as (s' & Hrun & Ht & Hl).
      exists s'. rewrite Hrun. split_and!; [done..|].
      rewrite Hl. simpl. by rewrite <-app_assoc.
Qed.

Lemma rescan_loadTools_run s :
  ∃ s', AlwaysRescan.loadTools s = (Ok (found_on (world s)), s')
        ∧ tools s' = tools s
        ∧ log (world s')
          = (log (world s)
             ++ [Log DEBUG "Resolved tool files"
                   [("count", pretty (length (disk (world s)).*1))]]
             ++ omap (λ f, AlwaysRescan.failure_entry f
                             <$> rejected (load_outcome (world s) f))
                     (disk (world s)).*1)%list.
Proof.
  unfold AlwaysRescan.loadTools, resolveToolFiles, scan_begin, scan_settle,
    get_world, logger, modify_world.
  rewrite !bind_run. simpl. rewrite !bind_run. simpl.
  rewrite issue_run. simpl. rewrite bind_run.
  match goal with |- context [mapM _ ?p ?s0] =>
    destruct (rescan_settle_all_run (world s) p s0) as (s1 & Hrun & Ht1 & Hl1); [done|]
  end.
  rewrite Hrun. unfold issue. rewrite <-list_fmap_compose.
  destruct (rescan_collect_run (disk (world s)).*1 (load_outcome (world s)) s1)
    as (s2 & Hcollect & Ht2 & Hl2).
  exists s2. split_and!.
  - exact Hcollect.
  - by rewrite Ht2, Ht1.
  - rewrite Hl2, Hl1. simpl. by rewrite <-app_assoc.
Qed.

Lemma elem_of_omap_rejected {A} (entry : string → JsError → A)
    (outcome : string → Result ToolDefinition) (files : list string) f e :
  f ∈ files → outcome f = Throw e →
  entry f e ∈ omap (λ f, entry f <$> rejected (outcome f)) files.
Proof.
  intros Hf He. apply list_elem_of_omap. exists f. by rewrite He.
Qed.

(** A [loadTools()] that scans, in a world where every failure can be
    reported, returns: in scan order, the tool of every file that loads,
    and only those; each file that does not load is left out and has its
    report in the log.  The always-rescan variant does so in every
    world. *)
Lemma loadTools_leaves_out_bad_files s :
  cache_hit (tools s) = false →
  (reportable (world s) →
   ∃ found s',
      loadTools s = (Ok found, s')
      ∧ found = omap (λ f, fulfilled (loadToolFromFile f s).1) (disk (world s)).*1
      ∧ (∀ tool, tool ∈ found
                 ↔ ∃ f, f ∈ (disk (world s)).*1 ∧ (loadToolFromFile f s).1 = Ok tool)
      ∧ (∀ f e, f ∈ (disk (world s)).*1 → (loadToolFromFile f s).1 = Throw e →
                failure_entry f e ∈ log (world s'))) ∧
  (∃ found s',
      AlwaysRescan.loadTools s = (Ok found, s')
      ∧ found = omap (λ f, fulfilled (AlwaysRescan.loadToolFromFile f s).1)
                     (disk (world s)).*1
      ∧ (∀ tool, tool ∈ found
                 ↔ ∃ f, f ∈ (disk (world s)).*1
                        ∧ (AlwaysRescan.loadToolFromFile f s).1 = Ok tool)
      ∧ (∀ f e, f ∈ (disk (world s)).*1 →
                (AlwaysRescan.loadToolFromFile f s).1 = Throw e →
                AlwaysRescan.failure_entry f e ∈ log (world s'))).
Proof.
  intros Hmiss.
  assert (∀ tool,
            tool ∈ found_on (world s)
            ↔ ∃ f, f ∈ (disk (world s)).*1 ∧ load_outcome (world s) f = Ok tool)
    as Hmem.
  { intros tool. unfold found_on. rewrite list_elem_of_omap.
    split; intros (f & Hf & Hok); exists f; split; try done.
    - by destruct (load_outcome (world s) f); simplify_eq/=.
    - by rewrite Hok. }
  split.
  - intros Hrep. exists (found_on (world s)), (after_rescan s).
    assert (∀ f, (loadToolFromFile f s).1 = load_outcome (world s) f) as Hload.
    { intros f. by rewrite loadToolFromFile_run. }
    split_and!.
    + by apply loadTools_rescan_run.
    + unfold found_on. apply list_omap_ext, Forall2_same_length_lookup_2; [done|].
      intros i f f' Hf Hf'. rewrite Hload. congruence.
    + intros tool. rewrite Hmem. by setoid_rewrite Hload.
    + intros f e Hf He. rewrite after_rescan_log.
      rewrite Hload in He.
      apply elem_of_app. right. apply elem_of_app. right.
      apply list_elem_of_omap. exists f. split; [done|]. rewrite He. cbn.
      unfold reported. by rewrite (Hrep f e).
  - destruct (rescan_loadTools_run s) as (s' & Hrun & _ & Hlog).
    exists (found_on (world s)), s'.
    assert (∀ f, (AlwaysRescan.loadToolFromFile f s).1 = load_outcome (world s) f)
      as Hload.
    { intros f. by rewrite rescan_loadToolFromFile_run. }
    split_and!.
    + done.
    + unfold found_on. apply list_omap_ext, Forall2_same_length_lookup_2; [done|].
      intros i f f' Hf Hf'. rewrite Hload. congruence.
    + intros tool. rewrite Hmem. by setoid_rewrite Hload.
    + intros f e Hf He. rewrite Hlog. rewrite Hload in He.
      apply elem_of_app. right. apply elem_of_app. right.
      by apply (elem_of_omap_rejected AlwaysRescan.failure_entry).
Qed.

(** C3: one bad file can fail the whole batch.  Of the three files
    [hello.ts], [null.ts] and [raw.ts], the second throws [null] when it
    is evaluated; loaded one by one, [hello.ts] and [raw.ts] give their
    tools and [null.ts] fails with [null].  The failure handler of
    [loadTools()] reads [err.message] of that [null] and throws: the call
    rejects with the handler's [TypeError], returns no tool, caches none
    and leaves the valid flag unset, although the two siblings loaded (the
    path index holds them).  The always-rescan variant, whose handler
    reads [reason?.message], returns the two tools; so does the cached
    class when the file throws an [Error] instead. *)
Theorem null_rejection_fails_loadTools :
  (loadToolFromFile Sample.hello_ts Sample.throws_null).1
  = Ok (tool_of Sample.hello_ts Sample.hello_exports) ∧
  (loadToolFromFile Sample.null_ts Sample.throws_null).1 = Throw (Thrown JsNull) ∧
  (loadToolFromFile Sample.raw_ts Sample.throws_null).1
  = Ok (tool_of Sample.raw_ts Sample.raw_exports) ∧
  (loadTools Sample.throws_null).1 = Throw (not_an_object (Thrown JsNull)) ∧
  toolCache (tools (loadTools Sample.throws_null).2) = JsMap.empty ∧
  cacheValid (tools (loadTools Sample.throws_null).2) = false ∧
  toolPathMap (tools (loadTools Sample.throws_null).2)
  = [("hello", Sample.hello_ts); ("raw", Sample.raw_ts)] ∧
  (AlwaysRescan.loadTools Sample.throws_null).1
  = Ok [tool_of Sample.hello_ts Sample.hello_exports;
        tool_of Sample.raw_ts Sample.raw_exports] ∧
  (loadTools Sample.throws_error).1
  = Ok [tool_of Sample.hello_ts Sample.hello_exports;
        tool_of Sample.raw_ts Sample.raw_exports].
Proof. split_and!; vm_compute; reflexivity. Qed.

(** ** Cache hits *)

Lemma cache_hit_true t :
  cache_hit t = true ↔ cacheValid t = true ∧ 0 < JsMap.size (toolCache t).
Proof.
  unfold cache_hit. rewrite andb_true_iff, bool_decide_eq_true. done.
Qed.

(** ** The cache after a scan *)

Lemma cache_all_snoc found tool c :
  cache_all (found ++ [tool]) c = JsMap.set (name tool) tool (cache_all found c).
Proof. unfold cache_all. by rewrite foldl_app. Qed.

(** The entry under a name is the last tool of that name that was set. *)
Lemma cache_all_get n found c :
  JsMap.get n (cache_all found c)
  = match last (filter (λ tool, name tool = n) found) with
    | Some tool => Some tool
    | None => JsMap.get n c
    end.
Proof.
  induction found as [|tool found IH] using rev_ind; [done|].
  rewrite cache_all_snoc, get_set, filter_app, filter_cons, filter_nil.
  case_decide as Hn.
  - by rewrite last_snoc.
  - by rewrite app_nil_r.
Qed.





Lemma named_set tool c : named c → named (JsMap.set (name tool) tool c).
Proof.
  intros Hc n tool'. rewrite get_set. case_decide; [congruence | apply Hc].
Qed.

Lemma named_cache_all found c : named c → named (cache_all found c).
Proof.
  revert c. induction found as [|tool found IH]; intros c Hc; simpl; [done|].
  by apply IH, named_set.
Qed.





Lemma cache_all_size_pos found c :
  found ≠ [] → (0 < JsMap.size (cache_all found c))%nat.
Proof.
  destruct found as [|tool found]; [done|]. intros _. simpl.
  assert (∀ l c', (JsMap.size c' ≤ JsMap.size (cache_all l c'))%nat) as Hmono.
  { induction l as [|t l IH]; intros c'; simpl; [lia|].
    etrans; [|apply IH]. rewrite size_set. case_match; lia. }
  pose proof (Hmono found (JsMap.set (name tool) tool c)) as Hle.
  rewrite size_set in Hle.
  destruct (JsMap.get (name tool) c) eqn:Hget; [|lia].
  assert (JsMap.size c ≠ 0%nat); [|lia].
  destruct c; [done | simpl; lia].
Qed.

Lemma load_outcome_name w filePath tool :
  load_outcome w filePath = Ok tool → name tool = toolName filePath.
Proof.
  unfold load_outcome, outcome_of. destruct (evaluate w _); [|done].
  intros Hv. apply validate_Ok in Hv as [_ ->]. done.
Qed.








(** ** Single loads *)

Lemma find_toolName name (files : list string) filePath :
  find (λ f, bool_decide (toolName f = name)) files = Some filePath →
  toolName filePath = name.
Proof.
  intros Hfind. apply find_some in Hfind as [_ Hname].
  by apply bool_decide_eq_true in Hname.
Qed.

Lemma truthy_path_Some p filePath :
  truthy_path p = Some filePath ↔ p = Some filePath ∧ filePath ≠ "".
Proof.
  unfold truthy_path. destruct p as [q|]; simpl.
  - case_decide as Hq; split.
    + done.
    + intros [[= ->] ?]. done.
    + intros [= ->]. done.
    + intros [[= ->] _]. done.
  - split; [done | by intros [? _]].
Qed.

Lemma loadTool_from_run name filePath s :
  (tool ← loadToolFromFile filePath;
   modify_tools (λ t, with_toolCache (JsMap.set name tool (toolCache t)) t);;
   mret tool) s
  = loadTool_from name filePath s.
Proof.
  rewrite bind_run, loadToolFromFile_run. unfold loadTool_from.
  by destruct (load_outcome (world s) filePath).
Qed.

(** [loadTool(name)] run to its end, case by case. *)
Lemma loadTool_run name s :
  loadTool name s
  = match cached name (tools s) with
    | Some tool =>
        (Ok tool,
         {| tools := tools s;
            world := with_log (log (world s)
                               ++ [Log DEBUG "Returning cached tool" [("name", name)]])
                              (world s) |})
    | None =>
        match truthy_path (JsMap.get name (toolPathMap (tools s))) with
        | Some filePath => loadTool_from name filePath s
        | None =>
            match truthy_path (find (λ f, bool_decide (toolName f = name))
                                    (disk (world s)).*1) with
            | Some filePath =>
                loadTool_from name filePath
                  {| tools := with_toolPathMap
                                (JsMap.set name filePath (toolPathMap (tools s)))
                                (tools s);
                     world := with_scans (S (scans (world s))) (world s) |}
            | None =>
                (Throw (Error ("Tool not found: " +:+ name)),
                 {| tools := tools s;
                    world := with_scans (S (scans (world s))) (world s) |})
            end
        end
    end.
Proof.
  unfold loadTool, get_tools. rewrite bind_run. simpl.
  destruct (cached name (tools s)) as [tool|]; [done|].
  rewrite bind_run.
  destruct (truthy_path (JsMap.get name (toolPathMap (tools s)))) as [filePath|].
  - simpl. apply loadTool_from_run.
  - unfold resolveToolFiles, scan_begin, scan_settle, get_world, modify_world.
    rewrite !bind_run. simpl.
    destruct (truthy_path (find _ _)) as [filePath|]; [|done].
    unfold modify_tools. rewrite bind_run. simpl. apply loadTool_from_run.
Qed.

(** C5, as the claim words it, fails: the name [broken] resolves to the
    file [broken.ts], which is on disk, and [loadTool] fails, with the
    loader's error and not with the not-found error. *)
Lemma loadTool_fails_on_existing_file :
  resolve "broken" Sample.broken_state = Some Sample.broken_ts ∧
  (loadTool "broken" Sample.broken_state).1
  = Throw (Error "Tool file /work/tools/broken.ts must export a 'description' string").
Proof. split; vm_compute; reflexivity. Qed.

(** C5 (amended).  [loadTool(name)] returns the cached tool when the valid
    flag is set and the cache holds the name.  Otherwise, when neither the
    path index nor a scan resolves the name to a file it fails with the
    error [Tool not found: name]; when the name resolves to a file it
    returns or fails as the unit loader does on that file. *)
Theorem loadTool_outcome name s :
  (loadTool name s).1
  = match cached name (tools s) with
    | Some tool => Ok tool
    | None =>
        match resolve name s with
        | None => Throw (Error ("Tool not found: " +:+ name))
        | Some filePath => (loadToolFromFile filePath s).1
        end
    end.
Proof.
  rewrite loadTool_run. unfold resolve.
  destruct (cached name (tools s)); [done|].
  destruct (truthy_path (JsMap.get name (toolPathMap (tools s)))) as [filePath|].
  - rewrite loadToolFromFile_run. unfold loadTool_from. simpl.
    by destruct (load_outcome (world s) filePath).
  - destruct (truthy_path (find _ _)) as [filePath|]; [|done].
    rewrite loadToolFromFile_run. unfold loadTool_from. simpl.
    change (load_outcome (with_scans _ (world s)) filePath)
      with (load_outcome (world s) filePath).
    by destruct (load_outcome (world s) filePath).
Qed.

Lemma cached_Some n t tool :
  cached n t = Some tool ↔ cacheValid t = true ∧ JsMap.get n (toolCache t) = Some tool.
Proof.
  unfold cached, JsMap.has. destruct (cacheValid t); simpl.
  - case_bool_decide as Hhas.
    + split; [by intros ? | by intros [_ ?]].
    + split; [done|]. intros [_ Hget]. destruct Hhas. by rewrite Hget.
  - split; [done | by intros [? _]].
Qed.

Lemma cached_named n t tool :
  named (toolCache t) → cached n t = Some tool → name tool = n.
Proof.
  unfold cached. destruct (cacheValid t && _); [|done]. intros Hnamed. apply Hnamed.
Qed.

(** What a successful [loadTool_from] leaves, when the file bears the name. *)
Lemma loadTool_from_frame n filePath s tool s' :
  toolName filePath = n →
  loadTool_from n filePath s = (Ok tool, s') →
  name tool = n ∧
  (∀ k, k ≠ n → JsMap.get k (toolCache (tools s')) = JsMap.get k (toolCache (tools s))) ∧
  (∀ k, k ≠ n →
        JsMap.get k (toolPathMap (tools s')) = JsMap.get k (toolPathMap (tools s))) ∧
  JsMap.get n (toolCache (tools s')) = Some tool ∧
  JsMap.get n (toolPathMap (tools s')) = Some filePath ∧
  cacheValid (tools s') = cacheValid (tools s) ∧
  scans (world s') = scans (world s).
Proof.
  intros Hname. unfold loadTool_from.
  destruct (load_outcome (world s) filePath) as [tool'|e] eqn:Hout; [|done].
  intros [= <- <-]. simpl. rewrite Hname.
  split_and!.
  - rewrite <-Hname. by eapply load_outcome_name.
  - intros k Hk. by apply get_set_ne.
  - intros k Hk. by apply get_set_ne.
  - apply get_set_eq.
  - apply get_set_eq.
  - done.
  - unfold after_import.
    by destruct (remember_frame (specifier filePath (now (world s)))
                   (with_imports (imports (world s)
                                  ++ [specifier filePath (now (world s))]) (world s)))
      as (_ & _ & _ & -> & _).
Qed.

(** [loadTool] never touches the valid flag, whatever it gives. *)
Lemma loadTool_keeps_flag n s :
  cacheValid (tools (loadTool n s).2) = cacheValid (tools s).
Proof.
  rewrite loadTool_run.
  destruct (cached n (tools s)); [done|].
  assert (∀ filePath s0,
            cacheValid (tools (loadTool_from n filePath s0).2) = cacheValid (tools s0))
    as Hfrom.
  { intros filePath s0. unfold loadTool_from.
    by destruct (load_outcome (world s0) filePath). }
  destruct (truthy_path (JsMap.get n (toolPathMap (tools s)))) as [filePath|].
  { apply Hfrom. }
  destruct (truthy_path (find _ _)) as [filePath|]; [|done].
  by rewrite Hfrom.
Qed.

Lemma loadTool_each_keeps_flag names s :
  cacheValid (tools (loadTool_each names s)) = cacheValid (tools s).
Proof.
  revert s. induction names as [|n names IH]; intros s; [done|].
  simpl. by rewrite IH, loadTool_keeps_flag.
Qed.

(** C10.  On a registry whose two maps stand under the names their files
    give, a [loadTool(name)] that succeeds returns a tool of that name,
    leaves the cache and the path index as they were under every other
    name, and leaves the valid flag as it was.  So when the flag was
    cleared it still is, also after any further calls of [loadTool], and
    the next [loadTools()] scans and loads from disk. *)
Theorem loadTool_frame n s tool s' :
  registry_ok (tools s) →
  loadTool n s = (Ok tool, s') →
  name tool = n ∧
  (∀ k, k ≠ n → JsMap.get k (toolCache (tools s')) = JsMap.get k (toolCache (tools s))) ∧
  (∀ k, k ≠ n →
        JsMap.get k (toolPathMap (tools s')) = JsMap.get k (toolPathMap (tools s))) ∧
  cacheValid (tools s') = cacheValid (tools s) ∧
  (cacheValid (tools s) = false →
   ∀ names,
     cacheValid (tools (loadTool_each names s')) = false ∧
     ∃ r s'', loadTools (loadTool_each names s') = (r, s'')
            ∧ scans (world s'') = S (scans (world (loadTool_each names s')))
            ∧ imports (world s'')
              = imports (world (loadTool_each names s'))
                ++ (issue (now (world (loadTool_each names s')))
                          (disk (world (loadTool_each names s'))).*1).*2
            ∧ (reportable (world (loadTool_each names s')) →
               r = Ok (found_on (world (loadTool_each names s'))))).
Proof.
  intros [Hindexed Hnamed] Hrun.
  assert (cacheValid (tools s') = cacheValid (tools s)) as Hvalid.
  { rewrite <-(loadTool_keeps_flag n s). by rewrite Hrun. }
  assert (name tool = n ∧
    (∀ k, k ≠ n → JsMap.get k (toolCache (tools s')) = JsMap.get k (toolCache (tools s))) ∧
    (∀ k, k ≠ n →
          JsMap.get k (toolPathMap (tools s')) = JsMap.get k (toolPathMap (tools s))))
    as (Hn & Hcache & Hindex).
  { rewrite loadTool_run in Hrun.
    destruct (cached n (tools s)) as [tool'|] eqn:Hcached.
    { injection Hrun as <- <-. split_and!; try done. by eapply cached_named. }
    destruct (truthy_path (JsMap.get n (toolPathMap (tools s)))) as [filePath|] eqn:Hpm.
    { apply truthy_path_Some in Hpm as [Hget Hne].
      destruct (loadTool_from_frame n filePath s tool s')
        as (? & ? & ? & _); [by apply Hindexed | done | done]. }
    destruct (truthy_path (find _ _)) as [filePath|] eqn:Hfind; [|done].
    apply truthy_path_Some in Hfind as [Hfind _].
    apply find_toolName in Hfind.
    destruct (loadTool_from_frame n filePath _ tool s' Hfind Hrun)
      as (? & Hc & Hp & _).
    split_and!; try done.
    intros k Hk. rewrite (Hp k Hk). simpl. by apply get_set_ne. }
  split_and!; try done.
  intros Hinvalid names.
  assert (cacheValid (tools (loadTool_each names s')) = false) as Hstill.
  { rewrite loadTool_each_keeps_flag. congruence. }
  split; [done|].
  assert (cache_hit (tools (loadTool_each names s')) = false) as Hmiss.
  { unfold cache_hit. by rewrite Hstill. }
  destruct (loadTools_miss_world _ Hmiss) as [Hworld _].
  destruct (all_settled_frame (loadTool_each names s'))
    as (_ & _ & Hscans & _ & _ & _ & _ & _ & _ & Himports & _).
  destruct (loadTools (loadTool_each names s')) as [r s''] eqn:Hrun'.
  exists r, s''. simpl in Hworld. rewrite Hworld. split_and!; [done..|].
  intros Hrep. rewrite loadTools_rescan_run in Hrun' by done. congruence.
Qed.

(** ** The invariant of the two maps *)

Lemma registry_ok_new c matches : registry_ok (new_Tools c matches).
Proof. split; intros n x; simpl; done. Qed.

Lemma indexed_index_path filePath t :
  indexed (toolPathMap t) → indexed (toolPathMap (index_path filePath t)).
Proof.
  intros Hpm n p. simpl. rewrite get_set.
  case_decide; [by intros [= <-] | apply Hpm].
Qed.

Lemma settle_all_indexed pending s :
  indexed (toolPathMap (tools s)) → indexed (toolPathMap (tools (settle_all s pending))).
Proof.
  revert s. induction pending as [|[f spec] pending IH]; intros s Hs; [done|].
  simpl. apply IH. unfold after_settle.
  destruct (outcome_of (world s) f spec); [by apply indexed_index_path | done].
Qed.

Lemma registry_ok_after_rescan s : registry_ok (tools (after_rescan s)).
Proof.
  split.
  - unfold after_rescan. simpl. by apply settle_all_indexed.
  - destruct (after_rescan_frame s) as (-> & _). by apply named_cache_all.
Qed.

Lemma registry_ok_loadTools s : registry_ok (tools s) → registry_ok (tools (loadTools s).2).
Proof.
  intros Hok. destruct (cache_hit (tools s)) eqn:Hhit.
  - by rewrite loadTools_hit_run.
  - rewrite loadTools_miss_run by done.
    destruct (all_promised (world s)); [apply registry_ok_after_rescan|].
    split; simpl.
    + unfold all_settled. by apply settle_all_indexed.
    + destruct (all_settled_frame s) as (-> & _). by intros n tool.
Qed.

Lemma registry_ok_loadTool_from n filePath s :
  toolName filePath = n → registry_ok (tools s) →
  registry_ok (tools (loadTool_from n filePath s).2).
Proof.
  intros Hname [Hpm Hc]. unfold loadTool_from.
  destruct (load_outcome (world s) filePath) as [tool|e] eqn:Hout; [|done].
  split; simpl.
  - by apply indexed_index_path.
  - apply load_outcome_name in Hout. rewrite <-Hname, <-Hout. by apply named_set.
Qed.

Lemma registry_ok_loadTool n s : registry_ok (tools s) → registry_ok (tools (loadTool n s).2).
Proof.
  intros Hok. rewrite loadTool_run.
  destruct (cached n (tools s)); [done|].
  destruct (truthy_path (JsMap.get n (toolPathMap (tools s)))) as [filePath|] eqn:Hpm.
  { apply truthy_path_Some in Hpm as [Hget Hne].
    apply registry_ok_loadTool_from; [|done]. by apply Hok. }
  destruct (truthy_path (find _ _)) as [filePath|] eqn:Hfind; [|done].
  apply truthy_path_Some in Hfind as [Hfind _]. apply find_toolName in Hfind.
  apply registry_ok_loadTool_from; [done|].
  destruct Hok as [Hpm' Hc]. split; [|done].
  intros k p. simpl. rewrite get_set. case_decide; [congruence | apply Hpm'].
Qed.

(** [onFileChange(event, filename)] run to its end, case by case. *)
Lemma onFileChange_run event filename s :
  onFileChange event filename s
  = if globPattern (tools s) filename then
      let t' := with_cacheValid false (tools s) in
      let w' := with_log (log (world s)
                          ++ [Log INFO "File changed"
                                [("event", event); ("filename", filename)]])
                         (world s) in
      match onChangeCallback (tools s) with
      | Some callback =>
          match callback w' with
          | (None, w'') => (Ok (), {| tools := t'; world := w'' |})
          | (Some e, w'') => (Throw e, {| tools := t'; world := w'' |})
          end
      | None => (Ok (), {| tools := t'; world := w' |})
      end
    else (Ok (), s).
Proof.
  unfold onFileChange, get_tools, logger, modify_world, modify_tools, call.
  rewrite bind_run. simpl.
  destruct (globPattern (tools s) filename); simpl; [|done].
  rewrite !bind_run. simpl.
  by destruct (onChangeCallback (tools s)) as [callback|].
Qed.

Lemma onFileChange_tools event filename s :
  toolCache (tools (onFileChange event filename s).2) = toolCache (tools s) ∧
  toolPathMap (tools (onFileChange event filename s).2) = toolPathMap (tools s) ∧
  watcher (tools (onFileChange event filename s).2) = watcher (tools s).
Proof.
  rewrite onFileChange_run.
  destruct (globPattern (tools s) filename); simpl; [|done].
  destruct (onChangeCallback (tools s)) as [callback|]; [|done].
  match goal with |- context [callback ?w] => by destruct (callback w) as [[e|] w'] end.
Qed.

Lemma registry_ok_onFileChange event filename s :
  registry_ok (tools s) → registry_ok (tools (onFileChange event filename s).2).
Proof.
  intros [Hpm Hc]. destruct (onFileChange_tools event filename s) as (Hc' & Hpm' & _).
  split; unfold indexed, named; [rewrite Hpm' | rewrite Hc']; done.
Qed.

(** The sample registry after an event: [hello] is loaded again, [raw]
    stays as cached and the flag stays cleared. *)
Lemma loadTool_frame_witness :
  registry_ok (tools Sample.invalidated) ∧
  loadTool "hello" Sample.invalidated
  = (Ok (tool_of Sample.hello_ts Sample.hello_exports),
     (loadTool "hello" Sample.invalidated).2) ∧
  cacheValid (tools (loadTool "hello" Sample.invalidated).2) = false ∧
  JsMap.get "raw" (toolCache (tools (loadTool "hello" Sample.invalidated).2))
  = JsMap.get "raw" (toolCache (tools Sample.invalidated)).
Proof.
  assert (registry_ok (tools Sample.invalidated)) as Hok.
  { apply registry_ok_onFileChange, registry_ok_loadTools, registry_ok_new. }
  assert (loadTool "hello" Sample.invalidated
          = (Ok (tool_of Sample.hello_ts Sample.hello_exports),
             (loadTool "hello" Sample.invalidated).2)) as Hrun
    by (vm_compute; reflexivity).
  destruct (loadTool_frame _ _ _ _ Hok Hrun) as (_ & Hcache & _ & _ & Hlater).
  split_and!; [exact Hok | exact Hrun | |].
  - apply (Hlater eq_refl []).
  - apply Hcache. discriminate.
Defined.

(** ** The change callback *)

(** C7, as the claim words it, fails: a subscriber that throws makes
    [onFileChange] throw, the listener of the watcher with it, and nothing
    is added to the log after the entry of the change. *)
Lemma subscriber_failure_propagates :
  globPattern (tools Sample.watched_failing) "hello.ts" = true ∧
  (onFileChange "change" "hello.ts" Sample.watched_failing).1
  = Throw (Error "sendToolListChanged failed") ∧
  (deliver "change" (Some "hello.ts") Sample.watched_failing).1
  = Throw (Error "sendToolListChanged failed") ∧
  log (world (onFileChange "change" "hello.ts" Sample.watched_failing).2)
  = log (world Sample.watched_failing)
    ++ [Log INFO "File changed" [("event", "change"); ("filename", "hello.ts")]].
Proof. split_and!; vm_compute; reflexivity. Qed.

(** C7 (amended).  For every filesystem event that passes the glob filter,
    the registered subscriber is called once, without being awaited, after
    the valid flag is cleared and the change is logged.  When the
    subscriber returns, [onFileChange] returns; when it throws,
    [onFileChange] throws the same error to the listener of the watcher,
    and the registry reports nothing: the world is as the subscriber left
    it. *)
Theorem onFileChange_calls_subscriber event filename s callback :
  globPattern (tools s) filename = true →
  onChangeCallback (tools s) = Some callback →
  ∃ s',
    onFileChange event filename s
    = (match (callback
                (with_log (log (world s)
                           ++ [Log INFO "File changed"
                                 [("event", event); ("filename", filename)]])
                          (world s))).1 with
       | None => Ok ()
       | Some e => Throw e
       end, s') ∧
    world s'
    = (callback
         (with_log (log (world s)
                    ++ [Log INFO "File changed"
                          [("event", event); ("filename", filename)]])
                   (world s))).2 ∧
    tools s' = with_cacheValid false (tools s) ∧
    (filename ≠ "" →
     watch_listener event (Some filename) s = onFileChange event filename s).
Proof.
  intros Hglob Hcb.
  assert (filename ≠ "" →
          watch_listener event (Some filename) s = onFileChange event filename s)
    as Hlistener.
  { intros Hne. unfold watch_listener. by rewrite decide_False. }
  revert Hlistener. rewrite onFileChange_run, Hglob, Hcb. simpl. intros Hlistener.
  match goal with |- context [callback ?w] => destruct (callback w) as [[e|] w'] end.
  - eexists. by split_and!.
  - eexists. by split_and!.
Qed.

(** The sample registry with the subscriber that logs. *)
Lemma onFileChange_calls_subscriber_witness :
  globPattern (tools Sample.watched) "hello.ts" = true ∧
  onChangeCallback (tools Sample.watched) = Some Sample.logging_subscriber ∧
  ∃ s', onFileChange "change" "hello.ts" Sample.watched = (Ok (), s')
        ∧ cacheValid (tools s') = false.
Proof.
  assert (globPattern (tools Sample.watched) "hello.ts" = true) as Hglob
    by (vm_compute; reflexivity).
  assert (onChangeCallback (tools Sample.watched) = Some Sample.logging_subscriber)
    as Hcb by (vm_compute; reflexivity).
  split_and!; [exact Hglob | exact Hcb |].
  destruct (onFileChange_calls_subscriber "change" "hello.ts" _ _ Hglob Hcb)
    as (s' & Hrun & _ & Ht & _).
  exists s'. split; [exact Hrun | by rewrite Ht].
Defined.

(** ** The watcher *)

(** [stopWatching()] run to its end. *)
Lemma stopWatching_run s :
  stopWatching s
  = match watcher (tools s) with
    | Some h =>
        (Ok (),
         {| tools := with_watcher None (tools s);
            world := with_log (log (world s) ++ [Log INFO "Stopped watching for changes" []])
                       (with_watchers (filter (λ h', h' ≠ h) (open_watchers (world s)))
                                      (watches (world s)) (world s)) |})
    | None => (Ok (), s)
    end.
Proof.
  unfold stopWatching, get_tools. rewrite bind_run. simpl.
  by destruct (watcher (tools s)).
Qed.

(** A second [stopWatching()] does nothing. *)
Lemma stopWatching_idempotent s :
  (stopWatching;; stopWatching) s = stopWatching s.
Proof.
  rewrite bind_run, (stopWatching_run s).
  destruct (watcher (tools s)) as [h|] eqn:Hw.
  - by rewrite stopWatching_run.
  - by rewrite stopWatching_run, Hw.
Qed.

(** After [stopWatching()] the registry holds no handle, and the handle it
    held is closed. *)
Lemma stopWatching_closes s :
  watcher (tools (stopWatching s).2) = None ∧
  ∀ h, watcher (tools s) = Some h → h ∉ open_watchers (world (stopWatching s).2).
Proof.
  rewrite stopWatching_run.
  destruct (watcher (tools s)) as [h|] eqn:Hw; simpl.
  - split; [done|]. intros h' [= <-]. rewrite list_elem_of_filter. by intros [? _].
  - by split.
Qed.

(** With no handle open, nothing is delivered. *)
Lemma deliver_unwatched event filename s :
  open_watchers (world s) = [] → deliver event filename s = (Ok (), s).
Proof.
  intros Hnone. unfold deliver. by rewrite Hnone.
Qed.

(** C8: [startWatching()] is not idempotent.  Called once it leaves one
    open handle; called twice it leaves two, of which the registry holds
    the second; one event then runs [onFileChange] twice.  After
    [stopWatching()] the first handle is still open and the registry holds
    none: an event still runs [onFileChange], which clears the valid
    flag.  With one [startWatching()] the same [stopWatching()] leaves no
    handle and the event changes nothing. *)
Theorem startWatching_twice_leaks :
  open_watchers (world Sample.watched) = [0%nat] ∧
  open_watchers (world Sample.watched_twice) = [0%nat; 1%nat] ∧
  watcher (tools Sample.watched_twice) = Some 1%nat ∧
  length (Sample.changes
            (log (world (deliver "change" (Some "hello.ts") Sample.watched).2)))
  = 1%nat ∧
  length (Sample.changes
            (log (world (deliver "change" (Some "hello.ts") Sample.watched_twice).2)))
  = 2%nat ∧
  open_watchers (world (stopWatching Sample.watched_twice).2) = [0%nat] ∧
  watcher (tools (stopWatching Sample.watched_twice).2) = None ∧
  cacheValid (tools (stopWatching Sample.watched_twice).2) = true ∧
  cacheValid
    (tools ((stopWatching;; deliver "change" (Some "hello.ts")) Sample.watched_twice).2)
  = false ∧
  length (Sample.changes
            (log (world ((stopWatching;; deliver "change" (Some "hello.ts"))
                           Sample.watched_twice).2)))
  = 1%nat ∧
  open_watchers (world (stopWatching Sample.watched).2) = [] ∧
  cacheValid
    (tools ((stopWatching;; deliver "change" (Some "hello.ts")) Sample.watched).2)
  = true.
Proof. split_and!; vm_compute; reflexivity. Qed.

(** ** The dynamic import *)

(** A specifier the runtime has not seen gives what is on disk now. *)
Lemma dynamicImport_fresh filePath s :
  lacks "?" filePath →
  JsMap.get (specifier filePath (now (world s))) (registry (world s)) = None →
  (dynamicImport filePath s).1
  = match assoc filePath (disk (world s)) with
    | Some (Evaluates exports) => Ok exports
    | Some (Raises e) => Throw e
    | None => Throw (enoent filePath)
    end.
Proof.
  intros Hpath Hfresh. rewrite dynamicImport_run. simpl. unfold evaluate.
  rewrite Hfresh, specifier_path_specifier by done.
  by destruct (assoc filePath (disk (world s))) as [[exports|e]|].
Qed.

(** Two loads of one path at two times use two specifiers. *)
Lemma specifier_fresh filePath t1 t2 :
  t1 ≠ t2 → specifier filePath t1 ≠ specifier filePath t2.
Proof. intros Hne Heq. by apply Hne, (specifier_inj_time filePath). Qed.

(** C6: the import key is not fresh within one millisecond.  [hello.ts] is
    imported, edited, and imported again before [Date.now()] moves: both
    imports use one specifier, and the second gives the exports of before
    the edit, not those on disk; [loadToolFromFile] builds its tool from
    them.  Once the clock has moved, the import gives the exports on
    disk. *)
Theorem same_millisecond_import_is_stale :
  (dynamicImport Sample.hello_ts Sample.hello_only).1 = Ok Sample.hello_exports ∧
  now (world (Sample.hello_edited (dynamicImport Sample.hello_ts Sample.hello_only).2))
  = now (world Sample.hello_only) ∧
  assoc Sample.hello_ts
    (disk (world (Sample.hello_edited
                    (dynamicImport Sample.hello_ts Sample.hello_only).2)))
  = Some (Evaluates Sample.hello_shouting) ∧
  imports (world (dynamicImport Sample.hello_ts
                    (Sample.hello_edited
                       (dynamicImport Sample.hello_ts Sample.hello_only).2)).2)
  = ["/work/tools/hello.ts?t=1700000000000"; "/work/tools/hello.ts?t=1700000000000"] ∧
  (dynamicImport Sample.hello_ts
     (Sample.hello_edited (dynamicImport Sample.hello_ts Sample.hello_only).2)).1
  = Ok Sample.hello_exports ∧
  Sample.hello_exports ≠ Sample.hello_shouting ∧
  (loadToolFromFile Sample.hello_ts
     (Sample.hello_edited (loadToolFromFile Sample.hello_ts Sample.hello_only).2)).1
  = Ok (tool_of Sample.hello_ts Sample.hello_exports) ∧
  (dynamicImport Sample.hello_ts
     (advance 1 (Sample.hello_edited
                   (dynamicImport Sample.hello_ts Sample.hello_only).2))).1
  = Ok Sample.hello_shouting.
Proof.
  split_and!; try (vm_compute; reflexivity).
  intros Heq.
  assert (Sample.hello_exports !! "description" = Sample.hello_shouting !! "description")
    as Hd by by rewrite Heq.
  vm_compute in Hd. discriminate.
Qed.

(** A failed evaluation is kept under its specifier too: [null.ts]
    throws when it is imported, is repaired, and is imported again before
    the clock moves; the import throws as before.  Once the clock has
    moved it gives the exports on disk. *)
Lemma failed_import_is_kept :
  let s1 := (dynamicImport Sample.null_ts Sample.throws_error).2 in
  let s2 := {| tools := tools s1;
               world := with_disk [(Sample.null_ts, Evaluates Sample.hello_exports)]
                                  (world s1) |} in
  (dynamicImport Sample.null_ts Sample.throws_error).1 = Throw (Error "boom") ∧
  (dynamicImport Sample.null_ts s2).1 = Throw (Error "boom") ∧
  (dynamicImport Sample.null_ts (advance 1 s2)).1 = Ok Sample.hello_exports.
Proof. cbv zeta. split_and!; vm_compute; reflexivity. Qed.

(** A path that holds a question mark is cut there by the import: the
    file of that path is not the one that is read, its load fails, and
    [loadTools()] leaves it out. *)
Lemma question_mark_path_is_cut :
  let s := Sample.state0 [("/work/tools/what?.ts", Evaluates Sample.hello_exports)] in
  specifier_path (specifier "/work/tools/what?.ts" (now (world s))) = "/work/tools/what" ∧
  (loadToolFromFile "/work/tools/what?.ts" s).1 = Throw (enoent "/work/tools/what") ∧
  (loadTools s).1 = Ok [].
Proof. cbv zeta. split_and!; vm_compute; reflexivity. Qed.

(** ** A scan in flight when an event arrives *)

(** An event that passes the filter clears the flag: delivered while no
    call is in flight, it makes the next [loadTools()] scan. *)
Lemma onFileChange_invalidates event filename s :
  globPattern (tools s) filename = true →
  cache_hit (tools (onFileChange event filename s).2) = false.
Proof.
  intros Hglob. rewrite onFileChange_run, Hglob. simpl.
  destruct (onChangeCallback (tools s)) as [callback|]; [|done].
  match goal with |- context [callback ?w] => by destruct (callback w) as [[e|] w'] end.
Qed.

(** C1: a scan that is in flight when an event arrives publishes what it
    read before the event.  In the schedule [Sample.race] the event is
    delivered (and logged) between the two imports of one call; the call
    then returns the tools of before the edit, caches them, and sets the
    valid flag.  The disk gives other tools.  The next [loadTools()]
    answers from the cache, without a scan, with the tools of before the
    edit.  With the edit after the return, the flag ends cleared. *)
Theorem inflight_scan_overwrites_invalidation :
  ∃ sys sys',
    Interleaving.exec Sample.race (Interleaving.boot Sample.two_files) = Some sys ∧
    length (Sample.changes (log (world (Interleaving.state sys)))) = 1%nat ∧
    Interleaving.task sys = Some (Interleaving.Returned Sample.before_edit) ∧
    cacheValid (tools (Interleaving.state sys)) = true ∧
    JsMap.values (toolCache (tools (Interleaving.state sys))) = Sample.before_edit ∧
    found_on (world (Interleaving.state sys)) = Sample.after_edit ∧
    Sample.before_edit ≠ Sample.after_edit ∧
    Interleaving.step Interleaving.CallLoadTools sys = Some sys' ∧
    Interleaving.task sys' = Some (Interleaving.Returned Sample.before_edit) ∧
    scans (world (Interleaving.state sys')) = scans (world (Interleaving.state sys)) ∧
    (cacheValid ∘ tools ∘ Interleaving.state)
      <$> Interleaving.exec Sample.no_race (Interleaving.boot Sample.two_files)
    = Some false.
Proof.
  eexists _, _. split_and!; try (vm_compute; reflexivity).
  intros Heq. vm_compute in Heq. discriminate.
Qed.

(** ** A second call after a scan *)

Lemma set_fresh {V} k (v : V) m : JsMap.get k m = None → JsMap.set k v m = m ++ [(k, v)].
Proof.
  induction m as [|[k' v'] m IH]; simpl; [done|].
  destruct (decide (k' = k)); [done|]. intros Hget. by rewrite IH.
Qed.

Lemma get_snoc_ne {V} k k' (v : V) m :
  k ≠ k' → JsMap.get k' (m ++ [(k, v)]) = JsMap.get k' m.
Proof.
  intros Hne. induction m as [|[k0 v0] m IH]; simpl.
  - by rewrite decide_False.
  - by destruct (decide (k0 = k')).
Qed.

(** Tools of distinct names are cached in the order they come. *)
Lemma cache_all_fresh found c :
  NoDup (name <$> found) →
  (∀ tool, tool ∈ found → JsMap.get (name tool) c = None) →
  cache_all found c = c ++ ((λ tool, (name tool, tool)) <$> found).
Proof.
  revert c. induction found as [|tool found IH]; intros c Hnd Hfresh; simpl.
  - by rewrite app_nil_r.
  - csimpl in Hnd. apply NoDup_cons in Hnd as [Hnin Hnd].
    rewrite set_fresh by (apply Hfresh; left).
    rewrite IH; [by rewrite <-app_assoc | done |].
    intros tool' Hin. rewrite get_snoc_ne; [apply Hfresh; by right|].
    intros Heq. apply Hnin. rewrite Heq. by apply list_elem_of_fmap_2.
Qed.

Lemma cache_all_values found :
  NoDup (name <$> found) → JsMap.values (cache_all found JsMap.empty) = found.
Proof.
  intros Hnd. rewrite cache_all_fresh by done. simpl.
  unfold JsMap.values. rewrite <-list_fmap_compose. apply list_fmap_id.
Qed.

(** After a scan that found tools of distinct names, the cache holds
    them in the order they were found. *)
Lemma after_rescan_values s :
  NoDup (name <$> found_on (world s)) →
  JsMap.values (toolCache (tools (after_rescan s))) = found_on (world s).
Proof.
  intros Hnd. destruct (after_rescan_frame s) as (-> & _). by apply cache_all_values.
Qed.

Lemma after_rescan_hit s :
  found_on (world s) ≠ [] → cache_hit (tools (after_rescan s)) = true.
Proof.
  intros Hne. destruct (after_rescan_frame s) as (Hcache & Hvalid & _).
  apply cache_hit_true. split; [done|]. rewrite Hcache. by apply cache_all_size_pos.
Qed.








(** ** The scheduler with nothing interleaved *)

Lemma settled_pending slots p rest :
  Interleaving.settled (slots ++ Interleaving.pending_slot p :: rest) = None.
Proof.
  apply mapM_None_2, Exists_app. right. by left.
Qed.

Lemma settled_done slots results :
  Forall2 (λ slot r, Interleaving.slot_result slot = Some (Ok r)) slots results →
  Interleaving.settled slots = Some (Ok <$> results).
Proof. intros Hdone. by apply mapM_Some_2, Forall2_fmap_r. Qed.

Lemma Promise_all_Ok {A} (results : list A) : Promise_all (Ok <$> results) = Ok results.
Proof. induction results as [|r results IH]; [done|]. cbn. by rewrite IH. Qed.

(** With every promise fulfilled the call runs to its end. *)
Lemma join_imports_done slots results s :
  Forall2 (λ slot r, Interleaving.slot_result slot = Some (Ok r)) slots results →
  Interleaving.join_imports slots s
  = Some ((loadTools_finish results s).2, Interleaving.Returned (omap id results)).
Proof.
  intros Hdone. unfold Interleaving.join_imports.
  rewrite (settled_done _ _ Hdone), bind_run. unfold await.
  by rewrite Promise_all_Ok.
Qed.

Lemma exec_cons a schedule sys :
  Interleaving.exec (a :: schedule) sys
  = Interleaving.step a sys ≫= Interleaving.exec schedule.
Proof. reflexivity. Qed.

Lemma bind_Some {A B} (x : A) (f : A → option B) : Some x ≫= f = f x.
Proof. reflexivity. Qed.

Lemma promised_fulfilled (outcome : Result ToolDefinition) :
  (∀ e, outcome = Throw e → unreadable e = false) →
  promised outcome = Ok (fulfilled outcome).
Proof.
  destruct outcome as [tool|e]; [done|]. intros Hrep. cbn. by rewrite (Hrep e).
Qed.

(** The import of the first pending slot settles, with a failure the
    handler can report. *)
Lemma step_import_settles slots p rest s unc :
  (∀ e, outcome_of (world s) p.1 p.2 = Throw e → unreadable e = false) →
  Interleaving.step (Interleaving.ImportSettles (length slots))
    {| Interleaving.state := s;
       Interleaving.task :=
         Some (Interleaving.AwaitImports (slots ++ Interleaving.pending_slot p :: rest));
       Interleaving.uncaught := unc |}
  = Interleaving.join_imports
      (slots ++ Interleaving.settle_slot (Interleaving.pending_slot p)
                  (Ok (fulfilled (outcome_of (world s) p.1 p.2))) :: rest)
      (after_settle s p.1 p.2)
    ≫= λ '(s', t), Some {| Interleaving.state := s';
                            Interleaving.task := Some t;
                            Interleaving.uncaught := unc |}.
Proof.
  intros Hrep. unfold Interleaving.step. cbn [Interleaving.task Interleaving.state].
  rewrite list_lookup_middle by done. rewrite bind_Some.
  cbn [Interleaving.pending_slot Interleaving.slot_result Interleaving.slot_file
       Interleaving.slot_spec].
  rewrite toolPromise_settle_run, promised_fulfilled by done.
  by rewrite insert_app_r_alt, Nat.sub_diag by done.
Qed.

(** From a call that awaits its imports, the first of them settled: the
    others settle in order and the call returns, when every failure can
    be reported. *)
Lemma exec_imports_in_order rest : ∀ slots results s unc,
  Forall2 (λ slot r, Interleaving.slot_result slot = Some (Ok r)) slots results →
  Forall (λ p, ∀ e, outcome_of (world s) p.1 p.2 = Throw e → unreadable e = false) rest →
  rest ≠ [] →
  Interleaving.exec (Interleaving.ImportSettles <$> seq (length slots) (length rest))
    {| Interleaving.state := s;
       Interleaving.task :=
         Some (Interleaving.AwaitImports (slots ++ (Interleaving.pending_slot <$> rest)));
       Interleaving.uncaught := unc |}
  = Some
      {| Interleaving.state :=
           (loadTools_finish
              (results ++ ((λ p, fulfilled (outcome_of (world s) p.1 p.2)) <$> rest))
              (settle_all s rest)).2;
         Interleaving.task :=
           Some (Interleaving.Returned
                   (omap id (results
                             ++ ((λ p, fulfilled (outcome_of (world s) p.1 p.2))
                                 <$> rest))));
         Interleaving.uncaught := unc |}.
Proof.
  induction rest as [|p rest IH]; intros slots results s unc Hdone Hrep Hne; [done|].
  apply Forall_cons in Hrep as [Hp Hrep].
  change (length (p :: rest)) with (S (length rest)).
  change (seq (length slots) (S (length rest)))
    with (length slots :: seq (S (length slots)) (length rest)).
  rewrite !fmap_cons, exec_cons, step_import_settles by done.
  set (r := fulfilled (outcome_of (world s) p.1 p.2)).
  set (slot' := Interleaving.settle_slot (Interleaving.pending_slot p) (Ok r)).
  assert (Forall2 (λ slot r, Interleaving.slot_result slot = Some (Ok r))
            (slots ++ [slot']) (results ++ [r])) as Hdone'.
  { apply Forall2_app; [done|]. by repeat constructor. }
  assert (settle_all s (p :: rest) = settle_all (after_settle s p.1 p.2) rest) as ->.
  { by destruct p. }
  assert (∀ p', outcome_of (world (after_settle s p.1 p.2)) p'.1 p'.2
                = outcome_of (world s) p'.1 p'.2) as Hsame.
  { intros p'. apply (outcome_of_same s _ p'.1 p'.2 (after_settle_same s p.1 p.2)). }
  destruct rest as [|q rest].
  - by rewrite fmap_nil, (join_imports_done _ _ _ Hdone').
  - unfold Interleaving.join_imports.
    rewrite fmap_cons, (cons_middle slot'), app_assoc, settled_pending, bind_Some.
    replace (S (length slots)) with (length (slots ++ [slot']))
      by (rewrite length_app; simpl; lia).
    rewrite <-(fmap_cons Interleaving.pending_slot), bind_Some.
    rewrite (IH _ _ _ _ Hdone'); [|by eapply Forall_impl; [exact Hrep|];
                                      intros p' Hp' e; rewrite Hsame; apply Hp' | done].
    rewrite <-!app_assoc.
    assert (((λ p0, fulfilled (outcome_of (world (after_settle s p.1 p.2)) p0.1 p0.2))
             <$> q :: rest)
            = ((λ p0, fulfilled (outcome_of (world s) p0.1 p0.2)) <$> q :: rest))
      as ->; [|done].
    apply list_fmap_ext. intros _ p' _. by rewrite Hsame.
Qed.

Lemma step_call_miss s :
  cache_hit (tools s) = false →
  Interleaving.step Interleaving.CallLoadTools (Interleaving.boot s)
  = Some {| Interleaving.state :=
              {| tools := tools s;
                 world := with_scans (S (scans (world s))) (world s) |};
            Interleaving.task := Some Interleaving.AwaitScan;
            Interleaving.uncaught := [] |}.
Proof.
  intros Hmiss. unfold Interleaving.step, Interleaving.boot.
  cbn [Interleaving.task Interleaving.in_flight Interleaving.state].
  by rewrite loadTools_enter_miss.
Qed.

Lemma step_scan_settles s unc :
  Interleaving.step Interleaving.ScanSettles
    {| Interleaving.state := s;
       Interleaving.task := Some Interleaving.AwaitScan;
       Interleaving.uncaught := unc |}
  = Interleaving.join_imports
      (Interleaving.pending_slot <$> issue (now (world s)) (disk (world s)).*1)
      (after_scan (disk (world s)).*1 s)
    ≫= λ '(s', t), Some {| Interleaving.state := s';
                            Interleaving.task := Some t;
                            Interleaving.uncaught := unc |}.
Proof.
  unfold Interleaving.step. cbn [Interleaving.task Interleaving.state].
  unfold scan_settle, get_world. rewrite !bind_run.
  cbn [mret M_ret]. by rewrite loadTools_scanned_run.
Qed.

(** A call that scans, run on the scheduler with nothing interleaved, ends
    in the state and with the result of [loadTools], when every failure
    can be reported. *)
Lemma exec_in_order s :
  cache_hit (tools s) = false →
  reportable (world s) →
  Interleaving.exec (Interleaving.in_order (length (disk (world s))))
                    (Interleaving.boot s)
  = Some {| Interleaving.state := (loadTools s).2;
            Interleaving.task := Some (Interleaving.Returned (found_on (world s)));
            Interleaving.uncaught := [] |}.
Proof.
  intros Hmiss Hreportable. rewrite loadTools_rescan_run by done.
  unfold Interleaving.in_order.
  rewrite exec_cons, step_call_miss, bind_Some by done.
  rewrite exec_cons, step_scan_settles.
  cbn [world tools now disk with_scans].
  pose proof (found_on_issue (world s) (world s) eq_refl eq_refl (λ _, eq_refl))
    as Hfound.
  unfold after_rescan. cbn [snd].
  set (s1 := {| tools := tools s; world := with_scans (S (scans (world s))) (world s) |}).
  assert (length (disk (world s))
          = length (issue (now (world s)) (disk (world s)).*1)) as Hlen.
  { unfold issue. by rewrite !length_fmap. }
  assert (Forall (λ p, ∀ e, outcome_of (world (after_scan (disk (world s)).*1 s1)) p.1 p.2
                            = Throw e → unreadable e = false)
                 (issue (now (world s)) (disk (world s)).*1)) as Hrep.
  { unfold issue. apply Forall_fmap, Forall_forall. intros f Hf e. cbn.
    apply (Hreportable f e Hf). }
  destruct (issue (now (world s)) (disk (world s)).*1) as [|p pending] eqn:Hissue.
  - rewrite Hlen. rewrite (join_imports_done _ [] _ (Forall2_nil_2 _ _ _)). cbn.
    by rewrite <-Hfound.
  - unfold Interleaving.join_imports.
    rewrite fmap_cons.
    pose proof (settled_pending [] p (Interleaving.pending_slot <$> pending)) as Hpend.
    cbn [app] in Hpend. rewrite Hpend, !bind_Some.
    rewrite Hlen, <-(fmap_cons Interleaving.pending_slot).
    pose proof (exec_imports_in_order (p :: pending) [] []
                  (after_scan (disk (world s)).*1 s1) [] (Forall2_nil_2 _ _ _) Hrep)
      as Hexec.
    cbn [length app] in Hexec. cbn [length]. rewrite Hexec by done.
    rewrite loadTools_finish_run. cbn [snd app].
    rewrite <-Hfound.
    assert (((λ p0, fulfilled
                      (outcome_of (world (after_scan (disk (world s)).*1 s1)) p0.1 p0.2))
             <$> p :: pending)
            = ((λ '(filePath, spec), fulfilled (outcome_of (world s) filePath spec))
               <$> p :: pending)) as ->; [|done].
    apply list_fmap_ext. by intros _ [f spec] _.
Qed.

(** * Further properties of the registry *)

(** ** Single loads: cache, path index, failure *)

Lemma after_import_frame filePath w :
  disk (after_import filePath w) = disk w ∧ now (after_import filePath w) = now w ∧
  log (after_import filePath w) = log w ∧ scans (after_import filePath w) = scans w ∧
  imports (after_import filePath w) = imports w ++ [specifier filePath (now w)] ∧
  open_watchers (after_import filePath w) = open_watchers w ∧
  watches (after_import filePath w) = watches w.
Proof.
  unfold after_import.
  destruct (remember_frame (specifier filePath (now w))
              (with_imports (imports w ++ [specifier filePath (now w)]) w))
    as (-> & -> & -> & -> & -> & -> & ->).
  done.
Qed.

Lemma loadTool_from_world n filePath s :
  world (loadTool_from n filePath s).2 = after_import filePath (world s).
Proof. unfold loadTool_from. by destruct (load_outcome (world s) filePath). Qed.

(** X1.  [loadTool(name)] on a valid cache that holds the name returns the
    cached tool and does nothing else: the registry's state, the scan
    count, the imports and the module registry are as before. *)
Theorem loadTool_cache_hit n s tool :
  cacheValid (tools s) = true →
  JsMap.get n (toolCache (tools s)) = Some tool →
  ∃ s', loadTool n s = (Ok tool, s') ∧
        tools s' = tools s ∧
        scans (world s') = scans (world s) ∧
        imports (world s') = imports (world s) ∧
        registry (world s') = registry (world s) ∧
        disk (world s') = disk (world s).
Proof.
  intros Hvalid Hget. rewrite loadTool_run.
  assert (cached n (tools s) = Some tool) as -> by by apply cached_Some.
  eexists. by split_and!.
Qed.

(** The cached [hello] of the three sample files. *)
Lemma loadTool_cache_hit_witness :
  cacheValid (tools (loadTools Sample.three_files).2) = true ∧
  JsMap.get "hello" (toolCache (tools (loadTools Sample.three_files).2))
  = Some (tool_of Sample.hello_ts Sample.hello_exports) ∧
  ∃ s', loadTool "hello" (loadTools Sample.three_files).2
        = (Ok (tool_of Sample.hello_ts Sample.hello_exports), s')
        ∧ scans (world s') = 1%nat.
Proof.
  assert (cacheValid (tools (loadTools Sample.three_files).2) = true) as Hv
    by (vm_compute; reflexivity).
  assert (JsMap.get "hello" (toolCache (tools (loadTools Sample.three_files).2))
          = Some (tool_of Sample.hello_ts Sample.hello_exports)) as Hget
    by (vm_compute; reflexivity).
  split_and!; [exact Hv | exact Hget |].
  destruct (loadTool_cache_hit _ _ _ Hv Hget) as (s' & Hrun & _ & Hscans & _).
  exists s'. split; [exact Hrun|]. rewrite Hscans. vm_compute. reflexivity.
Defined.

(** X2.  When the cache does not answer and the path index holds a path
    for the name, [loadTool(name)] does not scan: it issues one import, of
    that path, and returns or fails as the loader does on it.  So a path
    whose file is gone from the disk makes it fail as the import of a
    missing file does, and not with [Tool not found], even when another
    file of that name is on disk. *)
Theorem loadTool_trusts_path_index n s filePath :
  cached n (tools s) = None →
  JsMap.get n (toolPathMap (tools s)) = Some filePath →
  filePath ≠ "" →
  scans (world (loadTool n s).2) = scans (world s) ∧
  imports (world (loadTool n s).2)
  = imports (world s) ++ [specifier filePath (now (world s))] ∧
  (loadTool n s).1 = (loadToolFromFile filePath s).1 ∧
  (lacks "?" filePath →
   assoc filePath (disk (world s)) = None →
   JsMap.get (specifier filePath (now (world s))) (registry (world s)) = None →
   (loadTool n s).1 = Throw (enoent filePath) ∧
   (dynamicImport filePath s).1 = Throw (enoent filePath) ∧
   (loadTool n s).1 ≠ Throw (Error ("Tool not found: " +:+ n))).
Proof.
  intros Hcached Hget Hne. rewrite loadTool_run, Hcached.
  assert (truthy_path (JsMap.get n (toolPathMap (tools s))) = Some filePath) as ->
    by by apply truthy_path_Some.
  rewrite loadTool_from_world.
  destruct (after_import_frame filePath (world s)) as (_ & _ & _ & -> & -> & _).
  split_and!; try done.
  - rewrite loadToolFromFile_run. unfold loadTool_from.
    by destruct (load_outcome (world s) filePath).
  - intros Hpath Hgone Hfresh. rewrite dynamicImport_fresh, Hgone by done.
    unfold loadTool_from, load_outcome, outcome_of, evaluate.
    by rewrite Hfresh, specifier_path_specifier, Hgone.
Qed.

(** [hello.ts] was moved after it was indexed. *)
Lemma loadTool_trusts_path_index_witness :
  cached "hello" (tools Scenario.moved) = None ∧
  JsMap.get "hello" (toolPathMap (tools Scenario.moved)) = Some Sample.hello_ts ∧
  Sample.hello_ts ≠ "" ∧
  toolName Sample.other_hello_ts = "hello" ∧
  Sample.other_hello_ts ∈ (disk (world Scenario.moved)).*1 ∧
  (loadTool "hello" Scenario.moved).1 = Throw (enoent Sample.hello_ts) ∧
  scans (world (loadTool "hello" Scenario.moved).2) = scans (world Scenario.moved).
Proof.
  assert (cached "hello" (tools Scenario.moved) = None) as H1
    by (vm_compute; reflexivity).
  assert (JsMap.get "hello" (toolPathMap (tools Scenario.moved)) = Some Sample.hello_ts)
    as H2 by (vm_compute; reflexivity).
  assert (Sample.hello_ts ≠ "") as H3 by discriminate.
  destruct (loadTool_trusts_path_index _ _ _ H1 H2 H3) as (Hscans & _ & _ & Hgone).
  split_and!; [done | done | done | reflexivity | | | exact Hscans].
  - change (Sample.other_hello_ts
            ∈ [Sample.other_hello_ts; Sample.broken_ts; Sample.raw_ts]). left.
  - apply Hgone; [| vm_compute; reflexivity..].
    unfold Sample.hello_ts. cbn [lacks]. repeat split; done.
Defined.

(** A [loadTool_from] that fails leaves the registry as it was. *)
Lemma loadTool_from_failure n filePath s e s' :
  loadTool_from n filePath s = (Throw e, s') → tools s' = tools s.
Proof.
  unfold loadTool_from. destruct (load_outcome (world s) filePath); [done|].
  by intros [= _ <-].
Qed.

(** X3.  A [loadTool(name)] that fails changes neither the cache nor the
    valid flag; when it fails because no file bears the name it leaves the
    path index as it was too, and one scan was made. *)
Theorem loadTool_failure_keeps_cache n s e s' :
  loadTool n s = (Throw e, s') →
  toolCache (tools s') = toolCache (tools s) ∧
  cacheValid (tools s') = cacheValid (tools s) ∧
  (resolve n s = None →
   e = Error ("Tool not found: " +:+ n) ∧
   toolPathMap (tools s') = toolPathMap (tools s) ∧
   scans (world s') = S (scans (world s)) ∧
   imports (world s') = imports (world s)).
Proof.
  rewrite loadTool_run. unfold resolve.
  destruct (cached n (tools s)); [done|].
  destruct (truthy_path (JsMap.get n (toolPathMap (tools s)))) as [filePath|].
  { intros Hrun. apply loadTool_from_failure in Hrun. by rewrite Hrun. }
  destruct (truthy_path (find _ _)) as [filePath|].
  { intros Hrun. apply loadTool_from_failure in Hrun. by rewrite Hrun. }
  intros [= <- <-]. by split_and!.
Qed.

(** No file of the three is named [nope]. *)
Lemma loadTool_failure_keeps_cache_witness :
  loadTool "nope" Sample.invalidated
  = (Throw (Error "Tool not found: nope"), (loadTool "nope" Sample.invalidated).2) ∧
  toolCache (tools (loadTool "nope" Sample.invalidated).2)
  = toolCache (tools Sample.invalidated).
Proof.
  assert (loadTool "nope" Sample.invalidated
          = (Throw (Error "Tool not found: nope"), (loadTool "nope" Sample.invalidated).2))
    as Hrun by (vm_compute; reflexivity).
  split; [exact Hrun|].
  by destruct (loadTool_failure_keeps_cache _ _ _ _ Hrun) as (Hcache & _).
Defined.

(** X4.  Insert and lookup: after a [loadTool(name)] that succeeded on a
    registry whose maps stand under the right names, the cache holds the
    returned tool under the name and the path index holds a path of that
    name.  A second [loadTool(name)] then never scans, and with the valid
    flag set it returns the same tool without an import. *)
Theorem loadTool_then_loadTool n s tool s' :
  registry_ok (tools s) →
  cached n (tools s) = None →
  loadTool n s = (Ok tool, s') →
  JsMap.get n (toolCache (tools s')) = Some tool ∧
  (∃ filePath, JsMap.get n (toolPathMap (tools s')) = Some filePath
               ∧ filePath ≠ "" ∧ toolName filePath = n) ∧
  scans (world (loadTool n s').2) = scans (world s') ∧
  (cacheValid (tools s) = true →
   (loadTool n s').1 = Ok tool ∧
   imports (world (loadTool n s').2) = imports (world s')).
Proof.
  intros [Hindexed Hnamed] Hcached Hrun. rewrite loadTool_run, Hcached in Hrun.
  assert (∃ filePath s0,
            loadTool_from n filePath s0 = (Ok tool, s') ∧ filePath ≠ ""
            ∧ toolName filePath = n ∧ cacheValid (tools s0) = cacheValid (tools s))
    as (filePath & s0 & Hfrom & Hne & Hname & Hflag).
  { destruct (truthy_path (JsMap.get n (toolPathMap (tools s)))) as [filePath|] eqn:Hpm.
    { apply truthy_path_Some in Hpm as [Hget Hne].
      exists filePath, s. split_and!; try done. by apply Hindexed. }
    destruct (truthy_path (find _ _)) as [filePath|] eqn:Hfind; [|done].
    apply truthy_path_Some in Hfind as [Hfind Hne]. apply find_toolName in Hfind.
    eexists filePath, _. by split_and!. }
  destruct (loadTool_from_frame n filePath s0 tool s' Hname Hfrom)
    as (_ & _ & _ & Hc & Hp & Hv & _).
  assert (scans (world (loadTool n s').2) = scans (world s')) as Hscans.
  { rewrite loadTool_run. destruct (cached n (tools s')); [done|].
    assert (truthy_path (JsMap.get n (toolPathMap (tools s'))) = Some filePath) as ->
      by by apply truthy_path_Some.
    rewrite loadTool_from_world.
    by destruct (after_import_frame filePath (world s')) as (_ & _ & _ & -> & _). }
  split_and!; [done | by exists filePath | done |].
  intros Hvalid. rewrite loadTool_run.
  assert (cached n (tools s') = Some tool) as ->.
  { apply cached_Some. split; [congruence | done]. }
  done.
Qed.

(** [hello] is loaded alone from the three sample files. *)
Lemma loadTool_then_loadTool_witness :
  registry_ok (tools Sample.three_files) ∧
  cached "hello" (tools Sample.three_files) = None ∧
  loadTool "hello" Sample.three_files
  = (Ok (tool_of Sample.hello_ts Sample.hello_exports),
     (loadTool "hello" Sample.three_files).2) ∧
  JsMap.get "hello" (toolCache (tools (loadTool "hello" Sample.three_files).2))
  = Some (tool_of Sample.hello_ts Sample.hello_exports).
Proof.
  assert (registry_ok (tools Sample.three_files)) as Hok by apply registry_ok_new.
  assert (cached "hello" (tools Sample.three_files) = None) as Hc by reflexivity.
  assert (loadTool "hello" Sample.three_files
          = (Ok (tool_of Sample.hello_ts Sample.hello_exports),
             (loadTool "hello" Sample.three_files).2)) as Hrun
    by (vm_compute; reflexivity).
  split_and!; [done..|].
  by destruct (loadTool_then_loadTool _ _ _ _ Hok Hc Hrun) as (Hget & _).
Defined.

(** ** Batch loads: what the caches hold afterwards *)

Lemma settle_all_index pending : ∀ s n p,
  JsMap.get n (toolPathMap (tools (settle_all s pending))) = Some p →
  JsMap.get n (toolPathMap (tools s)) = Some p ∨
  (toolName p = n ∧ ∃ spec tool, (p, spec) ∈ pending
                                 ∧ outcome_of (world s) p spec = Ok tool).
Proof.
  induction pending as [|[f spec] pending IH]; intros s n p Hget; [by left|].
  simpl in Hget. apply IH in Hget as [Hget|(Hname & spec' & tool & Hin & Hout)].
  - unfold after_settle in Hget.
    destruct (outcome_of (world s) f spec) as [tool|e] eqn:Hout; [|by left].
    simpl in Hget. rewrite get_set in Hget. case_decide as Hn; [|by left].
    injection Hget as <-. right. split; [done|]. exists spec, tool.
    split; [left | done].
  - right. split; [done|]. exists spec', tool. split; [by right|].
    by rewrite <-(outcome_of_same s _ p spec' (after_settle_same s f spec)).
Qed.

Lemma cache_all_get_found n found tool :
  JsMap.get n (cache_all found JsMap.empty) = Some tool → tool ∈ found ∧ name tool = n.
Proof.
  rewrite cache_all_get.
  destruct (last (filter (λ t, name t = n) found)) as [t|] eqn:Hlast; [|done].
  intros [= <-]. apply last_Some_elem_of in Hlast.
  by apply list_elem_of_filter in Hlast as [? ?].
Qed.

Lemma cache_all_has_found found tool c :
  tool ∈ found → is_Some (JsMap.get (name tool) (cache_all found c)).
Proof.
  intros Hin. rewrite cache_all_get.
  destruct (last (filter (λ t, name t = name tool) found)) as [t|] eqn:Hlast; [done|].
  apply last_None in Hlast.
  by destruct (filter_nil_not_elem_of (λ t, name t = name tool) found tool).
Qed.

(** X5.  A [loadTools()] that scans replaces both maps, whatever they held:
    afterwards the cache holds, under the names of the tools that load
    and no other, tools that load (all of them when the call returned,
    none when it rejected); and every path of the index is a scanned file
    of that name that loaded. *)
Theorem loadTools_replaces_maps s :
  cache_hit (tools s) = false →
  (∀ n tool, JsMap.get n (toolCache (tools (loadTools s).2)) = Some tool →
             tool ∈ found_on (world s) ∧ name tool = n) ∧
  (∀ found, (loadTools s).1 = Ok found →
            found = found_on (world s) ∧
            ∀ tool, tool ∈ found_on (world s) →
                    is_Some (JsMap.get (name tool) (toolCache (tools (loadTools s).2)))) ∧
  (reportable (world s) → (loadTools s).1 = Ok (found_on (world s))) ∧
  (∀ e, (loadTools s).1 = Throw e →
        toolCache (tools (loadTools s).2) = JsMap.empty ∧
        cacheValid (tools (loadTools s).2) = cacheValid (tools s)) ∧
  (∀ n p, JsMap.get n (toolPathMap (tools (loadTools s).2)) = Some p →
          p ∈ (disk (world s)).*1 ∧ toolName p = n
          ∧ ∃ tool, (loadToolFromFile p s).1 = Ok tool).
Proof.
  intros Hmiss.
  destruct (after_rescan_frame s) as (Hcache & _).
  destruct (all_settled_frame s) as (Hnone & Hflag & _).
  split_and!.
  - intros n tool. rewrite loadTools_miss_run by done.
    destruct (all_promised (world s)); cbn [snd].
    + rewrite Hcache. apply cache_all_get_found.
    + by rewrite Hnone.
  - intros found. rewrite loadTools_miss_run by done.
    destruct (all_promised (world s)); cbn [fst snd]; [|done].
    intros [= <-]. split; [done|].
    intros tool Hin. rewrite Hcache. by apply cache_all_has_found.
  - intros Hrep. by rewrite loadTools_rescan_run.
  - intros e. rewrite loadTools_miss_run by done.
    by destruct (all_promised (world s)).
  - intros n p Hget.
    destruct (loadTools_miss_world s Hmiss) as [_ Hpm]. rewrite Hpm in Hget.
    unfold all_settled in Hget. simpl in Hget.
    apply settle_all_index in Hget as [Hget|(Hname & spec & tool & Hin & Hout)];
      [done|].
    unfold issue in Hin. apply list_elem_of_fmap in Hin as (f & [= -> ->] & Hf).
    split_and!; [done..|]. exists tool. by rewrite loadToolFromFile_run.
Qed.

(** The registry after the event still holds [hello]; a scan keeps it as
    long as the file loads. *)
Lemma loadTools_replaces_maps_witness :
  cache_hit (tools Sample.invalidated) = false ∧
  ∀ n p, JsMap.get n (toolPathMap (tools (loadTools Sample.invalidated).2)) = Some p →
         p ∈ (disk (world Sample.invalidated)).*1.
Proof.
  assert (cache_hit (tools Sample.invalidated) = false) as Hmiss
    by (vm_compute; reflexivity).
  split; [exact Hmiss|]. intros n p Hget.
  destruct (loadTools_replaces_maps _ Hmiss) as (_ & _ & _ & _ & Hindex).
  by destruct (Hindex n p Hget) as (Hin & _).
Defined.

(** X6.  When no file loads, and none fails with [null] or [undefined],
    [loadTools()] returns the empty list and sets the valid flag, and yet
    the next [loadTools()] scans again and returns the empty list again:
    the cache is empty, and an empty cache never answers. *)
Theorem loadTools_empty_rescans s :
  cache_hit (tools s) = false →
  reportable (world s) →
  found_on (world s) = [] →
  (loadTools s).1 = Ok [] ∧
  cacheValid (tools (loadTools s).2) = true ∧
  cache_hit (tools (loadTools s).2) = false ∧
  (loadTools (loadTools s).2).1 = Ok [] ∧
  scans (world (loadTools (loadTools s).2).2) = S (S (scans (world s))).
Proof.
  intros Hmiss Hrep Hnone. rewrite loadTools_rescan_run by done. cbn [fst snd].
  destruct (after_rescan_frame s) as (Hcache & Hvalid & Hscans & Hd & Hn & _ & _ & _ & _ & Hev).
  assert (cache_hit (tools (after_rescan s)) = false) as Hmiss'.
  { unfold cache_hit. by rewrite Hcache, Hnone, Hvalid. }
  assert (reportable (world (after_rescan s))) as Hrep'
    by by apply (reportable_ext (world s)).
  assert (found_on (world (after_rescan s)) = found_on (world s)) as Hsame.
  { unfold found_on, load_outcome, outcome_of. rewrite Hd, Hn.
    apply list_omap_ext, Forall2_same_length_lookup_2; [done|].
    intros i f f' Hf Hf'. assert (f' = f) as -> by congruence. by rewrite Hev. }
  split_and!; [by rewrite Hnone | done | done | |].
  - rewrite loadTools_rescan_run by done. cbn [fst]. by rewrite Hsame, Hnone.
  - rewrite loadTools_rescan_run by done. cbn [snd].
    destruct (after_rescan_frame (after_rescan s)) as (_ & _ & -> & _).
    by rewrite Hscans.
Qed.

(** A folder with [broken.ts] and [blank.ts] only. *)
Lemma loadTools_empty_rescans_witness :
  cache_hit (tools Scenario.nothing_loads) = false ∧
  reportable (world Scenario.nothing_loads) ∧
  found_on (world Scenario.nothing_loads) = [] ∧
  scans (world (loadTools (loadTools Scenario.nothing_loads).2).2) = 2%nat.
Proof.
  assert (cache_hit (tools Scenario.nothing_loads) = false) as Hmiss by reflexivity.
  assert (reportable (world Scenario.nothing_loads)) as Hrep
    by (apply reportableb_true; vm_compute; reflexivity).
  assert (found_on (world Scenario.nothing_loads) = []) as Hnone
    by (vm_compute; reflexivity).
  split_and!; [done..|].
  by destruct (loadTools_empty_rescans _ Hmiss Hrep Hnone) as (_ & _ & _ & _ & ->).
Defined.

(** X7.  After a [loadTools()] that scanned a folder where no file fails
    with [null] or [undefined], [loadTool(name)] for the name of a tool it
    returned answers from the cache, with the last tool of that name in
    the returned list, and makes neither a scan nor an import. *)
Theorem loadTools_then_loadTool s n tool :
  cache_hit (tools s) = false →
  reportable (world s) →
  last (filter (λ t, name t = n) (found_on (world s))) = Some tool →
  ∃ s', (loadTools s).1 = Ok (found_on (world s)) ∧
        loadTool n (loadTools s).2 = (Ok tool, s') ∧
        tools s' = tools (loadTools s).2 ∧
        scans (world s') = scans (world (loadTools s).2) ∧
        imports (world s') = imports (world (loadTools s).2).
Proof.
  intros Hmiss Hrep Hlast. rewrite loadTools_rescan_run by done. cbn [fst snd].
  destruct (after_rescan_frame s) as (Hcache & Hvalid & _).
  rewrite loadTool_run.
  assert (cached n (tools (after_rescan s)) = Some tool) as ->.
  { apply cached_Some. split; [done|]. by rewrite Hcache, cache_all_get, Hlast. }
  eexists. by split_and!.
Qed.

(** Of the two sample files named [hello.ts], the later one answers. *)
Lemma loadTools_then_loadTool_witness :
  cache_hit (tools Sample.two_hellos) = false ∧
  reportable (world Sample.two_hellos) ∧
  last (filter (λ t, name t = "hello") (found_on (world Sample.two_hellos)))
  = Some (tool_of Sample.other_hello_ts Sample.hello_shouting) ∧
  (loadTool "hello" (loadTools Sample.two_hellos).2).1
  = Ok (tool_of Sample.other_hello_ts Sample.hello_shouting).
Proof.
  assert (cache_hit (tools Sample.two_hellos) = false) as Hmiss by reflexivity.
  assert (last (filter (λ t, name t = "hello") (found_on (world Sample.two_hellos)))
          = Some (tool_of Sample.other_hello_ts Sample.hello_shouting)) as Hlast
    by (vm_compute; reflexivity).
  assert (reportable (world Sample.two_hellos)) as Hrep
    by (apply reportableb_true; vm_compute; reflexivity).
  split_and!; [done..|].
  destruct (loadTools_then_loadTool _ _ _ Hmiss Hrep Hlast) as (s' & _ & -> & _). done.
Defined.

(** ** Events *)

Lemma watch_listener_ignored event filename s :
  ignored (tools s) filename = true → watch_listener event filename s = (Ok (), s).
Proof.
  unfold ignored, watch_listener. destruct filename as [f|]; [|done].
  case_decide as Hf; [done|]. rewrite bool_decide_eq_false_2 by done. simpl.
  intros Hglob. rewrite onFileChange_run.
  by destruct (globPattern (tools s) f).
Qed.

Lemma listeners_ignored event filename (handles : list nat) s :
  ignored (tools s) filename = true →
  run_listeners handles (watch_listener event filename) s = ([], s).
Proof.
  intros Hign. induction handles as [|h handles IH]; [done|].
  simpl. by rewrite watch_listener_ignored.
Qed.

(** X8.  An event without a file name, with an empty one, or with one the
    glob does not match changes nothing, however many watchers are open:
    the flag stays, the subscriber is not called, nothing is logged. *)
Theorem deliver_ignored event filename s :
  ignored (tools s) filename = true → deliver event filename s = (Ok (), s).
Proof.
  intros Hign. unfold deliver. by rewrite listeners_ignored.
Qed.

(** A change of [README.md] next to the watched tools. *)
Lemma deliver_ignored_witness :
  ignored (tools Sample.watched_twice) (Some "README.md") = true ∧
  deliver "change" (Some "README.md") Sample.watched_twice
  = (Ok (), Sample.watched_twice).
Proof.
  assert (ignored (tools Sample.watched_twice) (Some "README.md") = true) as Hign
    by (vm_compute; reflexivity).
  split; [exact Hign | exact (deliver_ignored _ _ _ Hign)].
Defined.

Lemma onFileChange_tools_matching event f s :
  globPattern (tools s) f = true →
  tools (onFileChange event f s).2 = with_cacheValid false (tools s).
Proof.
  intros Hglob. rewrite onFileChange_run, Hglob. cbn zeta.
  destruct (onChangeCallback (tools s)) as [callback|]; [|done].
  match goal with |- context [callback ?w] => by destruct (callback w) as [[e|] w'] end.
Qed.

Lemma listeners_matching event f (handles : list nat) : ∀ s,
  globPattern (tools s) f = true →
  tools (run_listeners handles (onFileChange event f) s).2
  = match handles with
    | [] => tools s
    | _ => with_cacheValid false (tools s)
    end.
Proof.
  induction handles as [|h handles IH]; intros s Hglob; [done|].
  cbn [run_listeners].
  pose proof (onFileChange_tools_matching event f s Hglob) as Hone.
  destruct (onFileChange event f s) as [r s1]. cbn [snd] in Hone.
  assert (globPattern (tools s1) f = true) as Hglob1 by by rewrite Hone.
  specialize (IH s1 Hglob1).
  destruct (run_listeners handles (onFileChange event f) s1) as [errors s2].
  cbn [snd] in IH.
  assert (tools s2 = with_cacheValid false (tools s)) as Hend.
  { rewrite IH, Hone. by destruct handles. }
  by destruct r.
Qed.

Lemma deliver_state event filename s :
  (deliver event filename s).2
  = (run_listeners (open_watchers (world s)) (watch_listener event filename) s).2.
Proof.
  unfold deliver.
  by destruct (run_listeners _ _ s) as [[|e errors] s'].
Qed.

(** X9.  An event that passes the filter, delivered by at least one open
    watcher, clears the valid flag and leaves everything else of the
    registry as it was (the cached tools, the path index, the watcher
    handle, the subscriber), also when the subscriber throws. *)
Theorem deliver_only_clears_flag event f s :
  f ≠ "" → globPattern (tools s) f = true → open_watchers (world s) ≠ [] →
  tools (deliver event (Some f) s).2 = with_cacheValid false (tools s).
Proof.
  intros Hf Hglob Hopen. rewrite deliver_state. unfold watch_listener.
  rewrite decide_False by done.
  rewrite (listeners_matching event f (open_watchers (world s)) s Hglob).
  by destruct (open_watchers (world s)).
Qed.

(** The watched sample registry with the subscriber that throws. *)
Lemma deliver_only_clears_flag_witness :
  "hello.ts" ≠ "" ∧
  globPattern (tools Sample.watched_failing) "hello.ts" = true ∧
  open_watchers (world Sample.watched_failing) ≠ [] ∧
  tools (deliver "change" (Some "hello.ts") Sample.watched_failing).2
  = with_cacheValid false (tools Sample.watched_failing).
Proof.
  assert ("hello.ts" ≠ "") as H1 by discriminate.
  assert (globPattern (tools Sample.watched_failing) "hello.ts" = true) as H2
    by (vm_compute; reflexivity).
  assert (open_watchers (world Sample.watched_failing) ≠ []) as H3
    by (vm_compute; discriminate).
  split_and!; [exact H1 | exact H2 | exact H3 |].
  exact (deliver_only_clears_flag "change" _ _ H1 H2 H3).
Defined.

(** Two watchers and a subscriber that throws: the listener of each
    handle runs, the change is logged twice, and both errors reach the
    runtime. *)
Lemma deliver_runs_every_listener :
  open_watchers (world (startWatching Sample.watched_failing).2) = [0%nat; 1%nat] ∧
  (run_listeners [0%nat; 1%nat] (watch_listener "change" (Some "hello.ts"))
     (startWatching Sample.watched_failing).2).1
  = [Error "sendToolListChanged failed"; Error "sendToolListChanged failed"] ∧
  length (Sample.changes
            (log (world (deliver "change" (Some "hello.ts")
                           (startWatching Sample.watched_failing).2).2)))
  = 2%nat ∧
  (deliver "change" (Some "hello.ts") (startWatching Sample.watched_failing).2).1
  = Throw (Error "sendToolListChanged failed").
Proof. split_and!; vm_compute; reflexivity. Qed.

(** ** Specifiers and the clock *)

Lemma before_last_specifier filePath t :
  before_last "?" (specifier filePath t) = Some filePath.
Proof.
  unfold specifier.
  change ("?t=" +:+ pretty t) with (String "?" ("t=" +:+ pretty t)).
  apply before_last_app, lacks_app; [by repeat split | apply pretty_Z_lacks].
Qed.

Lemma specifier_inj f1 t1 f2 t2 :
  specifier f1 t1 = specifier f2 t2 → f1 = f2 ∧ t1 = t2.
Proof.
  intros Heq.
  assert (f1 = f2) as ->.
  { pose proof (before_last_specifier f1 t1) as H1.
    rewrite Heq, before_last_specifier in H1. congruence. }
  split; [done | by eapply specifier_inj_time].
Qed.

(** A specifier built after every time of the registry is new to it. *)
Lemma stamped_fresh w filePath t :
  stamped w → (now w < t)%Z → JsMap.get (specifier filePath t) (registry w) = None.
Proof.
  intros Hst Ht.
  destruct (JsMap.get (specifier filePath t) (registry w)) as [m|] eqn:Hget; [|done].
  destruct (Hst (specifier filePath t)) as (f' & t' & Heq & Hle); [by rewrite Hget|].
  apply specifier_inj in Heq as [_ ->]. lia.
Qed.

Lemma stamped_ext w w' :
  registry w' = registry w → (now w ≤ now w')%Z → stamped w → stamped w'.
Proof.
  intros Hreg Hnow Hst spec Hspec. rewrite Hreg in Hspec.
  destruct (Hst spec Hspec) as (f & t & -> & Hle). exists f, t. split; [done | lia].
Qed.

Lemma stamped_remember w filePath t :
  (t ≤ now w)%Z → stamped w → stamped (remember (specifier filePath t) w).
Proof.
  intros Ht Hst. unfold remember.
  destruct (JsMap.get (specifier filePath t) (registry w)); [done|].
  destruct (assoc _ (disk w)) as [ev|]; [|done].
  intros spec. simpl. rewrite get_set. case_decide as Heq.
  - intros _. exists filePath, t. by subst.
  - apply Hst.
Qed.

Lemma stamped_after_import w filePath : stamped w → stamped (after_import filePath w).
Proof.
  intros Hst. unfold after_import. apply stamped_remember; [simpl; lia|].
  by eapply stamped_ext; [| |exact Hst].
Qed.

Lemma stamped_settle_all pending : ∀ s,
  Forall (λ p, ∃ t, p.2 = specifier p.1 t ∧ (t ≤ now (world s))%Z) pending →
  stamped (world s) → stamped (world (settle_all s pending)).
Proof.
  induction pending as [|[f spec] pending IH]; intros s Hall Hst; [done|].
  apply Forall_cons in Hall as [(t & Hspec & Ht) Hall]. simpl in Hspec. subst spec.
  simpl. apply IH.
  - destruct (after_settle_same s f (specifier f t))
      as (_ & _ & _ & _ & _ & _ & _ & -> & _). done.
  - unfold after_settle.
    destruct (outcome_of (world s) f (specifier f t)); simpl.
    + by apply stamped_remember.
    + eapply stamped_ext; [| |apply (stamped_remember _ f t Ht Hst)]; [done|].
      simpl. lia.
Qed.

Lemma stamped_all_settled s : stamped (world s) → stamped (world (all_settled s)).
Proof.
  intros Hst. unfold all_settled. simpl. apply stamped_settle_all.
  - unfold issue. apply Forall_fmap, Forall_forall. intros f _. simpl.
    exists (now (world s)). split; [done | lia].
  - by eapply stamped_ext; [| |exact Hst].
Qed.

Lemma stamped_after_rescan s : stamped (world s) → stamped (world (after_rescan s)).
Proof. apply stamped_all_settled. Qed.

Lemma stamped_loadTools s : stamped (world s) → stamped (world (loadTools s).2).
Proof.
  intros Hst. destruct (cache_hit (tools s)) eqn:Hhit.
  - rewrite loadTools_hit_run by done. by eapply stamped_ext; [| |exact Hst].
  - destruct (loadTools_miss_world s Hhit) as [-> _]. by apply stamped_all_settled.
Qed.

Lemma stamped_loadTool n s : stamped (world s) → stamped (world (loadTool n s).2).
Proof.
  intros Hst. rewrite loadTool_run.
  destruct (cached n (tools s)).
  { by eapply stamped_ext; [| |exact Hst]. }
  destruct (truthy_path (JsMap.get n (toolPathMap (tools s)))) as [filePath|].
  { rewrite loadTool_from_world. by apply stamped_after_import. }
  destruct (truthy_path (find _ _)) as [filePath|].
  - rewrite loadTool_from_world. apply stamped_after_import.
    by eapply stamped_ext; [| |exact Hst].
  - by eapply stamped_ext; [| |exact Hst].
Qed.

(** ** What a session keeps *)

Lemma same_runtime_refl w : same_runtime w w.
Proof. by repeat split. Qed.

Lemma same_runtime_trans w1 w2 w3 :
  same_runtime w1 w2 → same_runtime w2 w3 → same_runtime w1 w3.
Proof. unfold same_runtime. intros ? ?. destruct_and!. repeat split; congruence. Qed.

Lemma same_runtime_keeps w w' :
  same_runtime w w' → (handles_ok w → handles_ok w') ∧ (stamped w → stamped w').
Proof.
  intros (Hd & Hn & Hr & Ho & Hw). split.
  - intros Hok h. rewrite Ho, Hw. apply Hok.
  - apply stamped_ext; [done | lia].
Qed.

(** [onFileChange] with a subscriber that keeps to itself. *)
Lemma onFileChange_runtime event f s :
  subscriber_ok (tools s) →
  same_runtime (world s) (world (onFileChange event f s).2) ∧
  (tools (onFileChange event f s).2 = tools s
   ∨ tools (onFileChange event f s).2 = with_cacheValid false (tools s)).
Proof.
  unfold subscriber_ok. intros Hsub. rewrite onFileChange_run.
  destruct (globPattern (tools s) f); [|split; [apply same_runtime_refl | by left]].
  cbn zeta.
  destruct (onChangeCallback (tools s)) as [callback|].
  - match goal with |- context [callback ?w] =>
      pose proof (Hsub w) as Hw; destruct (callback w) as [[e|] w'] end;
      (split; [exact Hw | by right]).
  - split; [by repeat split | by right].
Qed.

Lemma listeners_runtime event filename (handles : list nat) : ∀ s,
  subscriber_ok (tools s) →
  same_runtime (world s)
    (world (run_listeners handles (watch_listener event filename) s).2) ∧
  (tools (run_listeners handles (watch_listener event filename) s).2 = tools s
   ∨ tools (run_listeners handles (watch_listener event filename) s).2
     = with_cacheValid false (tools s)).
Proof.
  induction handles as [|h handles IH]; intros s Hsub.
  { split; [apply same_runtime_refl | by left]. }
  cbn [run_listeners].
  assert (same_runtime (world s) (world (watch_listener event filename s).2) ∧
          (tools (watch_listener event filename s).2 = tools s
           ∨ tools (watch_listener event filename s).2 = with_cacheValid false (tools s)))
    as [Hw Ht].
  { unfold watch_listener. destruct filename as [f|].
    - case_decide; [split; [apply same_runtime_refl | by left]|].
      by apply onFileChange_runtime.
    - split; [apply same_runtime_refl | by left]. }
  destruct (watch_listener event filename s) as [r s1]; cbn [snd] in *.
  assert (subscriber_ok (tools s1)) as Hsub1.
  { unfold subscriber_ok in *. by destruct Ht as [-> | ->]. }
  destruct (IH s1 Hsub1) as [Hw' Ht'].
  destruct (run_listeners handles (watch_listener event filename) s1)
    as [errors s2]; cbn [snd] in *.
  assert (same_runtime (world s) (world s2) ∧
          (tools s2 = tools s ∨ tools s2 = with_cacheValid false (tools s))) as Hend.
  { split; [by eapply same_runtime_trans|].
    destruct Ht as [Ht|Ht], Ht' as [Ht'|Ht']; rewrite Ht', Ht; auto. }
  by destruct r.
Qed.

Lemma deliver_runtime event filename s :
  subscriber_ok (tools s) →
  same_runtime (world s) (world (deliver event filename s).2) ∧
  (tools (deliver event filename s).2 = tools s
   ∨ tools (deliver event filename s).2 = with_cacheValid false (tools s)).
Proof.
  intros Hsub. rewrite deliver_state. by apply listeners_runtime.
Qed.

Lemma loadTools_keeps s :
  open_watchers (world (loadTools s).2) = open_watchers (world s) ∧
  watches (world (loadTools s).2) = watches (world s) ∧
  onChangeCallback (tools (loadTools s).2) = onChangeCallback (tools s) ∧
  watcher (tools (loadTools s).2) = watcher (tools s).
Proof.
  destruct (cache_hit (tools s)) eqn:Hhit.
  - by rewrite loadTools_hit_run.
  - rewrite loadTools_miss_run by done.
    assert (open_watchers (world (all_settled s)) = open_watchers (world s) ∧
            watches (world (all_settled s)) = watches (world s) ∧
            onChangeCallback (tools (all_settled s)) = onChangeCallback (tools s) ∧
            watcher (tools (all_settled s)) = watcher (tools s)) as Hkeeps.
    { unfold all_settled. cbn [tools world].
      match goal with |- context [settle_all ?s0 ?p] =>
        destruct (settle_all_same p s0)
          as (_ & Hw & Hcb & _ & _ & _ & _ & _ & _ & _ & Ho & Hws & _)
      end.
      by rewrite Hw, Hcb, Ho, Hws. }
    by destruct (all_promised (world s)).
Qed.

Lemma loadTool_keeps n s :
  open_watchers (world (loadTool n s).2) = open_watchers (world s) ∧
  watches (world (loadTool n s).2) = watches (world s) ∧
  onChangeCallback (tools (loadTool n s).2) = onChangeCallback (tools s) ∧
  watcher (tools (loadTool n s).2) = watcher (tools s).
Proof.
  assert (∀ filePath s0,
    open_watchers (world (loadTool_from n filePath s0).2) = open_watchers (world s0) ∧
    watches (world (loadTool_from n filePath s0).2) = watches (world s0) ∧
    onChangeCallback (tools (loadTool_from n filePath s0).2)
    = onChangeCallback (tools s0) ∧
    watcher (tools (loadTool_from n filePath s0).2) = watcher (tools s0)) as Hfrom.
  { intros filePath s0. rewrite loadTool_from_world.
    destruct (after_import_frame filePath (world s0)) as (_ & _ & _ & _ & _ & -> & ->).
    unfold loadTool_from. by destruct (load_outcome (world s0) filePath). }
  rewrite loadTool_run.
  destruct (cached n (tools s)); [done|].
  destruct (truthy_path (JsMap.get n (toolPathMap (tools s)))) as [filePath|];
    [apply Hfrom|].
  destruct (truthy_path (find _ _)) as [filePath|]; [|done].
  by destruct (Hfrom filePath
                 {| tools := with_toolPathMap
                               (JsMap.set n filePath (toolPathMap (tools s))) (tools s);
                    world := with_scans (S (scans (world s))) (world s) |})
    as (-> & -> & -> & ->).
Qed.

(** [startWatching()] run to its end. *)
Lemma startWatching_run s :
  startWatching s
  = (Ok (),
     {| tools := with_watcher (Some (watches (world s))) (tools s);
        world := with_watchers (open_watchers (world s) ++ [watches (world s)])
                   (S (watches (world s)))
                   (with_log (log (world s)
                              ++ [Log INFO "Watching for changes"
                                    [("targetFolder", targetFolder (config (tools s)))]])
                             (world s)) |}).
Proof. reflexivity. Qed.

(** One operation keeps what holds of a session. *)
Lemma run_op_ok op s : polite_op op → session_ok s → session_ok (run_op op s).
Proof.
  intros Hop (Hreg & Hsub & Hh & Hst).
  destruct op as [|n|callback| | |disk' event filename|ms]; cbn [run_op].
  - destruct (loadTools_keeps s) as (Ho & Hw & Hcb & _). split_and!.
    + by apply registry_ok_loadTools.
    + unfold subscriber_ok. by rewrite Hcb.
    + intros h. rewrite Ho, Hw. apply Hh.
    + by apply stamped_loadTools.
  - destruct (loadTool_keeps n s) as (Ho & Hw & Hcb & _). split_and!.
    + by apply registry_ok_loadTool.
    + unfold subscriber_ok. by rewrite Hcb.
    + intros h. rewrite Ho, Hw. apply Hh.
    + by apply stamped_loadTool.
  - by split_and!.
  - rewrite startWatching_run. split_and!; try done.
    intros h. cbn [snd world open_watchers watches with_watchers].
    rewrite elem_of_app, list_elem_of_singleton.
    intros [Hin| ->]; [|lia]. specialize (Hh h Hin). lia.
  - rewrite stopWatching_run. destruct (watcher (tools s)) as [h|]; [|done].
    split_and!; try done. intros h'. cbn. rewrite list_elem_of_filter.
    intros [_ Hin]. by apply Hh.
  - set (s0 := {| tools := tools s; world := with_disk disk' (world s) |}).
    destruct (deliver_runtime event filename s0 Hsub) as [Hw Ht].
    destruct (same_runtime_keeps _ _ Hw) as [Hh' Hst'].
    split_and!.
    + by destruct Ht as [-> | ->].
    + unfold subscriber_ok in *. by destruct Ht as [-> | ->].
    + by apply Hh'.
    + by apply Hst'.
  - split_and!; try done. eapply stamped_ext; [| |exact Hst]; [done|]. simpl. lia.
Qed.

(** X10.  An invariant of sessions.  From a new registry on a world with no
    watcher and an empty module registry, after any sequence of public
    calls, delivered filesystem events and clock ticks (with subscribers
    that keep to themselves): both maps stand under the names their files
    give, every open handle was handed out by [fs.watch], and every
    specifier of the module registry was built at a time that is not in
    the future. *)
Theorem session_invariant ops c matches w :
  open_watchers w = [] → registry w = JsMap.empty →
  Forall polite_op ops →
  session_ok (run_ops ops {| tools := new_Tools c matches; world := w |}).
Proof.
  intros Hopen Hreg Hops.
  assert (session_ok {| tools := new_Tools c matches; world := w |}) as Hinit.
  { split_and!.
    - apply registry_ok_new.
    - done.
    - intros h. cbn. rewrite Hopen. by intros ?%elem_of_nil.
    - intros spec. cbn. rewrite Hreg. by intros [? ?]. }
  revert Hinit. generalize {| tools := new_Tools c matches; world := w |}.
  induction Hops as [|op ops Hop Hops IH]; intros s Hs; [done|].
  cbn [run_ops foldl]. apply IH. by apply run_op_ok.
Qed.

(** The sample session on the three files. *)
Lemma session_invariant_witness :
  open_watchers (Sample.world0 (disk (world Sample.three_files))) = [] ∧
  registry (Sample.world0 (disk (world Sample.three_files))) = JsMap.empty ∧
  Forall polite_op Session.ops ∧
  session_ok (run_ops Session.ops
                {| tools := new_Tools Sample.cfg Sample.ends_in_ts;
                   world := Sample.world0 (disk (world Sample.three_files)) |}).
Proof.
  assert (Forall polite_op Session.ops) as Hops.
  { unfold Session.ops. repeat apply Forall_cons_2; try exact I; [|constructor].
    intros w. by repeat split. }
  split_and!; [reflexivity | reflexivity | exact Hops |].
  exact (session_invariant Session.ops Sample.cfg Sample.ends_in_ts
           (Sample.world0 (disk (world Sample.three_files))) eq_refl eq_refl Hops).
Defined.

(** ** Hot reload *)

Lemma load_outcome_fresh w filePath :
  lacks "?" filePath →
  JsMap.get (specifier filePath (now w)) (registry w) = None →
  load_outcome w filePath
  = match assoc filePath (disk w) with
    | Some (Evaluates exports) => validate filePath exports
    | Some (Raises e) => Throw e
    | None => Throw (enoent filePath)
    end.
Proof.
  intros Hpath Hfresh. unfold load_outcome, outcome_of, evaluate.
  rewrite Hfresh, specifier_path_specifier by done.
  by destruct (assoc filePath (disk w)) as [[m|e]|].
Qed.

(** The errors of the three checks have a message. *)
Lemma validate_readable filePath exports e :
  validate filePath exports = Throw e → unreadable e = false.
Proof. unfold validate. repeat case_match; by intros [= <-]. Qed.

Lemma assoc_Some_elem {V} (l : list (string * V)) k v : assoc k l = Some v → (k, v) ∈ l.
Proof.
  induction l as [|[k' v'] l IH]; simpl; [done|].
  destruct (decide (k' = k)) as [->|?].
  - intros [= ->]. left.
  - intros H. right. by apply IH.
Qed.

Lemma stamped_advance_fresh s ms filePath :
  stamped (world s) → (0 < ms)%Z →
  JsMap.get (specifier filePath (now (world (advance ms s))))
            (registry (world (advance ms s))) = None.
Proof.
  intros Hst Hms. apply (stamped_fresh (world s)); [done|]. simpl. lia.
Qed.

(** X11.  Hot reload of one tool.  The valid flag is cleared, the path index
    holds the tool's file, whose path holds no question mark, the file on
    disk exports what passes the checks, and the clock has moved since the
    last import: then [loadTool(name)] returns the tool of the file as it
    is on disk now, whatever the cache held, stores it in the cache, and
    makes no scan. *)
Theorem loadTool_reloads_from_disk n s filePath exports ms :
  stamped (world s) → (0 < ms)%Z →
  cacheValid (tools s) = false →
  JsMap.get n (toolPathMap (tools s)) = Some filePath → filePath ≠ "" →
  lacks "?" filePath →
  assoc filePath (disk (world s)) = Some (Evaluates exports) →
  valid_exports exports →
  ∃ s', loadTool n (advance ms s) = (Ok (tool_of filePath exports), s') ∧
        JsMap.get n (toolCache (tools s')) = Some (tool_of filePath exports) ∧
        scans (world s') = scans (world s).
Proof.
  intros Hst Hms Hinvalid Hget Hne Hpath Hdisk Hvalid. rewrite loadTool_run.
  assert (cached n (tools (advance ms s)) = None) as ->.
  { unfold cached. cbn. by rewrite Hinvalid. }
  assert (truthy_path (JsMap.get n (toolPathMap (tools (advance ms s)))) = Some filePath)
    as -> by by apply truthy_path_Some.
  unfold loadTool_from.
  rewrite load_outcome_fresh by (done || by apply stamped_advance_fresh).
  cbn [advance world disk with_now]. rewrite Hdisk, validate_valid by done.
  eexists. split_and!; [done | apply get_set_eq |].
  cbn [snd world].
  by destruct (after_import_frame filePath (with_now (now (world s) + ms) (world s)))
    as (_ & _ & _ & -> & _).
Qed.

Lemma stamped_invalidated : stamped (world Sample.invalidated).
Proof.
  unfold Sample.invalidated.
  destruct (onFileChange_runtime "change" "hello.ts" (loadTools Sample.three_files).2)
    as [Hw _].
  { unfold subscriber_ok. by destruct (loadTools_keeps Sample.three_files)
      as (_ & _ & -> & _). }
  apply (same_runtime_keeps _ _ Hw), stamped_loadTools.
  intros spec [m Hm]. done.
Qed.

Lemma stamped_with_disk d w : stamped w → stamped (with_disk d w).
Proof. apply stamped_ext; [done | simpl; lia]. Qed.

(** [hello.ts] of the sample, edited after the event, five milliseconds
    later. *)
Lemma loadTool_reloads_from_disk_witness :
  stamped (world Reload.edited_after_event) ∧ (0 < 5)%Z ∧
  cacheValid (tools Reload.edited_after_event) = false ∧
  JsMap.get "hello" (toolPathMap (tools Reload.edited_after_event))
  = Some Sample.hello_ts ∧
  Sample.hello_ts ≠ "" ∧
  lacks "?" Sample.hello_ts ∧
  assoc Sample.hello_ts (disk (world Reload.edited_after_event))
  = Some (Evaluates Sample.hello_shouting) ∧
  valid_exports Sample.hello_shouting ∧
  ∃ s', loadTool "hello" (advance 5 Reload.edited_after_event)
        = (Ok (tool_of Sample.hello_ts Sample.hello_shouting), s').
Proof.
  assert (stamped (world Reload.edited_after_event)) as H1.
  { unfold Reload.edited_after_event. cbn [world].
    apply stamped_with_disk, stamped_invalidated. }
  assert (0 < 5)%Z as H2 by lia.
  assert (cacheValid (tools Reload.edited_after_event) = false) as H3
    by (vm_compute; reflexivity).
  assert (JsMap.get "hello" (toolPathMap (tools Reload.edited_after_event))
          = Some Sample.hello_ts) as H4 by (vm_compute; reflexivity).
  assert (Sample.hello_ts ≠ "") as H5 by discriminate.
  assert (assoc Sample.hello_ts (disk (world Reload.edited_after_event))
          = Some (Evaluates Sample.hello_shouting)) as H6 by (vm_compute; reflexivity).
  assert (valid_exports Sample.hello_shouting) as H7.
  { split_and!; eexists; [split|..]; try (vm_compute; reflexivity). discriminate. }
  assert (lacks "?" Sample.hello_ts) as H8.
  { unfold Sample.hello_ts. cbn [lacks]. repeat split; done. }
  split_and!; [exact H1 | exact H2 | exact H3 | exact H4 | exact H5 | exact H8
              | exact H6 | exact H7 |].
  destruct (loadTool_reloads_from_disk _ _ _ _ _ H1 H2 H3 H4 H5 H8 H6 H7)
    as (s' & Hrun & _).
  by exists s'.
Defined.

Lemma assoc_of_elem {V} (l : list (string * V)) k v :
  NoDup l.*1 → (k, v) ∈ l → assoc k l = Some v.
Proof.
  induction l as [|[k' v'] l IH]; simpl; intros Hnd Hin.
  - by apply elem_of_nil in Hin.
  - apply NoDup_cons in Hnd as [Hk' Hnd]. apply elem_of_cons in Hin as [[= -> ->]|Hin].
    + by rewrite decide_True.
    + rewrite decide_False; [by apply IH|].
      intros ->. apply Hk'. apply list_elem_of_fmap. by exists (k, v).
Qed.

Lemma found_on_fresh w :
  NoDup (disk w).*1 →
  Forall (lacks "?") (disk w).*1 →
  (∀ filePath, JsMap.get (specifier filePath (now w)) (registry w) = None) →
  found_on w = on_disk w.
Proof.
  intros Hnd Hpaths Hfresh. unfold found_on, on_disk.
  assert (∀ d : list (string * Evaluation),
            (∀ p, p ∈ d → assoc p.1 (disk w) = Some p.2 ∧ lacks "?" p.1) →
            omap (λ f, fulfilled (load_outcome w f)) d.*1
            = omap (λ '(f, ev), match ev with
                                | Evaluates exports => fulfilled (validate f exports)
                                | Raises _ => None
                                end) d) as Hgen.
  { induction d as [|[f ev] d IH]; intros Hlook; [done|].
    csimpl. rewrite IH by (intros p Hp; apply Hlook; by right).
    pose proof (Hlook (f, ev) (list_elem_of_here _ _)) as [Hf Hpath].
    cbn [fst snd] in Hf, Hpath.
    rewrite load_outcome_fresh by done.
    rewrite Hf. by destruct ev. }
  apply Hgen. intros [f ev] Hin. split; [by apply assoc_of_elem|].
  rewrite Forall_forall in Hpaths. apply Hpaths, list_elem_of_fmap. by exists (f, ev).
Qed.

(** With specifiers that are new to the registry, every failure can be
    reported when no file on disk throws [null] or [undefined]. *)
Lemma reportable_fresh w :
  Forall (lacks "?") (disk w).*1 →
  (∀ filePath, JsMap.get (specifier filePath (now w)) (registry w) = None) →
  (∀ filePath e, (filePath, Raises e) ∈ disk w → unreadable e = false) →
  reportable w.
Proof.
  intros Hpaths Hfresh Hdisk f e Hin. rewrite Forall_forall in Hpaths.
  rewrite load_outcome_fresh by auto.
  destruct (assoc f (disk w)) as [[exports|e']|] eqn:Hf.
  - apply validate_readable.
  - intros [= <-]. apply (Hdisk f). by apply assoc_Some_elem.
  - by intros [= <-].
Qed.

(** X12.  Hot reload of the list.  When the clock has moved since the last
    import, the scanner yields each file once, no path holds a question
    mark and no file throws [null] or [undefined], a [loadTools()] that
    scans returns exactly the tools of the files as they are on disk now,
    in scan order: each file that evaluates and passes the checks, no
    other. *)
Theorem loadTools_reads_disk s ms :
  stamped (world s) → (0 < ms)%Z →
  NoDup (disk (world s)).*1 →
  Forall (lacks "?") (disk (world s)).*1 →
  (∀ filePath e, (filePath, Raises e) ∈ disk (world s) → unreadable e = false) →
  cache_hit (tools s) = false →
  (loadTools (advance ms s)).1 = Ok (on_disk (world s)).
Proof.
  intros Hst Hms Hnd Hpaths Hdisk Hmiss.
  assert (∀ f, JsMap.get (specifier f (now (world (advance ms s))))
                         (registry (world (advance ms s))) = None) as Hfresh.
  { intros f. by apply stamped_advance_fresh. }
  rewrite loadTools_rescan_run; [|done | by apply reportable_fresh].
  cbn [fst]. by rewrite found_on_fresh.
Qed.

Lemma NoDup_edited : NoDup (disk (world Reload.edited_after_event)).*1.
Proof.
  unfold Reload.edited_after_event, Sample.edited. cbn [world disk with_disk].
  csimpl. repeat (apply NoDup_cons; split); [| |by intros ?%elem_of_nil|constructor].
  - rewrite !elem_of_cons. intros [?|[?|?%elem_of_nil]]; done.
  - rewrite !elem_of_cons. intros [?|?%elem_of_nil]; done.
Qed.

(** The sample after the edit and the event, five milliseconds later. *)
Lemma loadTools_reads_disk_witness :
  stamped (world Reload.edited_after_event) ∧ (0 < 5)%Z ∧
  NoDup (disk (world Reload.edited_after_event)).*1 ∧
  Forall (lacks "?") (disk (world Reload.edited_after_event)).*1 ∧
  (∀ filePath e, (filePath, Raises e) ∈ disk (world Reload.edited_after_event) →
                 unreadable e = false) ∧
  cache_hit (tools Reload.edited_after_event) = false ∧
  (loadTools (advance 5 Reload.edited_after_event)).1
  = Ok (on_disk (world Reload.edited_after_event)).
Proof.
  assert (stamped (world Reload.edited_after_event)) as H1.
  { unfold Reload.edited_after_event. cbn [world].
    apply stamped_with_disk, stamped_invalidated. }
  assert (0 < 5)%Z as H2 by lia.
  assert (cache_hit (tools Reload.edited_after_event) = false) as H4
    by (vm_compute; reflexivity).
  assert (Forall (lacks "?") (disk (world Reload.edited_after_event)).*1) as H5.
  { unfold Reload.edited_after_event, Sample.edited. cbn [world disk with_disk].
    csimpl. repeat apply Forall_cons_2; [..|constructor];
      cbv [Sample.hello_ts Sample.broken_ts Sample.raw_ts]; cbn [lacks];
      repeat split; done. }
  assert (∀ filePath e, (filePath, Raises e) ∈ disk (world Reload.edited_after_event) →
                        unreadable e = false) as H6.
  { intros f e. unfold Reload.edited_after_event, Sample.edited.
    cbn [world disk with_disk]. rewrite !elem_of_cons, elem_of_nil.
    intros [?|[?|[?|[]]]]; done. }
  split_and!; [exact H1 | exact H2 | exact NoDup_edited | exact H5 | exact H6
              | exact H4 |].
  exact (loadTools_reads_disk _ _ H1 H2 NoDup_edited H5 H6 H4).
Defined.

(** ** Watching *)

Lemma filter_all {A} (P : A → Prop) `{∀ x, Decision (P x)} (l : list A) :
  (∀ x, x ∈ l → P x) → filter P l = l.
Proof.
  induction l as [|x l IH]; intros Hall; [done|].
  rewrite filter_cons_True by (apply Hall; left).
  rewrite IH; [done|]. intros y Hy. apply Hall. by right.
Qed.

(** X13.  [startWatching()] then [stopWatching()] is a round trip on the
    open handles: when every open handle was handed out by [fs.watch], the
    handles that were open before are the ones open after, the new one is
    closed, and the registry holds none. *)
Theorem start_stop_round_trip s :
  handles_ok (world s) →
  open_watchers (world ((startWatching;; stopWatching) s).2) = open_watchers (world s) ∧
  watcher (tools ((startWatching;; stopWatching) s).2) = None ∧
  watches (world s) ∉ open_watchers (world ((startWatching;; stopWatching) s).2).
Proof.
  intros Hh. rewrite bind_run, startWatching_run, stopWatching_run.
  cbn [tools watcher with_watcher snd world open_watchers with_log with_watchers].
  assert (filter (λ h', h' ≠ watches (world s))
            (open_watchers (world s) ++ [watches (world s)])
          = open_watchers (world s)) as ->.
  { rewrite filter_app, filter_cons_False, filter_nil, app_nil_r by (intros ?; done).
    apply filter_all. intros h Hin. specialize (Hh h Hin). lia. }
  split_and!; [done..|]. intros Hin. specialize (Hh _ Hin). lia.
Qed.

Lemma handles_ok_three_files : handles_ok (world Sample.three_files).
Proof. intros h Hin. by apply elem_of_nil in Hin. Qed.

(** On the three sample files with nothing watched: nothing is watched
    after. *)
Lemma start_stop_round_trip_witness :
  handles_ok (world Sample.three_files) ∧
  open_watchers (world ((startWatching;; stopWatching) Sample.three_files).2)
  = open_watchers (world Sample.three_files).
Proof.
  split; [exact handles_ok_three_files|].
  by destruct (start_stop_round_trip _ handles_ok_three_files) as (Hopen & _).
Defined.

(** ** The two variants of the class *)







Lemma rescan_loadTool_run n s :
  AlwaysRescanTool.loadTool n s
  = match truthy_path (find (λ f, bool_decide (toolName f = n)) (disk (world s)).*1) with
    | Some filePath =>
        (load_outcome (world s) filePath,
         {| tools := tools s;
            world := after_import filePath
                       (with_scans (S (scans (world s))) (world s)) |})
    | None =>
        (Throw (Error ("Tool not found: " +:+ n)),
         {| tools := tools s;
            world := with_scans (S (scans (world s))) (world s) |})
    end.
Proof.
  unfold AlwaysRescanTool.loadTool, resolveToolFiles, scan_begin, scan_settle,
    get_world, modify_world.
  rewrite !bind_run. cbn [fst snd mret M_ret world disk with_scans].
  destruct (truthy_path _) as [filePath|]; [|done].
  by rewrite rescan_loadToolFromFile_run.
Qed.

(** X15.  The always-rescan [loadTool(name)] scans once on every call and
    never touches the registry's state.  It fails with the not-found error
    when no scanned file bears the name, and otherwise returns or fails as
    the loader does on the first such file. *)
Theorem rescan_loadTool_outcome n s :
  tools (AlwaysRescanTool.loadTool n s).2 = tools s ∧
  scans (world (AlwaysRescanTool.loadTool n s).2) = S (scans (world s)) ∧
  disk (world (AlwaysRescanTool.loadTool n s).2) = disk (world s) ∧
  (AlwaysRescanTool.loadTool n s).1
  = match truthy_path (find (λ f, bool_decide (toolName f = n)) (disk (world s)).*1) with
    | Some filePath => load_outcome (world s) filePath
    | None => Throw (Error ("Tool not found: " +:+ n))
    end.
Proof.
  rewrite rescan_loadTool_run.
  destruct (truthy_path (find _ _)) as [filePath|]; cbn [fst snd tools world];
    [|done].
  destruct (after_import_frame filePath
              (with_scans (S (scans (world s))) (world s)))
    as (-> & _ & _ & -> & _).
  done.
Qed.

(** X16.  Whenever neither its cache nor its path index answers for the
    name, the [loadTool(name)] of the cached class returns or fails exactly
    as the always-rescan one does, after the same single scan. *)
Theorem variants_agree_on_loadTool n s :
  cached n (tools s) = None →
  truthy_path (JsMap.get n (toolPathMap (tools s))) = None →
  (loadTool n s).1 = (AlwaysRescanTool.loadTool n s).1 ∧
  scans (world (loadTool n s).2) = scans (world (AlwaysRescanTool.loadTool n s).2).
Proof.
  intros Hcache Hindex.
  rewrite rescan_loadTool_run, loadTool_run, Hcache, Hindex.
  destruct (truthy_path (find _ _)) as [filePath|]; cbn [fst snd tools world];
    [|done].
  rewrite loadTool_from_world. split; [|done].
  unfold loadTool_from. cbn [world tools].
  change (load_outcome (with_scans (S (scans (world s))) (world s)) filePath)
    with (load_outcome (world s) filePath).
  by destruct (load_outcome (world s) filePath).
Qed.

(** [loadTool("hello")] on the three sample files, before anything was
    loaded. *)
Lemma variants_agree_on_loadTool_witness :
  (loadTool "hello" Sample.three_files).1
  = (AlwaysRescanTool.loadTool "hello" Sample.three_files).1 ∧
  scans (world (loadTool "hello" Sample.three_files).2)
  = scans (world (AlwaysRescanTool.loadTool "hello" Sample.three_files).2).
Proof. exact (variants_agree_on_loadTool "hello" Sample.three_files eq_refl eq_refl). Defined.

(** ** Names of tool files *)

Lemma string_length_app s1 s2 :
  String.length (s1 +:+ s2) = (String.length s1 + String.length s2)%nat.
Proof. induction s1 as [|a s1 IH]; simpl; [done | by rewrite IH]. Qed.

Lemma after_last_lacks c s : lacks c s → after_last c s = None.
Proof.
  induction s as [|a s IH]; simpl; [done|]. intros [Ha Hs].
  rewrite IH by done. by rewrite decide_False.
Qed.

Lemma after_last_app c s r : lacks c r → after_last c (s +:+ String c r) = Some r.
Proof.
  intros Hr. induction s as [|a s IH]; simpl.
  - rewrite after_last_lacks by done. by rewrite decide_True.
  - by rewrite IH.
Qed.

Lemma strip_suffix_app suffix stem : strip_suffix suffix (stem +:+ suffix) = Some stem.
Proof.
  induction stem as [|a stem IH].
  - destruct suffix as [|c suffix]; [done|].
    change ("" +:+ String c suffix) with (String c suffix).
    cbn [strip_suffix]. by rewrite decide_True.
  - change (String a stem +:+ suffix) with (String a (stem +:+ suffix)).
    cbn [strip_suffix]. rewrite decide_False, IH; [done|].
    intros Heq. apply (f_equal String.length) in Heq.
    simpl in Heq. rewrite string_length_app in Heq. lia.
Qed.

(** X17.  The name of a tool is the file's name without its folder and
    its extension: the file [dir/stem.ext], with a stem and an extension
    that are not empty, is the tool [stem], whatever dots the stem has. *)
Theorem toolName_stem dir stem ext :
  stem ≠ "" → ext ≠ "" →
  lacks slash stem → lacks slash ext → lacks dot ext →
  toolName (dir +:+ "/" +:+ stem +:+ "." +:+ ext) = stem.
Proof.
  intros Hstem Hext Hs1 Hs2 Hd.
  set (b := stem +:+ String dot ext).
  assert (basename (dir +:+ "/" +:+ stem +:+ "." +:+ ext) = b) as Hb.
  { unfold basename. change ("/" +:+ stem +:+ "." +:+ ext) with (String slash b).
    rewrite after_last_app; [done|].
    apply lacks_app; [done|]. by split. }
  assert (extname (dir +:+ "/" +:+ stem +:+ "." +:+ ext) = String dot ext) as Hx.
  { unfold extname. rewrite Hb. unfold b.
    rewrite before_last_app, after_last_app by done.
    rewrite decide_False by done. rewrite decide_False; [done|].
    intros Heq. apply (f_equal String.length) in Heq.
    rewrite string_length_app in Heq. simpl in Heq.
    destruct stem; [done|]. destruct ext; [done|]. simpl in Heq. lia. }
  unfold toolName. rewrite Hx. unfold basename_ext. rewrite Hb.
  rewrite decide_False by done. rewrite decide_False.
  - unfold b. rewrite strip_suffix_app. by destruct stem.
  - intros Heq. apply (f_equal String.length) in Heq.
    rewrite !string_length_app in Heq. simpl in Heq. lia.
Qed.

(** [/work/tools/sub/hello.test.ts] is the tool [hello.test]. *)
Lemma toolName_stem_witness :
  toolName ("/work/tools/sub" +:+ "/" +:+ "hello.test" +:+ "." +:+ "ts") = "hello.test".
Proof.
  apply toolName_stem; [done | done | cbn [lacks]; repeat split; done..].
Defined.

Lemma string_app_inj_r t s1 s2 : s1 +:+ t = s2 +:+ t → s1 = s2.
Proof.
  revert s2. induction s1 as [|a s1 IH]; intros [|a' s2] Heq; [done|..].
  - apply (f_equal String.length) in Heq.
    rewrite !string_length_app in Heq. simpl in Heq. lia.
  - apply (f_equal String.length) in Heq.
    rewrite !string_length_app in Heq. simpl in Heq. lia.
  - simpl in Heq. injection Heq as -> Heq. f_equal. by apply IH.
Qed.

Lemma buildDescription_inj_path desc filePath filePath' :
  buildDescription desc filePath = buildDescription desc filePath' →
  filePath = filePath'.
Proof.
  unfold buildDescription. cbn [join]. intros Heq.
  do 5 apply (inj (String.app _)) in Heq.
  apply (inj (String.app newline)) in Heq.
  apply string_app_inj_r in Heq.
  by apply (inj (String.app "Source: ")) in Heq.
Qed.

(** X18.  The description the loader builds tells the files apart: two
    files whose modules export the same description text give tools with
    different descriptions, also when the two files give the same name. *)
Theorem tool_of_tells_files_apart filePath filePath' exports exports' :
  export exports "description" = export exports' "description" →
  filePath ≠ filePath' →
  description (tool_of filePath exports) ≠ description (tool_of filePath' exports').
Proof.
  intros Hdesc Hpath Heq. unfold tool_of in Heq. cbn [description] in Heq.
  rewrite Hdesc in Heq. by apply buildDescription_inj_path in Heq.
Qed.

(** Two copies of [hello.ts], in two folders: one name, two descriptions. *)
Lemma tool_of_tells_files_apart_witness :
  description (tool_of Sample.hello_ts Sample.hello_exports)
  ≠ description (tool_of Sample.other_hello_ts Sample.hello_exports).
Proof.
  exact (tool_of_tells_files_apart Sample.hello_ts Sample.other_hello_ts
           Sample.hello_exports Sample.hello_exports eq_refl ltac:(done)).
Defined.

(** ** The logger's queue *)

Lemma string_app_assoc s1 s2 s3 : (s1 +:+ s2) +:+ s3 = s1 +:+ (s2 +:+ s3).
Proof.
  induction s1 as [|a s1 IH]; [done|].
  change (String a ((s1 +:+ s2) +:+ s3) = String a (s1 +:+ s2 +:+ s3)). by f_equal.
Qed.

Lemma string_app_nil_r s : s +:+ "" = s.
Proof.
  induction s as [|a s IH]; [done|].
  change (String a (s +:+ "") = String a s). by f_equal.
Qed.

Lemma text_app l1 l2 : Logger.text (l1 ++ l2) = Logger.text l1 +:+ Logger.text l2.
Proof.
  induction l1 as [|line l1 IH]; [done|].
  cbn [Logger.text app]. by rewrite IH, !string_app_assoc.
Qed.

Lemma concat_app l1 l2 : Logger.concat (l1 ++ l2) = Logger.concat l1 +:+ Logger.concat l2.
Proof.
  induction l1 as [|p l1 IH]; [done|].
  cbn [Logger.concat app]. by rewrite IH, string_app_assoc.
Qed.

Lemma written_app o1 o2 :
  Logger.written (o1 ++ o2) = Logger.written o1 +:+ Logger.written o2.
Proof. unfold Logger.written. by rewrite omap_app, concat_app. Qed.

Lemma written_append content : Logger.written [Logger.AppendFile content] = content.
Proof. unfold Logger.written. cbn. apply string_app_nil_r. Qed.

Lemma written_fallback header err content :
  Logger.written [Logger.ConsoleError [header; err]; Logger.ConsoleError [content]]
  = content.
Proof. unfold Logger.written. cbn. apply string_app_nil_r. Qed.

Lemma join_newline_text lines :
  lines ≠ [] → join newline lines +:+ newline = Logger.text lines.
Proof.
  induction lines as [|line lines IH]; [done|]. intros _.
  destruct lines as [|line' lines].
  - cbn [join Logger.text]. by rewrite string_app_nil_r.
  - change (join newline (line :: line' :: lines))
      with (line +:+ newline +:+ join newline (line' :: lines)).
    cbn [Logger.text] in *. rewrite !string_app_assoc. by rewrite IH.
Qed.

Lemma flushLogs_conserves l : Logger.taken (Logger.flushLogs l) = Logger.taken l.
Proof.
  unfold Logger.taken, Logger.flushLogs.
  cbn [Logger.with_flushTimer Logger.isWriting Logger.logQueue].
  destruct (Logger.isWriting l); [done|]. cbn [orb].
  case_bool_decide as Hq; [done|].
  cbn [Logger.with_inflight Logger.with_logQueue Logger.with_isWriting Logger.output
       Logger.inflight Logger.logQueue Logger.text].
  rewrite concat_app. cbn [Logger.concat].
  by rewrite join_newline_text, !string_app_nil_r.
Qed.

Lemma taken_ext l0 l :
  Logger.output l0 = Logger.output l → Logger.inflight l0 = Logger.inflight l →
  Logger.logQueue l0 = Logger.logQueue l → Logger.taken l0 = Logger.taken l.
Proof. unfold Logger.taken. by intros -> -> ->. Qed.

Lemma taken_push message l :
  Logger.taken (Logger.with_logQueue (Logger.logQueue l ++ [message]) l)
  = Logger.taken l +:+ Logger.text [message].
Proof.
  unfold Logger.taken. cbn [Logger.with_logQueue Logger.output Logger.inflight Logger.logQueue].
  by rewrite text_app, !string_app_assoc.
Qed.

Lemma flushLogs_resume_conserves failure content rest l :
  Logger.inflight l = content :: rest →
  Logger.taken (Logger.flushLogs_resume failure content (Logger.with_inflight rest l))
  = Logger.taken l.
Proof.
  intros Hin.
  assert (∀ l0, Logger.output l0
                = Logger.output l ++ match failure with
                   | None => [Logger.AppendFile content]
                   | Some err => [Logger.ConsoleError ["Failed to write to log file:"; err];
                                  Logger.ConsoleError [content]]
                   end →
                Logger.inflight l0 = rest →
                Logger.logQueue l0 = Logger.logQueue l →
                Logger.taken l0 = Logger.taken l) as Hout.
  { unfold Logger.taken. intros l0 -> -> ->. rewrite Hin, written_app.
    cbn [Logger.concat].
    destruct failure; rewrite ?written_append, ?written_fallback;
      by rewrite !string_app_assoc. }
  unfold Logger.flushLogs_resume.
  destruct (_ && _); apply Hout; by destruct failure.
Qed.

Lemma step_conserves v e l l' :
  Logger.step v e l = Some l' →
  Logger.taken l' = Logger.taken l +:+ Logger.text (Logger.queued [e]).
Proof.
  destruct e as [message|h|failure]; cbn [Logger.step Logger.queued omap list_omap].
  - intros [= <-]. rewrite <-taken_push. destruct v.
    + unfold Logger.queueLog. cbn [Logger.with_logQueue Logger.flushTimer].
      by destruct (Logger.flushTimer l).
    + unfold Logger.queueLog_bounded.
      cbn [Logger.with_logQueue Logger.flushTimer Logger.logQueue].
      destruct (_ <=? _)%nat; [rewrite flushLogs_conserves|];
        by destruct (Logger.flushTimer l).
  - case_bool_decide; [|done]. intros [= <-].
    rewrite flushLogs_conserves. cbn [Logger.text]. by rewrite string_app_nil_r.
  - destruct (Logger.inflight l) as [|content rest] eqn:Hin; [done|]. intros [= <-].
    cbn [Logger.text]. rewrite string_app_nil_r.
    by apply flushLogs_resume_conserves.
Qed.

Lemma run_conserves v events : ∀ l l',
  Logger.run v events l = Some l' →
  Logger.taken l' = Logger.taken l +:+ Logger.text (Logger.queued events).
Proof.
  induction events as [|e events IH]; intros l l'.
  - intros [= <-]. cbn [Logger.queued omap list_omap Logger.text].
    by rewrite string_app_nil_r.
  - cbn [Logger.run]. destruct (Logger.step v e l) as [l1|] eqn:Hstep; [|done].
    cbn [mbind option_bind]. intros Hrun.
    rewrite (IH _ _ Hrun), (step_conserves _ _ _ _ Hstep).
    change (e :: events) with ([e] ++ events).
    unfold Logger.queued. rewrite omap_app, text_app.
    by rewrite !string_app_assoc.
Qed.

Lemma ok_new : Logger.ok Logger.new.
Proof. by split_and!. Qed.

Lemma flushLogs_ok l :
  Logger.timeouts l = [] →
  length (Logger.inflight l) = (if Logger.isWriting l then 1 else 0)%nat →
  Logger.ok (Logger.flushLogs l).
Proof.
  intros Ht Hw. unfold Logger.flushLogs, Logger.ok.
  cbn [Logger.with_flushTimer Logger.isWriting Logger.logQueue].
  destruct (Logger.isWriting l) eqn:Hwriting; cbn [orb].
  - simpl. rewrite ?Hwriting. split_and!; [done..|]. by right.
  - case_bool_decide as Hq.
    + simpl. rewrite ?Hwriting. by split_and!.
    + simpl. destruct (Logger.inflight l); [|done]. by split_and!.
Qed.

Lemma schedule_ok l :
  Logger.timeouts l = [] →
  length (Logger.inflight l) = (if Logger.isWriting l then 1 else 0)%nat →
  Logger.ok (Logger.schedule l).
Proof.
  intros Ht Hw. unfold Logger.schedule, Logger.ok.
  cbn [Logger.with_flushTimer Logger.timeouts Logger.flushTimer Logger.inflight
       Logger.isWriting Logger.logQueue].
  rewrite Ht. split_and!; [done..|]. intros _. by left.
Qed.

Lemma filter_other_singleton (h : nat) : filter (λ h', h' ≠ h) [h] = [].
Proof. cbn. by rewrite decide_False by (by intros ?). Qed.

Lemma queued_ok l h :
  Logger.ok l → Logger.flushTimer l = Some h → ∀ q, Logger.ok (Logger.with_logQueue q l).
Proof.
  intros (Ht & Hw & Hq) Htimer q. unfold Logger.ok. simpl.
  rewrite Htimer in *. split_and!; [done..|]. intros _. by left.
Qed.

Lemma settled_ok failure content l :
  Logger.timeouts l = match Logger.flushTimer l with Some h => [h] | None => [] end →
  Logger.ok (Logger.flushLogs_resume failure content (Logger.with_inflight [] l)).
Proof.
  intros Ht. unfold Logger.flushLogs_resume.
  assert (∀ o, Logger.ok
            (if negb (bool_decide (Logger.logQueue l = []))
                && negb (bool_decide (is_Some (Logger.flushTimer l)))
             then Logger.schedule (Logger.with_isWriting false
                    (Logger.with_output o (Logger.with_inflight [] l)))
             else Logger.with_isWriting false
                    (Logger.with_output o (Logger.with_inflight [] l)))) as Hok.
  { intros o. case_bool_decide as Hq0; cbn [negb andb].
    - unfold Logger.ok. simpl. by split_and!.
    - case_bool_decide as Hsome; cbn [negb].
      + unfold Logger.ok. simpl. split_and!; [done..|]. by left.
      + apply schedule_ok; [|done]. simpl. rewrite Ht.
        destruct (Logger.flushTimer l); [|done]. by destruct Hsome. }
  destruct failure as [err|]; apply Hok.
Qed.

Lemma step_ok v e l l' : Logger.ok l → Logger.step v e l = Some l' → Logger.ok l'.
Proof.
  intros Hok. pose proof Hok as (Ht & Hw & Hq).
  destruct e as [message|h|failure]; cbn [Logger.step].
  - intros [= <-]. destruct v.
    + unfold Logger.queueLog. cbn [Logger.with_logQueue Logger.flushTimer].
      destruct (Logger.flushTimer l) as [h|] eqn:Htimer.
      * by eapply queued_ok.
      * by apply schedule_ok.
    + unfold Logger.queueLog_bounded.
      cbn [Logger.with_logQueue Logger.flushTimer Logger.logQueue].
      destruct (_ <=? _)%nat.
      * destruct (Logger.flushTimer l) as [h|] eqn:Htimer.
        -- apply flushLogs_ok; [|done]. simpl. rewrite Ht. apply filter_other_singleton.
        -- by apply flushLogs_ok.
      * destruct (Logger.flushTimer l) as [h|] eqn:Htimer.
        -- by eapply queued_ok.
        -- by apply schedule_ok.
  - case_bool_decide as Hh; [|done]. intros [= <-].
    apply flushLogs_ok; [|done]. simpl.
    destruct (Logger.flushTimer l) as [h0|]; rewrite Ht in Hh |- *; [|done].
    apply list_elem_of_singleton in Hh as ->. apply filter_other_singleton.
  - destruct (Logger.inflight l) as [|content rest] eqn:Hin; [done|]. intros [= <-].
    assert (rest = []) as ->.
    { destruct (Logger.isWriting l), rest; simpl in Hw; done || lia. }
    by apply settled_ok.
Qed.

Lemma run_ok v events : ∀ l l',
  Logger.ok l → Logger.run v events l = Some l' → Logger.ok l'.
Proof.
  induction events as [|e events IH]; intros l l' Hok.
  - by intros [= <-].
  - cbn [Logger.run]. destruct (Logger.step v e l) as [l1|] eqn:Hstep; [|done].
    cbn [mbind option_bind]. apply IH. by eapply step_ok.
Qed.

Lemma run_sync_written lines : ∀ l,
  Logger.written (Logger.output (Logger.run_sync lines l))
  = Logger.written (Logger.output l) +:+ Logger.text lines.
Proof.
  unfold Logger.run_sync.
  induction lines as [|line lines IH]; intros l.
  - by rewrite string_app_nil_r.
  - cbn [foldl]. rewrite IH. unfold Logger.log_sync. cbn [Logger.with_output Logger.output].
    rewrite written_app, written_append. cbn [Logger.text].
    by rewrite !string_app_assoc.
Qed.

(** X19.  The logger never has two timeouts pending nor two writes in
    flight, its [flushTimer] and [isWriting] tell what is pending, and a
    queue that is not empty always has a flush coming: a timeout is
    pending or a write is in flight, whose end schedules one.  This holds
    after every run of queued lines, timeouts and settled writes, for the
    variant with the queue limit too. *)
Theorem logger_invariant v events l :
  Logger.run v events Logger.new = Some l →
  Logger.timeouts l = match Logger.flushTimer l with Some h => [h] | None => [] end ∧
  length (Logger.inflight l) = (if Logger.isWriting l then 1 else 0)%nat ∧
  (Logger.logQueue l ≠ [] → is_Some (Logger.flushTimer l) ∨ Logger.isWriting l = true).
Proof. intros Hrun. by apply (run_ok v events Logger.new l ok_new). Qed.

Lemma logger_invariant_witness :
  Logger.timeouts Logger.sample_busy
  = match Logger.flushTimer Logger.sample_busy with Some h => [h] | None => [] end ∧
  length (Logger.inflight Logger.sample_busy)
  = (if Logger.isWriting Logger.sample_busy then 1 else 0)%nat ∧
  (Logger.logQueue Logger.sample_busy ≠ []
   → is_Some (Logger.flushTimer Logger.sample_busy)
     ∨ Logger.isWriting Logger.sample_busy = true).
Proof.
  refine (logger_invariant Logger.Timed (take 4 Logger.sample) Logger.sample_busy _).
  vm_compute; reflexivity.
Defined.

(** X20.  No line is lost, doubled or reordered: at every moment the text
    written (to the file, or to the console when a write failed), then the
    text in flight, then the queued lines, each with its newline, are the
    lines queued so far, in the order they were queued. *)
Theorem logger_conserves v events l :
  Logger.run v events Logger.new = Some l →
  Logger.written (Logger.output l) +:+ Logger.concat (Logger.inflight l)
  +:+ Logger.text (Logger.logQueue l)
  = Logger.text (Logger.queued events).
Proof. intros Hrun. by apply (run_conserves v events Logger.new l). Qed.

Lemma logger_conserves_witness :
  Logger.written (Logger.output Logger.sample_busy)
  +:+ Logger.concat (Logger.inflight Logger.sample_busy)
  +:+ Logger.text (Logger.logQueue Logger.sample_busy)
  = Logger.text (Logger.queued (take 4 Logger.sample)).
Proof.
  refine (logger_conserves Logger.Timed (take 4 Logger.sample) Logger.sample_busy _).
  vm_compute; reflexivity.
Defined.

(** X21.  When nothing is pending any more, no timeout and no write, the
    queue is empty and every line queued has been written, in order: the
    text is the one the synchronous variant writes for the same lines. *)
Theorem logger_quiet_all_written v events l :
  Logger.run v events Logger.new = Some l →
  Logger.quiet l →
  Logger.logQueue l = [] ∧
  Logger.written (Logger.output l) = Logger.text (Logger.queued events) ∧
  Logger.written (Logger.output l)
  = Logger.written (Logger.output (Logger.run_sync (Logger.queued events) Logger.new)).
Proof.
  intros Hrun [Ht Hin].
  destruct (run_ok v events Logger.new l ok_new Hrun) as (Htimer & Hw & Hq).
  assert (Logger.logQueue l = []) as Hempty.
  { destruct (Logger.logQueue l) as [|line q] eqn:Hqueue; [done|].
    destruct Hq as [[h Hh]|Hwriting]; [done|..].
    - rewrite Hh, Ht in Htimer. done.
    - rewrite Hwriting, Hin in Hw. done. }
  pose proof (run_conserves v events Logger.new l Hrun) as Htaken.
  unfold Logger.taken in Htaken. rewrite Hin, Hempty in Htaken.
  cbn [Logger.concat Logger.text Logger.new Logger.output Logger.inflight
       Logger.logQueue Logger.written omap list_omap] in Htaken.
  rewrite !string_app_nil_r in Htaken. cbn [String.app] in Htaken.
  split_and!; [done | done |].
  rewrite run_sync_written, Htaken. done.
Qed.

Lemma logger_quiet_all_written_witness :
  Logger.logQueue Logger.sample_end = [] ∧
  Logger.written (Logger.output Logger.sample_end)
  = Logger.text (Logger.queued Logger.sample) ∧
  Logger.written (Logger.output Logger.sample_end)
  = Logger.written (Logger.output (Logger.run_sync (Logger.queued Logger.sample) Logger.new)).
Proof.
  refine (logger_quiet_all_written Logger.Timed Logger.sample Logger.sample_end _ _).
  - vm_compute; reflexivity.
  - split; vm_compute; reflexivity.
Defined.

(** A write that settles, seen from the state left behind. *)
Lemma settles_then v failure content l :
  Logger.ok l → Logger.inflight l = [content] →
  ∃ l1, Logger.step v (Logger.WriteSettles failure) l = Some l1 ∧
        Logger.ok l1 ∧ Logger.isWriting l1 = false ∧
        Logger.logQueue l1 = Logger.logQueue l ∧
        Logger.flushTimer l1
        = match Logger.flushTimer l, Logger.logQueue l with
          | None, _ :: _ => Some (Logger.handles l)
          | timer, _ => timer
          end.
Proof.
  intros Hok Hin. eexists. split.
  { cbn [Logger.step]. by rewrite Hin. }
  split; [eapply (step_ok v (Logger.WriteSettles failure)); [done|];
          cbn [Logger.step]; by rewrite Hin|].
  unfold Logger.flushLogs_resume.
  assert (∀ o,
    let l1 := if negb (bool_decide (Logger.logQueue l = []))
                 && negb (bool_decide (is_Some (Logger.flushTimer l)))
              then Logger.schedule (Logger.with_isWriting false
                     (Logger.with_output o (Logger.with_inflight [] l)))
              else Logger.with_isWriting false
                     (Logger.with_output o (Logger.with_inflight [] l)) in
    Logger.isWriting l1 = false ∧ Logger.logQueue l1 = Logger.logQueue l ∧
    Logger.flushTimer l1
    = match Logger.flushTimer l, Logger.logQueue l with
      | None, _ :: _ => Some (Logger.handles l)
      | timer, _ => timer
      end) as Hfields.
  { intros o. cbv zeta. case_bool_decide as Hq; cbn [negb andb].
    - simpl. rewrite Hq. by destruct (Logger.flushTimer l).
    - case_bool_decide as Htimer; cbn [negb].
      + simpl. destruct Htimer as [h Hh]. rewrite Hh. by destruct (Logger.logQueue l).
      + simpl. destruct (Logger.flushTimer l) as [h|] eqn:Hh; [by destruct Htimer|].
        by destruct (Logger.logQueue l). }
  destruct failure as [err|]; apply Hfields.
Qed.

(** The timeout that runs, when no write is in flight. *)
Lemma timeout_then v h l :
  Logger.ok l → Logger.flushTimer l = Some h → Logger.isWriting l = false →
  ∃ l1, Logger.step v (Logger.Timeout h) l = Some l1 ∧
        Logger.ok l1 ∧ Logger.flushTimer l1 = None ∧ Logger.logQueue l1 = [] ∧
        Logger.isWriting l1 = negb (bool_decide (Logger.logQueue l = [])).
Proof.
  intros Hok Htimer Hwriting. pose proof Hok as (Ht & Hw & _).
  rewrite Htimer in Ht.
  assert (Logger.step v (Logger.Timeout h) l
          = Some (Logger.flushLogs (Logger.clearTimeout h l))) as Hstep.
  { cbn [Logger.step]. rewrite bool_decide_true; [done|]. rewrite Ht. set_solver. }
  eexists. split; [exact Hstep|]. split; [by eapply step_ok|].
  unfold Logger.flushLogs.
  cbn [Logger.clearTimeout Logger.with_timeouts Logger.with_flushTimer
       Logger.isWriting Logger.logQueue].
  rewrite Hwriting. cbn [orb]. by case_bool_decide.
Qed.

Lemma ok_quiet l :
  Logger.ok l → Logger.flushTimer l = None → Logger.isWriting l = false →
  Logger.quiet l ∧ Logger.logQueue l = [].
Proof.
  intros (Ht & Hw & Hq) Htimer Hwriting. rewrite Htimer in *. rewrite Hwriting in *.
  split; [split; [done | by apply nil_length_inv]|].
  destruct (Logger.logQueue l); [done|]. by destruct Hq as [[? ?]|?].
Qed.

Lemma ok_writing l :
  Logger.ok l → Logger.isWriting l = true → ∃ content, Logger.inflight l = [content].
Proof.
  intros (_ & Hw & _) Hwriting. rewrite Hwriting in Hw.
  destruct (Logger.inflight l) as [|content [|]]; [done| |done]. by exists content.
Qed.

(** A logger that holds a timeout and writes nothing comes to rest. *)
Lemma drains_from_timer v h l :
  Logger.ok l → Logger.flushTimer l = Some h → Logger.isWriting l = false →
  ∃ l', Logger.run v (Logger.Timeout h
                      :: (if bool_decide (Logger.logQueue l = []) then []
                          else [Logger.WriteSettles None])) l = Some l' ∧
        Logger.quiet l' ∧ Logger.logQueue l' = [].
Proof.
  intros Hok Htimer Hwriting.
  destruct (timeout_then v h l Hok Htimer Hwriting)
    as (l1 & Hstep & Hok1 & Htimer1 & Hq1 & Hwriting1).
  cbn [Logger.run]. rewrite Hstep. cbn [mbind option_bind].
  case_bool_decide as Hq; cbn [negb] in Hwriting1.
  - exists l1. split; [done|]. by apply ok_quiet.
  - destruct (ok_writing l1 Hok1 Hwriting1) as [content Hin].
    destruct (settles_then v None content l1 Hok1 Hin)
      as (l2 & Hstep2 & Hok2 & Hwriting2 & Hq2 & Htimer2).
    exists l2. cbn [Logger.run]. rewrite Hstep2. split; [done|].
    apply ok_quiet; [done| |done]. by rewrite Htimer2, Htimer1, Hq1.
Qed.

(** X22.  A logger that gets no more lines comes to rest: the write in
    flight settles, the timeout runs, its write settles, and no further
    line was needed for that.  Then nothing is pending, the queue is empty
    and all the text the logger held is written. *)
Theorem logger_drains v l :
  Logger.ok l →
  ∃ l', Logger.run v (Logger.drain l) l = Some l' ∧
        Logger.queued (Logger.drain l) = [] ∧
        Logger.quiet l' ∧ Logger.logQueue l' = [] ∧
        Logger.written (Logger.output l') = Logger.taken l.
Proof.
  intros Hok.
  assert (Logger.queued (Logger.drain l) = []) as Hnone.
  { unfold Logger.drain.
    destruct (Logger.isWriting l), (Logger.flushTimer l) as [h|];
      cbn [andb]; repeat case_bool_decide; done. }
  assert (∃ l', Logger.run v (Logger.drain l) l = Some l' ∧
                Logger.quiet l' ∧ Logger.logQueue l' = []) as (l' & Hrun & Hquiet & Hq).
  { clear Hnone. unfold Logger.drain.
    destruct (Logger.isWriting l) eqn:Hwriting.
    - destruct (ok_writing l Hok Hwriting) as [content Hin].
      destruct (settles_then v None content l Hok Hin)
        as (l1 & Hstep & Hok1 & Hwriting1 & Hq1 & Htimer1).
      cbn [app Logger.run]. rewrite Hstep. cbn [mbind option_bind andb].
      rewrite <-Hq1.
      destruct (Logger.flushTimer l) as [h|] eqn:Htimer.
      + apply drains_from_timer; [done| |done].
        rewrite Htimer1. by destruct (Logger.logQueue l).
      + case_bool_decide as Hq; cbn [negb].
        * exists l1. split; [done|]. apply ok_quiet; [done| |done].
          rewrite Htimer1. rewrite Hq1 in Hq. by rewrite Hq.
        * assert (Logger.flushTimer l1 = Some (Logger.handles l)) as Hh.
          { rewrite Htimer1. rewrite Hq1 in Hq. by destruct (Logger.logQueue l). }
          destruct (drains_from_timer v _ l1 Hok1 Hh Hwriting1) as (l' & Hrun & Hrest).
          rewrite bool_decide_false in Hrun by done. by exists l'.
    - cbn [app andb].
      destruct (Logger.flushTimer l) as [h|] eqn:Htimer.
      + by apply drains_from_timer.
      + exists l. split; [done|]. by apply ok_quiet. }
  exists l'. split_and!; [done..|].
  pose proof (run_conserves v _ _ _ Hrun) as Htaken.
  rewrite Hnone in Htaken. cbn [Logger.text] in Htaken.
  rewrite string_app_nil_r in Htaken. rewrite <-Htaken.
  destruct Hquiet as [_ Hin]. unfold Logger.taken. rewrite Hin, Hq.
  cbn [Logger.concat Logger.text]. by rewrite string_app_nil_r.
Qed.

Lemma logger_drains_witness :
  ∃ l', Logger.run Logger.Timed (Logger.drain Logger.sample_busy) Logger.sample_busy
        = Some l' ∧
        Logger.queued (Logger.drain Logger.sample_busy) = [] ∧
        Logger.quiet l' ∧ Logger.logQueue l' = [] ∧
        Logger.written (Logger.output l') = Logger.taken Logger.sample_busy.
Proof.
  refine (logger_drains Logger.Timed Logger.sample_busy _).
  apply (run_ok Logger.Timed (take 4 Logger.sample) Logger.new _ ok_new).
  vm_compute; reflexivity.
Defined.

(** ** The configuration *)

Lemma parse_args_keeps_target parseInt n : ∀ argv c,
  (length argv ≤ n)%nat → "--target" ∉ argv →
  Configuration._targetFolder (Configuration.parse_args parseInt argv c)
  = Configuration._targetFolder c.
Proof.
  induction n as [|n IH]; intros argv c Hlen Hnot.
  - destruct argv; [done | simpl in Hlen; lia].
  - destruct argv as [|arg rest]; [done|].
    apply not_elem_of_cons in Hnot as [Harg Hrest]. simpl in Hlen.
    cbn [Configuration.parse_args]. rewrite decide_False by done.
    destruct rest as [|value rest'].
    + by repeat case_decide.
    + pose proof Hrest as [_ Hrest']%not_elem_of_cons. simpl in Hlen.
      repeat case_decide;
        try (rewrite (IH rest') by (done || lia); done).
      by rewrite (IH (value :: rest')) by (done || simpl; lia).
Qed.

Lemma env_fallbacks_frame env c :
  Configuration._targetFolder (Configuration.env_fallbacks env c)
  = Configuration._targetFolder c ∧
  Configuration._port (Configuration.env_fallbacks env c) = Configuration._port c.
Proof.
  unfold Configuration.env_fallbacks.
  repeat (case_decide || case_match); done.
Qed.

(** X23.  Without a [--target] flag on the command line, [parse] of an
    instance that has no target folder throws the missing-argument error,
    whatever the environment says, and makes no folder. *)
Theorem parse_missing_target parseInt resolve join Fs existsSync mkdirSync
    argv env c (dirs : Fs) :
  "--target" ∉ argv →
  Configuration.truthy (Configuration._targetFolder c) = false →
  ∃ c', Configuration.parse parseInt resolve join Fs existsSync mkdirSync argv env c dirs
        = (Throw Configuration.missing_target, c', dirs) ∧
        Configuration._targetFolder c' = Configuration._targetFolder c.
Proof.
  intros Hnot Hempty. unfold Configuration.parse.
  destruct (env_fallbacks_frame env (Configuration.parse_args parseInt argv c))
    as [Htarget _].
  rewrite Htarget, (parse_args_keeps_target _ (length argv)) by done.
  rewrite Hempty. cbn [negb]. eexists. split; [done|].
  rewrite Htarget. by apply (parse_args_keeps_target _ (length argv)).
Qed.

(** [--glob **/*.md --port 8080] on a new instance. *)
Lemma parse_missing_target_witness :
  ∃ c', Configuration.parse (λ _, JsNumber 8080) id (λ a b, a +:+ "/" +:+ b)
          (list string) Configuration.folder_exists Configuration.make_folder
          ["--glob"; "**/*.md"; "--port"; "8080"] Configuration.no_env
          Configuration.new []
        = (Throw Configuration.missing_target, c', []) ∧
        Configuration._targetFolder c' = Configuration._targetFolder Configuration.new.
Proof.
  refine (parse_missing_target _ _ _ _ _ _ _ _ _ _ _ _); [|done].
  intros Hin. repeat (apply elem_of_cons in Hin as [?|Hin]; [done|]).
  by apply elem_of_nil in Hin.
Defined.

Lemma env_fallbacks_glob env c :
  Configuration._glob (Configuration.env_fallbacks env c)
  = if Configuration.truthy (Configuration._glob c)
       && negb (bool_decide (Configuration._glob c = Some "**/*.ts"))
    then Configuration._glob c
    else if Configuration.truthy (Configuration.MCP_GLOB env)
         then Configuration.MCP_GLOB env else Some "**/*.ts".
Proof.
  unfold Configuration.env_fallbacks.
  assert (∀ c0, Configuration._glob c0 = Configuration._glob c →
            Configuration._glob
              (let c2 := if negb (Configuration.truthy (Configuration._glob c0))
                            || bool_decide (Configuration._glob c0 = Some "**/*.ts")
                         then Configuration.with_glob
                                (Some (if Configuration.truthy (Configuration.MCP_GLOB env)
                                       then default "" (Configuration.MCP_GLOB env)
                                       else "**/*.ts")) c0
                         else c0 in
               if Configuration.truthy (Configuration.LOG_FILE env)
               then Configuration.with_logFile (default "" (Configuration.LOG_FILE env)) c2
               else c2)
            = if Configuration.truthy (Configuration._glob c)
                 && negb (bool_decide (Configuration._glob c = Some "**/*.ts"))
              then Configuration._glob c
              else if Configuration.truthy (Configuration.MCP_GLOB env)
                   then Configuration.MCP_GLOB env else Some "**/*.ts") as Hstep.
  { intros c0 Hc0. rewrite Hc0. cbv zeta.
    destruct (Configuration.truthy (Configuration._glob c)) eqn:Hgiven; cbn [negb orb andb].
    - case_bool_decide as Hdefault; cbn [negb];
        destruct (Configuration.truthy (Configuration.LOG_FILE env));
        destruct (Configuration.MCP_GLOB env) as [g|] eqn:Henv; cbn;
        repeat case_bool_decide; done || by rewrite Hc0.
    - destruct (Configuration.truthy (Configuration.LOG_FILE env));
        destruct (Configuration.MCP_GLOB env) as [g|] eqn:Henv; cbn;
        repeat case_bool_decide; done || by rewrite Hc0. }
  destruct (decide (Configuration.MCP_MODE env = Some "http")); [by apply Hstep|].
  destruct (decide (Configuration.MCP_MODE env = Some "stdio")); by apply Hstep.
Qed.

Lemma env_fallbacks_glob_truthy env c :
  Configuration.truthy (Configuration._glob (Configuration.env_fallbacks env c)) = true.
Proof.
  rewrite env_fallbacks_glob.
  destruct (Configuration.truthy (Configuration._glob c)) eqn:Hgiven; cbn [andb].
  - case_bool_decide; cbn [negb]; [|done].
    by destruct (Configuration.truthy (Configuration.MCP_GLOB env)) eqn:Henv.
  - by destruct (Configuration.truthy (Configuration.MCP_GLOB env)) eqn:Henv.
Qed.

Lemma default_logFile_frame join target c :
  Configuration._targetFolder (Configuration.default_logFile join target c)
  = Configuration._targetFolder c ∧
  Configuration._glob (Configuration.default_logFile join target c)
  = Configuration._glob c.
Proof.
  unfold Configuration.default_logFile.
  by destruct (bool_decide (Configuration._logFile c = "")).
Qed.

Lemma parse_glob_same parseInt resolve join Fs existsSync mkdirSync argv env c (dirs : Fs) :
  Configuration._glob
    (Configuration.parse parseInt resolve join Fs existsSync mkdirSync argv env c dirs).1.2
  = Configuration._glob
      (Configuration.env_fallbacks env (Configuration.parse_args parseInt argv c)).
Proof.
  unfold Configuration.parse.
  destruct (negb (Configuration.truthy _)); [done|].
  destruct (existsSync dirs _).
  { cbn [fst snd]. by destruct (default_logFile_frame join
      (resolve (default "" (Configuration._targetFolder
         (Configuration.env_fallbacks env (Configuration.parse_args parseInt argv c)))))
      (Configuration.with_targetFolder
         (Some (resolve (default "" (Configuration._targetFolder
            (Configuration.env_fallbacks env
               (Configuration.parse_args parseInt argv c))))))
         (Configuration.env_fallbacks env (Configuration.parse_args parseInt argv c))))
      as [_ ->]. }
  destruct (mkdirSync dirs _) as [[[]|e] dirs']; cbn [fst snd]; [|done].
  by destruct (default_logFile_frame join
      (resolve (default "" (Configuration._targetFolder
         (Configuration.env_fallbacks env (Configuration.parse_args parseInt argv c)))))
      (Configuration.with_targetFolder
         (Some (resolve (default "" (Configuration._targetFolder
            (Configuration.env_fallbacks env
               (Configuration.parse_args parseInt argv c))))))
         (Configuration.env_fallbacks env (Configuration.parse_args parseInt argv c))))
      as [_ ->].
Qed.

(** X24.  Whatever the command line and the environment hold, [parse]
    leaves a glob that is a string and not empty, also when it throws: it
    is the glob the loop over the command line left (the value given to a
    [--glob] flag, or the one the instance had) when that is neither
    missing, empty nor the default pattern, else [MCP_GLOB] when that is
    set and not empty, else the default pattern.  So a [--glob] that
    spells out the default pattern gives way to [MCP_GLOB]. *)
Theorem parse_glob parseInt resolve join Fs existsSync mkdirSync argv env c (dirs : Fs) :
  let given := Configuration._glob (Configuration.parse_args parseInt argv c) in
  let c' := (Configuration.parse parseInt resolve join Fs existsSync mkdirSync
               argv env c dirs).1.2 in
  Configuration.truthy (Configuration._glob c') = true ∧
  Configuration._glob c'
  = if Configuration.truthy given && negb (bool_decide (given = Some "**/*.ts"))
    then given
    else if Configuration.truthy (Configuration.MCP_GLOB env)
         then Configuration.MCP_GLOB env else Some "**/*.ts".
Proof.
  cbv zeta. rewrite parse_glob_same. split.
  - apply env_fallbacks_glob_truthy.
  - apply env_fallbacks_glob.
Qed.

(** The configuration [parse] leaves for the target [target]: the
    folder is set, and the registry reads it and a glob that is not
    empty. *)
Lemma parse_target_fields join resolved c :
  Configuration.truthy (Configuration._glob c) = true →
  let c' := Configuration.default_logFile join resolved
              (Configuration.with_targetFolder (Some resolved) c) in
  Configuration._targetFolder c' = Some resolved ∧
  targetFolder (Configuration.read c') = resolved ∧
  glob (Configuration.read c') ≠ "".
Proof.
  intros Htruthy. cbv zeta.
  destruct (default_logFile_frame join resolved
              (Configuration.with_targetFolder (Some resolved) c)) as [Ht Hg].
  unfold Configuration.read. cbn [targetFolder glob]. rewrite Ht, Hg.
  split_and!; [done..|]. cbn [Configuration._glob Configuration.with_targetFolder].
  destruct (Configuration._glob c) as [g|]; [|done].
  cbn in Htruthy. cbn. intros ->. done.
Qed.

(** X25.  A command line that begins with [--target t], [t] not empty,
    and names no other target.  When something is at [path.resolve(t)], a
    folder or a file, [parse] returns and makes no folder.  When nothing
    is there, [parse] calls [fs.mkdirSync] on the resolved path: when
    that returns, [parse] returns; when it throws, [parse] throws its
    error, with the target folder set to the resolved path.  Whenever
    [parse] returns, the target folder is [path.resolve(t)] and the
    registry reads a glob that is not empty. *)
Theorem parse_target parseInt resolve join Fs existsSync mkdirSync
    target rest env c (fs : Fs) :
  target ≠ "" → "--target" ∉ rest →
  ∃ c',
    Configuration.parse parseInt resolve join Fs existsSync mkdirSync
      ("--target" :: target :: rest) env c fs
    = (if existsSync fs (resolve target) then (Ok (), c', fs)
       else match mkdirSync fs (resolve target) with
            | (Ok _, fs') => (Ok (), c', fs')
            | (Throw e, fs') =>
                (Throw e,
                 Configuration.with_targetFolder (Some (resolve target))
                   (Configuration.env_fallbacks env
                      (Configuration.parse_args parseInt rest
                         (Configuration.with_targetFolder (Some target) c))),
                 fs')
            end) ∧
    Configuration._targetFolder c' = Some (resolve target) ∧
    targetFolder (Configuration.read c') = resolve target ∧
    glob (Configuration.read c') ≠ "".
Proof.
  intros Htarget Hrest.
  unfold Configuration.parse.
  cbn [Configuration.parse_args]. rewrite decide_True by done.
  set (c1 := Configuration.parse_args parseInt rest
               (Configuration.with_targetFolder (Some target) c)).
  pose proof (env_fallbacks_glob_truthy env c1) as Htruthy.
  destruct (env_fallbacks_frame env c1) as [Hsame _].
  assert (Configuration._targetFolder c1 = Some target) as Hc1.
  { unfold c1. by rewrite (parse_args_keeps_target _ (length rest)). }
  rewrite Hsame, Hc1. cbn [Configuration.truthy].
  rewrite bool_decide_false by done. cbn [negb default]. cbv [id].
  exists (Configuration.default_logFile join (resolve target)
            (Configuration.with_targetFolder (Some (resolve target))
               (Configuration.env_fallbacks env c1))).
  split.
  - destruct (existsSync fs (resolve target)); [done|].
    by destruct (mkdirSync fs (resolve target)) as [[[]|e] fs'].
  - by apply parse_target_fields.
Qed.

(** [--target tools --glob **/*.ts] with [MCP_GLOB] set: the folder is
    made; in a file system where none can be made, [parse] throws. *)
Lemma parse_target_witness :
  (∃ c',
    Configuration.parse (λ _, JsNaN) (λ p, "/work/" +:+ p) (λ a b, a +:+ "/" +:+ b)
      (list string) Configuration.folder_exists Configuration.make_folder
      ("--target" :: "tools" :: ["--glob"; "**/*.ts"])
      {| Configuration.MCP_MODE := Some "http"; Configuration.MCP_GLOB := Some "**/*.js";
         Configuration.LOG_FILE := None |}
      Configuration.new ["/work"]
    = (Ok (), c', ["/work"; "/work/tools"]) ∧
    Configuration._targetFolder c' = Some "/work/tools" ∧
    glob (Configuration.read c') = "**/*.js") ∧
  (∃ c',
    Configuration.parse (λ _, JsNaN) (λ p, "/work/" +:+ p) (λ a b, a +:+ "/" +:+ b)
      (list string) Configuration.folder_exists Configuration.read_only
      ("--target" :: "tools" :: ["--glob"; "**/*.ts"])
      {| Configuration.MCP_MODE := Some "http"; Configuration.MCP_GLOB := Some "**/*.js";
         Configuration.LOG_FILE := None |}
      Configuration.new ["/work"]
    = (Throw (Error "EACCES: permission denied, mkdir '/work/tools'"), c', ["/work"])).
Proof.
  assert ("--target" ∉ ["--glob"; "**/*.ts"]) as Hrest.
  { intros Hin. repeat (apply elem_of_cons in Hin as [?|Hin]; [done|]).
    by apply elem_of_nil in Hin. }
  assert ("tools" ≠ "") as Htarget by done.
  split.
  - refine (match parse_target (λ _, JsNaN) (λ p, "/work/" +:+ p) (λ a b, a +:+ "/" +:+ b)
                    (list string) Configuration.folder_exists Configuration.make_folder
                    "tools" ["--glob"; "**/*.ts"]
                    {| Configuration.MCP_MODE := Some "http";
                       Configuration.MCP_GLOB := Some "**/*.js";
                       Configuration.LOG_FILE := None |}
                    Configuration.new ["/work"] Htarget Hrest with
            | ex_intro _ c' (conj Hrun (conj Ht _)) => ex_intro _ c' (conj _ (conj _ _))
            end).
    + rewrite Hrun. vm_compute. reflexivity.
    + rewrite Ht. vm_compute. reflexivity.
    + clear Ht. vm_compute in Hrun. injection Hrun as <-. vm_compute. reflexivity.
  - eexists. vm_compute. reflexivity.
Defined.

(** ** The server's handlers *)

Lemma logger_run lvl text fields s :
  logger lvl text fields s
  = (Ok (), {| tools := tools s;
               world := with_log (log (world s) ++ [Log lvl text fields]) (world s) |}).
Proof. done. Qed.



Lemma read_message_run err s :
  read_message err s
  = (if unreadable err then Throw (not_an_object err) else Ok (message err), s).
Proof. unfold read_message. by destruct (unreadable err). Qed.



(** A call of the tool of [null.ts], whose load throws [null]: the
    handler rejects.  A call of [hello] returns what the tool returned. *)
Lemma handleCallTool_rejects_on_null :
  (Server.handleCallTool Server.echo "null" None Sample.throws_null).1
  = Throw (not_an_object (Thrown JsNull)) ∧
  (Server.handleCallTool Server.echo "hello" (Some (Server.JString "hi"))
     Sample.throws_null).1
  = Ok (Server.formatToolResult Server.echo (Server.JString "hi")).
Proof. split; vm_compute; reflexivity. Qed.

(** X27.  A call for a name that neither the cache, the path index nor a
    scan resolves is answered with the error result of the not-found
    error, which names the tool; one scan was made, the registry's state
    is as before, and so are the disk, the imports and the module
    registry. *)
Theorem handleCallTool_not_found rt n args s :
  cached n (tools s) = None → resolve n s = None →
  ∃ s', Server.handleCallTool rt n args s
        = (Ok {| Server.content := [Server.text_item ("Error: Tool not found: " +:+ n)];
                 Server.structuredContent := None;
                 Server.isError := Some true |}, s') ∧
        tools s' = tools s ∧ scans (world s') = S (scans (world s)) ∧
        imports (world s') = imports (world s) ∧
        disk (world s') = disk (world s) ∧ registry (world s') = registry (world s).
Proof.
  intros Hcache Hresolve. unfold resolve in Hresolve.
  destruct (truthy_path (JsMap.get n _)) eqn:Hindex; [done|].
  unfold Server.handleCallTool. rewrite bind_run, logger_run.
  unfold catch. rewrite bind_run, loadTool_run.
  cbn [tools world disk with_log]. rewrite Hcache, Hindex, Hresolve.
  rewrite bind_run, logger_run. eexists. split; [done|]. done.
Qed.

(** [handleCallTool("nothing")] on the three sample files. *)
Lemma handleCallTool_not_found_witness :
  ∃ s', Server.handleCallTool Server.echo "nothing" None Sample.three_files
        = (Ok {| Server.content := [Server.text_item ("Error: Tool not found: " +:+ "nothing")];
                 Server.structuredContent := None;
                 Server.isError := Some true |}, s') ∧
        tools s' = tools Sample.three_files ∧
        scans (world s') = S (scans (world Sample.three_files)) ∧
        imports (world s') = imports (world Sample.three_files) ∧
        disk (world s') = disk (world Sample.three_files) ∧
        registry (world s') = registry (world Sample.three_files).
Proof.
  refine (handleCallTool_not_found Server.echo "nothing" None Sample.three_files _ _);
    vm_compute; reflexivity.
Defined.

(** What [loadTools()] returns does not depend on the log. *)
Lemma loadTools_logged entries s :
  (loadTools {| tools := tools s; world := with_log entries (world s) |}).1
  = (loadTools s).1.
Proof.
  destruct (cache_hit (tools s)) eqn:Hhit.
  - by rewrite !loadTools_hit_run.
  - rewrite !loadTools_miss_run by done. cbn [world].
    change (all_promised (with_log entries (world s))) with (all_promised (world s)).
    by destruct (all_promised (world s)).
Qed.

(** [safeZodToJson] returns, unless the conversion throws [null] or
    [undefined]. *)
Lemma safeZodToJson_returns rt schema s :
  (∀ e, Server.toJSONSchema rt schema = Throw e → unreadable e = false) →
  ∃ json s', Server.safeZodToJson rt schema s = (Ok json, s').
Proof.
  intros Hrep. unfold Server.safeZodToJson. destruct (_ || _).
  - rewrite bind_run, logger_run. by eexists _, _.
  - destruct (Server.toJSONSchema rt schema) as [json|err].
    + by eexists _, _.
    + rewrite bind_run, read_message_run, (Hrep err) by done.
      rewrite bind_run, logger_run. by eexists _, _.
Qed.

Lemma list_safe_returns rt found :
  (∀ tool e, tool ∈ found → Server.toJSONSchema rt (inputSchema tool) = Throw e →
             unreadable e = false) →
  ∀ s, ∃ listed s',
    mapM (λ tool,
            schema ← Server.safeZodToJson rt (inputSchema tool);
            mret {| Server.listed_name := name tool;
                    Server.listed_description := description tool;
                    Server.listed_inputSchema := schema |}) found s
    = (Ok listed, s') ∧
    Server.listed_name <$> listed = name <$> found ∧
    Server.listed_description <$> listed = description <$> found.
Proof.
  induction found as [|tool found IH]; intros Hrep s.
  - by eexists _, _.
  - cbn [mapM]. rewrite !bind_run.
    destruct (safeZodToJson_returns rt (inputSchema tool) s) as (json & s1 & ->).
    { intros e. apply Hrep. left. }
    cbn [mret M_ret]. rewrite bind_run.
    destruct (IH (λ tool' e Hin, Hrep tool' e (list_elem_of_further _ _ _ Hin)) s1)
      as (listed & s2 & -> & Hnames & Hdescs).
    eexists _, _. split; [done|]. cbn [fmap list_fmap Server.listed_name
                                        Server.listed_description].
    split; by f_equal.
Qed.

(** A conversion that throws [null] or [undefined] on a schema that
    passes the check makes the listing throw. *)
Lemma list_safe_throws rt found tool e :
  tool ∈ found →
  falsy (inputSchema tool) || negb (bool_decide (typeof (inputSchema tool) = "object"))
  || negb (Server.has_zod rt (inputSchema tool)) = false →
  Server.toJSONSchema rt (inputSchema tool) = Throw e → unreadable e = true →
  ∀ s, ∃ e' s',
    mapM (λ tool,
            schema ← Server.safeZodToJson rt (inputSchema tool);
            mret {| Server.listed_name := name tool;
                    Server.listed_description := description tool;
                    Server.listed_inputSchema := schema |}) found s
    = (Throw e', s').
Proof.
  intros Hin Hzod Hthrow Hnull. induction found as [|tool' found IH]; intros s.
  - by apply elem_of_nil in Hin.
  - cbn [mapM]. rewrite !bind_run.
    destruct (Server.safeZodToJson rt (inputSchema tool') s) as [[json|e'] s1] eqn:Hsafe;
      [|by eexists _, _].
    cbn [mret M_ret]. rewrite bind_run.
    apply elem_of_cons in Hin as [->|Hin].
    + unfold Server.safeZodToJson in Hsafe. rewrite Hzod, Hthrow in Hsafe.
      by rewrite bind_run, read_message_run, Hnull in Hsafe.
    + destruct (IH Hin s1) as (e1 & s2 & ->). by eexists _, _.
Qed.

(** X28.  [handleListTools] lists the tools that [loadTools()] returns,
    one entry each, in that order, with their names and descriptions
    unchanged, whatever the Zod conversion does with their schemas short
    of throwing [null] or [undefined].  It rejects when [loadTools()]
    rejects, with the same error, and when the conversion throws [null]
    or [undefined] on a schema that passes the check of
    [safeZodToJson]. *)
Theorem handleListTools_lists rt s :
  (∀ e, (loadTools s).1 = Throw e → (Server.handleListTools rt s).1 = Throw e) ∧
  (∀ found,
     (loadTools s).1 = Ok found →
     (∀ tool e, tool ∈ found → Server.toJSONSchema rt (inputSchema tool) = Throw e →
                unreadable e = false) →
     ∃ listed s',
       Server.handleListTools rt s = (Ok listed, s') ∧
       Server.listed_name <$> listed = name <$> found ∧
       Server.listed_description <$> listed = description <$> found) ∧
  (∀ found tool e,
     (loadTools s).1 = Ok found → tool ∈ found →
     falsy (inputSchema tool) || negb (bool_decide (typeof (inputSchema tool) = "object"))
     || negb (Server.has_zod rt (inputSchema tool)) = false →
     Server.toJSONSchema rt (inputSchema tool) = Throw e → unreadable e = true →
     ∃ e', (Server.handleListTools rt s).1 = Throw e').
Proof.
  pose proof (loadTools_logged
                (log (world s) ++ [Log DEBUG "Handling list_tools request" []]) s) as Hsame.
  unfold Server.handleListTools. rewrite bind_run, logger_run, bind_run.
  destruct (loadTools {| tools := tools s; world := with_log _ (world s) |})
    as [[found0|e0] s1]; cbn [fst] in Hsame; rewrite <-Hsame.
  - split_and!.
    + done.
    + intros found [= <-] Hrep. rewrite bind_run.
      destruct (list_safe_returns rt found0 Hrep s1)
        as (listed & s2 & -> & Hnames & Hdescs).
      rewrite bind_run, logger_run. by eexists _, _.
    + intros found tool e [= <-] Hin Hzod Hthrow Hnull. rewrite bind_run.
      destruct (list_safe_throws rt found0 tool e Hin Hzod Hthrow Hnull s1)
        as (e' & s2 & ->).
      by exists e'.
  - split_and!; [by intros e [= <-] | done..].
Qed.

Lemma list_unsafe_throws rt found tool e :
  tool ∈ found → Server.toJSONSchema rt (inputSchema tool) = Throw e →
  ∀ s, ∃ e' s',
    mapM (λ tool,
            jsonSchema ← (λ s, (Server.toJSONSchema rt (inputSchema tool), s));
            logger DEBUG "Generated JSON schema for tool"
              [("name", name tool);
               ("jsonSchema", Server.safeJsonStringify rt jsonSchema)];;
            mret {| Server.listed_name := name tool;
                    Server.listed_description := description tool;
                    Server.listed_inputSchema := jsonSchema |}) found s
    = (Throw e', s').
Proof.
  intros Hin Hthrow. induction found as [|tool' found IH]; intros s.
  - by apply elem_of_nil in Hin.
  - cbn [mapM]. rewrite !bind_run.
    destruct (Server.toJSONSchema rt (inputSchema tool')) as [json|e'] eqn:Hjson.
    + rewrite bind_run, logger_run. cbn [mret M_ret]. rewrite bind_run.
      apply elem_of_cons in Hin as [->|Hin]; [by rewrite Hthrow in Hjson|].
      match goal with |- context [mapM ?f found ?s0] =>
        destruct (IH Hin s0) as (e1 & s1 & ->) end.
      by eexists _, _.
    + by eexists _, _.
Qed.

(** X29.  The variant without [safeZodToJson] fails wholesale: when the
    conversion throws for the schema of one tool that loads, its
    [handleListTools] rejects, and no tool is listed. *)
Theorem handleListTools_unsafe_fails rt s tool e :
  tool ∈ found_on (world s) →
  Server.toJSONSchema rt (inputSchema tool) = Throw e →
  ∃ e' s', Server.handleListTools_unsafe rt s = (Throw e', s').
Proof.
  intros Hin Hthrow.
  unfold Server.handleListTools_unsafe. rewrite bind_run, logger_run, bind_run.
  match goal with |- context [AlwaysRescan.loadTools ?s0] =>
    destruct (rescan_loadTools_run s0) as (s1 & -> & _) end.
  cbn [world]. change (found_on (with_log _ (world s))) with (found_on (world s)).
  rewrite bind_run.
  destruct (list_unsafe_throws rt (found_on (world s)) tool e Hin Hthrow s1)
    as (e' & s2 & ->).
  by eexists _, _.
Qed.

Lemma handleListTools_unsafe_fails_witness :
  ∃ e' s', Server.handleListTools_unsafe Server.no_zod Sample.three_files = (Throw e', s').
Proof.
  refine (handleListTools_unsafe_fails Server.no_zod Sample.three_files
            (tool_of Sample.hello_ts Sample.hello_exports)
            (Error "tool.inputSchema.toJSONSchema is not a function") _ _).
  - vm_compute. constructor.
  - reflexivity.
Defined.

(** X30.  What [formatToolResult] returns is made of MCP content items:
    every item of the content has a [type]; an array gives one item for
    each of its elements, any other value gives one item; and
    [formatContentItem] leaves an item it has made as it is. *)
Theorem formatToolResult_content rt raw :
  Forall (λ item, Server.has_key "type" item = true)
         (Server.content (Server.formatToolResult rt raw)) ∧
  length (Server.content (Server.formatToolResult rt raw))
  = match raw with Server.JArray items => length items | _ => 1%nat end ∧
  ∀ item, Server.formatContentItem rt (Server.formatContentItem rt item)
          = Server.formatContentItem rt item.
Proof.
  assert (∀ item, Server.has_key "type" (Server.formatContentItem rt item) = true) as Hkey.
  { intros item. unfold Server.formatContentItem.
    destruct (_ && _ && Server.has_key "type" item) eqn:Hitem; [|done].
    by apply andb_prop in Hitem as [_ ?]. }
  split_and!.
  - destruct raw; cbn [Server.formatToolResult];
      try (destruct (_ && _); by repeat constructor).
    cbn [Server.content]. apply Forall_fmap, Forall_forall. intros item _. apply Hkey.
  - destruct raw; cbn [Server.formatToolResult];
      try (by destruct (_ && _)).
    cbn [Server.content]. by rewrite length_fmap.
  - intros item. specialize (Hkey item).
    unfold Server.formatContentItem at 1.
    destruct (Server.formatContentItem rt item) eqn:Hitem; try done.
    cbn [Server.truthy Server.typeof_json andb] in *.
    rewrite bool_decide_true by done. cbn [andb]. by rewrite Hkey.
Qed.
